(** * go-worktree: a shallow embedding of the worktree tool and its properties

    The tool creates a git worktree for a branch, copies a few untracked
    files into it and changes into it.  The development follows the source:

    - [GoStrings], [GoFilepath], [GoRegexp]: the functions of Go's [strings],
      [path/filepath] (Unix flavour) and [regexp] packages that the program
      calls, over byte strings;
    - [Repo]: the reference store of the go-git repository;
    - [Sys]: the process state (working directory, log of effects) and the
      answers of the operating system and of the external tools;
    - [Files] (the file copier, [FileCopier]), [Auth] (the credentials,
      [getAuth]), [Git] (git.go), [Main] (main.go): the program;
    - [Legacy]: the single-file variant of the tool (its own [main], one
      [CopyStrategy], [slog]).

    Go strings are byte strings; they are modelled as [string] (a list of
    8-bit characters).  Functions of Go's library that look at runes
    ([strings.TrimSpace], the [.] of [regexp]) are modelled on bytes, which
    coincides with Go on ASCII text. *)

From stdpp Require Import base strings list gmap.
From Stdlib Require Import Ascii Bool Arith Lia.

Open Scope string_scope.
Set Warnings "-register-all".
Arguments String.append !s1 s2 : simpl nomatch.

(** ** Byte strings *)

Module GoStrings.

(** [strings.HasPrefix] *)
Definition HasPrefix (s pre : string) : bool := String.prefix pre s.

(** [strings.Contains]: [substr] occurs somewhere in [s]. *)
Fixpoint Contains (s substr : string) : bool :=
  String.prefix substr s ||
  match s with
  | "" => false
  | String _ t => Contains t substr
  end.

(** [strings.ReplaceAll] replaces the non-overlapping occurrences of [old],
    leftmost first.  [replace_from] walks the string once; [skip] counts
    the bytes of a matched occurrence that are still to be dropped. *)
Fixpoint replace_from (old new : string) (skip : nat) (s : string) : string :=
  match s with
  | "" => ""
  | String c t =>
      match skip with
      | S k => replace_from old new k t
      | O =>
          if String.prefix old s
          then new +:+ replace_from old new (String.length old - 1) t
          else String c (replace_from old new 0 t)
      end
  end.

(** With an empty [old], Go inserts [new] before every character and at the
    end (per byte here, per rune in Go). *)
Fixpoint replace_empty (new s : string) : string :=
  match s with
  | "" => new
  | String c t => new +:+ String c (replace_empty new t)
  end.

Definition ReplaceAll (s old new : string) : string :=
  match old with
  | "" => replace_empty new s
  | _ => replace_from old new 0 s
  end.

(** The six ASCII white space bytes of [strings.TrimSpace]. *)
Definition asciiSpace (c : ascii) : bool :=
  match c with
  | "009"%char | "010"%char | "011"%char | "012"%char | "013"%char | " "%char => true
  | _ => false
  end.

Fixpoint TrimLeft (s : string) : string :=
  match s with
  | "" => ""
  | String c t => if asciiSpace c then TrimLeft t else s
  end.

Fixpoint TrimRight (s : string) : string :=
  match s with
  | "" => ""
  | String c t =>
      match TrimRight t with
      | "" => if asciiSpace c then "" else String c ""
      | t' => String c t'
      end
  end.

(** [strings.TrimSpace] *)
Definition TrimSpace (s : string) : string := TrimRight (TrimLeft s).

(** [strings.Split]: [split_from] returns the first segment and the list of
    the following ones. *)
Fixpoint split_from (sep : string) (skip : nat) (s : string) : string * list string :=
  match s with
  | "" => ("", [])
  | String c t =>
      match skip with
      | S k => split_from sep k t
      | O =>
          if String.prefix sep s
          then ("", let '(seg, rest) := split_from sep (String.length sep - 1) t in seg :: rest)
          else let '(seg, rest) := split_from sep 0 t in (String c seg, rest)
      end
  end.

(** With an empty separator Go explodes the string (into bytes here). *)
Fixpoint explode (s : string) : list string :=
  match s with
  | "" => []
  | String c t => String c "" :: explode t
  end.

Definition Split (s sep : string) : list string :=
  match sep with
  | "" => explode s
  | _ => let '(seg, rest) := split_from sep 0 s in seg :: rest
  end.

(** [strings.Join] *)
Definition Join (elems : list string) (sep : string) : string :=
  String.concat sep elems.

End GoStrings.

(** ** Paths (Unix [path/filepath]) *)

Module GoFilepath.
Import GoStrings.

Definition Separator : string := "/".

(** One step of [Clean] on the path elements, [out] being the elements
    kept so far, last one first. *)
Definition clean_step (rooted : bool) (out : list string) (elem : string) : list string :=
  if String.eqb elem "" then out
  else if String.eqb elem "." then out
  else if String.eqb elem ".." then
    match out with
    | top :: out' => if String.eqb top ".." then elem :: out else out'
    | [] => if rooted then [] else [elem]
    end
  else elem :: out.

(** [filepath.Clean] *)
Definition Clean (path : string) : string :=
  let rooted := HasPrefix path "/" in
  let out := rev (fold_left (clean_step rooted) (Split path "/") []) in
  match rooted, out with
  | true, _ => "/" +:+ GoStrings.Join out "/"
  | false, [] => "."
  | false, _ => GoStrings.Join out "/"
  end.

(** [filepath.Join]: the elements from the first non-empty one on, joined
    with the separator and cleaned; the empty string when all are empty. *)
Fixpoint Join (elem : list string) : string :=
  match elem with
  | [] => ""
  | e :: rest => if String.eqb e "" then Join rest else Clean (GoStrings.Join elem Separator)
  end.

(** The prefix of [s] up to and including its last ["/"]. *)
Fixpoint upto_last_slash (s : string) : string :=
  match s with
  | "" => ""
  | String c t =>
      if Contains s "/" then String c (upto_last_slash t) else ""
  end.

(** [filepath.Dir] *)
Definition Dir (path : string) : string := Clean (upto_last_slash path).

(** [filepath.IsAbs] *)
Definition IsAbs (path : string) : bool := HasPrefix path "/".

(** The directory a path names for a process whose working directory is
    [cwd]. *)
Definition resolve (cwd path : string) : string :=
  if IsAbs path then Clean path else Join [cwd; path].

End GoFilepath.

(** ** Regular expressions

    The fragment of Go's [regexp] syntax that the patterns of the program are
    written in: literal characters, escaped punctuation, [.], alternation,
    groups (capturing or not), the anchors [^] and [$], and the flag [(?i)]
    outside of groups.  [Compile] rejects everything else (repetition,
    classes, other flags), so [None] stands both for Go's syntax errors and
    for patterns outside the fragment.  Case is folded for the ASCII letters. *)

Module GoRegexp.

Inductive regex : Type :=
| Eps
| Chr (c : ascii)
| ChrFold (c : ascii)
| Any
| Bol
| Eol
| Seq (r1 r2 : regex)
| Alt (r1 r2 : regex).

(** A parse frame: the alternatives of the group that are complete and the
    atoms of the one under construction, both last one first. *)
Definition frame : Type := list regex * list regex.

Definition concat_of (atoms : list regex) : regex := fold_right Seq Eps atoms.

Fixpoint alt_of (first : regex) (others : list regex) : regex :=
  match others with
  | [] => first
  | r :: rs => Alt first (alt_of r rs)
  end.

Definition close (f : frame) : regex :=
  match rev (concat_of (rev f.2) :: f.1) with
  | [] => Eps
  | r :: rs => alt_of r rs
  end.

Definition push (r : regex) (f : frame) : frame := (f.1, r :: f.2).

Definition next_alt (f : frame) : frame := (concat_of (rev f.2) :: f.1, []).

(** Punctuation that a backslash turns into a literal. *)
Definition is_punct (c : ascii) : bool :=
  let n := nat_of_ascii c in
  (((33 <=? n) && (n <=? 47)) || ((58 <=? n) && (n <=? 64)) ||
   ((91 <=? n) && (n <=? 96)) || ((123 <=? n) && (n <=? 126)))%nat.

(** The lower-case form of an ASCII letter. *)
Definition lower (c : ascii) : ascii :=
  let n := nat_of_ascii c in
  if ((65 <=? n) && (n <=? 90))%nat then ascii_of_nat (n + 32) else c.

Definition literal_of (fold : bool) (c : ascii) : regex :=
  if fold then ChrFold c else Chr c.

(** The parser reads the pattern once, from left to right: [fold] is the
    flag [i], [esc] tells that the character before was a backslash, [cur]
    is the group under construction and [stack] the groups around it. *)
Fixpoint parse (fold esc : bool) (cur : frame) (stack : list frame) (s : string)
  : option regex :=
  match s with
  | "" =>
      if esc then None
      else match stack with [] => Some (close cur) | _ :: _ => None end
  | String c t =>
      if esc then
        if is_punct c then parse fold false (push (Chr c) cur) stack t else None
      else
        match c with
        | "\"%char => parse fold true cur stack t
        | "("%char =>
            match t with
            | String "?" (String ":" t') => parse fold false ([], []) (cur :: stack) t'
            | String "?" (String "i" (String ")" t')) =>
                match stack with
                | [] => parse true false cur stack t'
                | _ :: _ => None
                end
            | _ => parse fold false ([], []) (cur :: stack) t
            end
        | ")"%char =>
            match stack with
            | [] => None
            | parent :: stack' => parse fold false (push (close cur) parent) stack' t
            end
        | "|"%char => parse fold false (next_alt cur) stack t
        | "."%char => parse fold false (push Any cur) stack t
        | "^"%char => parse fold false (push Bol cur) stack t
        | "$"%char => parse fold false (push Eol cur) stack t
        | "*"%char | "+"%char | "?"%char | "["%char | "]"%char | "{"%char | "}"%char => None
        | _ => parse fold false (push (literal_of fold c) cur) stack t
        end
  end.

(** [regexp.Compile] *)
Definition Compile (pattern : string) : option regex :=
  parse false false ([], []) [] pattern.

(** Backtracking matcher in continuation-passing style.  [bol] tells
    whether the position is the beginning of the text; [.] does not match a
    newline (no [s] flag) and [$] matches at the end of the text only (no
    [m] flag). *)
Fixpoint run (r : regex) (bol : bool) (s : string) (k : bool -> string -> bool) : bool :=
  match r with
  | Eps => k bol s
  | Chr c =>
      match s with
      | String d t => if Ascii.eqb c d then k false t else false
      | "" => false
      end
  | ChrFold c =>
      match s with
      | String d t => if Ascii.eqb (lower c) (lower d) then k false t else false
      | "" => false
      end
  | Any =>
      match s with
      | String d t => if Ascii.eqb d "010" then false else k false t
      | "" => false
      end
  | Bol => if bol then k bol s else false
  | Eol => match s with "" => k bol s | String _ _ => false end
  | Seq r1 r2 => run r1 bol s (fun b s' => run r2 b s' k)
  | Alt r1 r2 => run r1 bol s k || run r2 bol s k
  end.

Definition match_here (r : regex) (bol : bool) (s : string) : bool :=
  run r bol s (fun _ _ => true).

Fixpoint search (r : regex) (bol : bool) (s : string) : bool :=
  match_here r bol s ||
  match s with
  | "" => false
  | String _ t => search r false t
  end.

(** [Regexp.MatchString]: some substring of [s] matches. *)
Definition MatchString (r : regex) (s : string) : bool := search r true s.

(** [regexp.MatchString pattern s], false when the pattern does not compile. *)
Definition matches (pattern s : string) : bool :=
  match Compile pattern with
  | Some r => MatchString r s
  | None => false
  end.

End GoRegexp.

(** ** The reference store of the repository (go-git) *)

Module Repo.

(** A commit identifier ([plumbing.Hash]), as its hexadecimal text. *)
Abbreviation Hash := string (only parsing).

Inductive Reference : Type :=
| HashReference (h : Hash)
| SymbolicReference (target : string).

Abbreviation Refs := (gmap string Reference).

(** [plumbing.NewBranchReferenceName], [plumbing.NewRemoteReferenceName]
    and [plumbing.HEAD] *)
Definition NewBranchReferenceName (name : string) : string := "refs/heads/" +:+ name.

Definition NewRemoteReferenceName (remote name : string) : string :=
  "refs/remotes/" +:+ remote +:+ "/" +:+ name.

Definition HEAD : string := "HEAD".

Definition MaxResolveRecursion : nat := 1024.

(** [storer.ResolveReference] follows symbolic references, at most
    [MaxResolveRecursion + 1] of them; [fuel] counts the ones left. *)
Fixpoint resolveReference (refs : Refs) (fuel : nat) (r : Reference) : option Hash :=
  match r with
  | HashReference h => Some h
  | SymbolicReference target =>
      match fuel with
      | O => None
      | S fuel' =>
          match refs !! target with
          | None => None
          | Some r' => resolveReference refs fuel' r'
          end
      end
  end.

(** [Repository.Reference name true]: the commit the reference resolves to,
    [None] when the lookup fails. *)
Definition Reference_ (refs : Refs) (name : string) : option Hash :=
  match refs !! name with
  | None => None
  | Some r => resolveReference refs (S MaxResolveRecursion) r
  end.

(** [Repository.Head] *)
Definition Head (refs : Refs) : option Hash := Reference_ refs HEAD.

(** [Storer.SetReference] of a hash reference *)
Definition SetReference (refs : Refs) (name : string) (h : Hash) : Refs :=
  <[name := HashReference h]> refs.

End Repo.

(** ** The process and its environment *)

Module Sys.
Import Repo.

(** A Go [error] is modelled by its message; [result] is a value or an
    error, [option error] is Go's nil-able [error]. *)
Abbreviation error := string (only parsing).

Inductive result (A : Type) : Type :=
| Ok (a : A)
| Err (e : error).
Arguments Ok {A} a.
Arguments Err {A} e.

(** What [os.Stat] can answer. *)
Inductive stat_result : Type := StatOk | StatNotExist | StatError (e : error).

(** What [Worktree.PullContext] can answer. *)
Inductive pull_outcome : Type :=
| PullDone
| NoErrAlreadyUpToDate
| PullFailed (e : error).

(** [transport.AuthMethod] *)
Inductive AuthMethod : Type :=
| SSHAgentAuth (user : string)
| PublicKeys (user keyfile : string)
| BasicAuth (username password : string).

(** A file tree as [filepath.Walk] meets it: entries that are not
    directories, directories with their entries in the order
    [readDirNames] lists them, directories that cannot be read and entries
    on which [lstat] fails. *)
Inductive node : Type :=
| File (name : string)
| Dir (name : string) (entries : list node)
| Unreadable (name : string) (e : error)
| Broken (name : string) (e : error).

Definition node_name (n : node) : string :=
  match n with
  | File name | Dir name _ | Unreadable name _ | Broken name _ => name
  end.

Definition node_is_dir (n : node) : bool :=
  match n with
  | Dir _ _ | Unreadable _ _ => true
  | File _ | Broken _ _ => false
  end.

(** A repository handle of go-git: the root of its work tree, none for a
    bare repository. *)
Record Repository : Type := { worktree_root : option string }.

(** The answers of the operating system and of the external programs.
    Paths are absolute here: the program's relative paths are resolved
    against the working directory before the environment is asked.  An
    answer depends on what is asked, not on what happened before; the
    properties below hold for every environment. *)
Record Env : Type := {
  goos : string;
  getwd_err : option error;
  chdir_err : string -> option error;
  stat : string -> stat_result;
  mkdirall_err : string -> option error;
  (* [os.Open], [os.Create] and [io.Copy] from one file to another *)
  open_err : string -> option error;
  create_err : string -> option error;
  copy_err : string -> string -> option error;
  tree : string -> node;
  home_dir : result string;
  look_path : string -> bool;
  (* [cmd.Run] and [cmd.Output] of a command line started in a directory,
     the latter with the text given on standard input *)
  run_err : string -> list string -> option error;
  output : string -> list string -> string -> result string;
  (* go-git *)
  plain_open : string -> option Repository;
  remote_urls : result (list string);
  ssh_agent : bool;
  ssh_key_loads : string -> bool;
  pull_context : Refs -> option AuthMethod -> pull_outcome * Refs;
  set_reference_err : string -> option error
}.

(** What the process does, in order. *)
Inductive event : Type :=
| Chdir (dir : string) (ok : bool)
| Stat (path : string)
| MkdirAll (dir : string) (ok : bool)
| FileOp (op path : string) (ok : bool)
| Walk (root : string)
| LookPath (name : string)
| Exec (dir : string) (argv : list string) (ok : bool)
| Pull (auth : option AuthMethod)
| SetRef (name : string) (h : Hash) (ok : bool)
| Go (task : string) (args : list string)
| Warn (msg : string)
| Logged (msg : string)
| Printed (msg : string).

Record World : Type := {
  cwd : string;
  refs : Refs;
  trace : list event
}.

Definition M (A : Type) : Type := World -> A * World.

Definition ret {A} (a : A) : M A := fun w => (a, w).

Definition bind {A B} (m : M A) (k : A -> M B) : M B :=
  fun w => let '(a, w') := m w in k a w'.

Definition emit (e : event) : M unit :=
  fun w => (tt, {| cwd := cwd w; refs := refs w; trace := (trace w ++ [e])%list |}).

Definition get_cwd : M string := fun w => (cwd w, w).

Definition get_refs : M Refs := fun w => (refs w, w).

Definition set_cwd (dir : string) : M unit :=
  fun w => (tt, {| cwd := dir; refs := refs w; trace := trace w |}).

Definition set_refs (r : Refs) : M unit :=
  fun w => (tt, {| cwd := cwd w; refs := r; trace := trace w |}).

End Sys.

Declare Scope go_scope.
Delimit Scope go_scope with go.
Notation "'do' x <- c ; k" := (Sys.bind c (fun x => k))
  (at level 10, x name, c at level 100, k at level 200) : go_scope.
Notation "c ;; k" := (Sys.bind c (fun _ => k))
  (at level 100, k at level 200, right associativity) : go_scope.
Open Scope go_scope.

(** ** System calls *)

Module Os.
Import Sys.

Section WithEnv.
Variable E : Env.

Definition isNil (e : option error) : bool :=
  match e with None => true | Some _ => false end.

(** [os.Chdir] *)
Definition Chdir_ (dir : string) : M (option error) :=
  do d <- get_cwd;
  let target := GoFilepath.resolve d dir in
  let e := chdir_err E target in
  emit (Chdir target (isNil e)) ;;
  match e with
  | None => set_cwd target ;; ret None
  | Some _ => ret e
  end.

(** [os.Stat] *)
Definition Stat_ (path : string) : M stat_result :=
  do d <- get_cwd;
  let target := GoFilepath.resolve d path in
  emit (Stat target) ;;
  ret (stat E target).

(** [os.MkdirAll] *)
Definition MkdirAll_ (dir : string) : M (option error) :=
  do d <- get_cwd;
  let target := GoFilepath.resolve d dir in
  let e := mkdirall_err E target in
  emit (MkdirAll target (isNil e)) ;;
  ret e.

(** [exec.LookPath] *)
Definition LookPath_ (name : string) : M bool :=
  emit (LookPath name) ;;
  ret (look_path E name).

(** [exec.Command(argv...).Run()] *)
Definition Run (argv : list string) : M (option error) :=
  do d <- get_cwd;
  let e := run_err E d argv in
  emit (Exec d argv (isNil e)) ;;
  ret e.

(** [exec.Command(argv...).Output()], [stdin] being the text the command
    reads *)
Definition Output (argv : list string) (stdin : string) : M (result string) :=
  do d <- get_cwd;
  let o := output E d argv stdin in
  emit (Exec d argv (match o with Ok _ => true | Err _ => false end)) ;;
  ret o.

End WithEnv.
End Os.

(** ** [filepath.Walk] *)

Module WalkDir.
Import Sys.

(** The special errors a [WalkFunc] may return. *)
Inductive walk_error : Type :=
| SkipDir
| SkipAll
| Failure (e : error).

(** [os.FileInfo], as far as the program looks at it. *)
Record FileInfo : Type := { Name : string; IsDir : bool }.

Definition info_of (n : node) : FileInfo :=
  {| Name := node_name n; IsDir := node_is_dir n |}.

(** The three ways [Walk] calls its function: on an entry, on a directory
    whose entries cannot be listed, on an entry that [lstat] fails on (no
    [FileInfo] then). *)
Inductive arrival : Type :=
| Found (info : FileInfo)
| NotListed (info : FileInfo) (e : error)
| NoInfo (e : error).

Section Walk.
Context {S : Type}.

Definition WalkFunc : Type := string -> arrival -> S -> option walk_error * S.

Variable fn : WalkFunc.

Definition is_SkipDir (e : walk_error) : bool :=
  match e with SkipDir => true | _ => false end.

(** Whether the loop over the entries of a directory goes on after the
    error [e] from the entry [m]: only after [SkipDir], from a directory
    or from an entry that [lstat] failed on. *)
Definition goes_on (m : node) (e : walk_error) : bool :=
  is_SkipDir e && (node_is_dir m || match m with Broken _ _ => true | _ => false end).

(** The loop of [walk] over the entries of the directory [path];
    [visit] is [walk] itself. *)
Definition entries_loop (visit : string -> node -> S -> option walk_error * S)
    (path : string) : list node -> S -> option walk_error * S :=
  fix loop (l : list node) (s : S) {struct l} : option walk_error * S :=
    match l with
    | [] => (None, s)
    | m :: rest =>
        let filename := GoFilepath.Join [path; node_name m] in
        let '(err, s') := visit filename m s in
        match err with
        | None => loop rest s'
        | Some e => if goes_on m e then loop rest s' else (err, s')
        end
    end.

(** [walk path info fn] on the node found at [path]. *)
Fixpoint walk (path : string) (n : node) (s : S) {struct n} : option walk_error * S :=
  match n with
  | File _ => fn path (Found (info_of n)) s
  | Broken _ e => fn path (NoInfo e) s
  | Unreadable _ e => fn path (NotListed (info_of n) e) s
  | Dir _ entries =>
      let '(err1, s1) := fn path (Found (info_of n)) s in
      match err1 with
      | Some _ => (err1, s1)
      | None => entries_loop walk path entries s1
      end
  end.

(** [filepath.Walk root fn], [n] being what is at [root]. *)
Definition Walk (root : string) (n : node) (s : S) : option error * S :=
  let '(err, s') := walk root n s in
  match err with
  | None | Some SkipDir | Some SkipAll => (None, s')
  | Some (Failure e) => (Some e, s')
  end.

End Walk.
End WalkDir.

(** ** The file copier: copying untracked files *)

Module Files.
Import Sys Os WalkDir.

(** The newline character, as a string. *)
Definition nl : string := String "010" "".

Section WithEnv.
Variable E : Env.

Definition hasCommand (name : string) : M bool := LookPath_ E name.

(** The copy strategies of [copyWithCOW], the flags of [cp] in the
    order they are tried:
    BSD/macOS copy-on-write, GNU copy-on-write, regular copy. *)
Definition copyStrategies : list (list string) :=
  [ ["-Rc"]; ["-R"; "--reflink"]; ["-R"] ].

(** The loop of [copyWithCOW] over the strategies and the error after it. *)
Fixpoint try_strategies (strategies : list (list string)) (src dest : string)
  : M (option error) :=
  match strategies with
  | [] => ret (Some ("failed to copy " +:+ src +:+ " to " +:+ dest))
  | strategy :: rest =>
      let args := (strategy ++ [src; dest])%list in
      do err <- Run E ("cp" :: args);
      match err with
      | None => ret None
      | Some _ => try_strategies rest src dest
      end
  end.

Definition copyWithCOW (src dest : string) : M (option error) :=
  let destDir := GoFilepath.Dir dest in
  do err <- MkdirAll_ E destDir;
  match err with
  | Some _ => ret err
  | None => try_strategies copyStrategies src dest
  end.

(** The body of the goroutine that [copyNodeModulesAsync] starts.  It
    runs beside the main flow, which only records that it was started; its
    calls are gone through one by one in [Background]. *)
Definition copyNodeModulesTask (worktreePath : string) : M unit :=
  let destPath := GoFilepath.Join [worktreePath; "node_modules"] in
  emit (Warn "copying node_modules in the background") ;;
  do err <- copyWithCOW "node_modules" destPath;
  match err with
  | Some e => emit (Warn ("Failed to copy node_modules: " +:+ e))
  | None => ret tt
  end.

Definition copyNodeModulesAsync (worktreePath : string) : M (option error) :=
  do st <- Stat_ E "node_modules";
  match st with
  | StatNotExist => ret None
  | _ => emit (Go "copyNodeModules" [worktreePath]) ;; ret None
  end.

Definition defaultPatterns : string :=
  "\.env|\.envrc|\.env.local|\.mise.toml|\.tool-versions|mise.toml".

Definition getUntrackedFilesPattern : M string :=
  do out <- Output E ["git"; "config"; "--get-all"; "worktree.untrackedfiles"] "";
  match out with
  | Err _ => ret ("^(" +:+ defaultPatterns +:+ ")$")
  | Ok output =>
      let customPatterns := GoStrings.TrimSpace output in
      if negb (String.eqb customPatterns "") then
        let patterns := GoStrings.Split customPatterns nl in
        let joined := GoStrings.Join patterns "|" in
        ret ("^(" +:+ joined +:+ ")$")
      else ret ("^(" +:+ defaultPatterns +:+ ")$")
  end.

Definition findFilesWithFd (pattern : string) : M (result (list string)) :=
  do out <- Output E ["fd"; "-u"; pattern; "-E"; "node_modules"] "";
  match out with
  | Err e => ret (Err e)
  | Ok output =>
      let files := GoStrings.Split (GoStrings.TrimSpace output) nl in
      if (length files =? 1)%nat && String.eqb (nth 0 files "") ""
      then ret (Ok [])
      else ret (Ok files)
  end.

(** The function [findFilesWithWalk] hands to [filepath.Walk]; its state
    is the slice [files]. *)
Definition walkFunc (re : GoRegexp.regex) : @WalkFunc (list string) :=
  fun path a files =>
    match a with
    | NotListed _ err | NoInfo err => (Some (Failure err), files)
    | Found info =>
        if GoStrings.Contains path "node_modules" then (None, files)
        else if negb (IsDir info) && GoRegexp.MatchString re (Name info)
             then (None, (files ++ [path])%list)
             else (None, files)
    end.

Definition findFilesWithWalk (re : GoRegexp.regex) : M (result (list string)) :=
  do d <- get_cwd;
  let root := GoFilepath.resolve d "." in
  emit (Sys.Walk root) ;;
  let '(err, files) := Walk (walkFunc re) "." (tree E root) [] in
  match err with
  | Some e => ret (Err e)
  | None => ret (Ok files)
  end.

Definition findFiles (pattern : string) : M (result (list string)) :=
  do fd <- hasCommand "fd";
  if fd then findFilesWithFd pattern
  else
    match GoRegexp.Compile pattern with
    | None => ret (Err ("error parsing regexp: " +:+ pattern))
    | Some re => findFilesWithWalk re
    end.

(** The loop of [copyUntrackedFiles] over the files found. *)
Fixpoint copy_each (worktreePath : string) (files : list string) : M unit :=
  match files with
  | [] => ret tt
  | file :: rest =>
      let destPath := GoFilepath.Join [worktreePath; file] in
      do err <- copyWithCOW file destPath;
      match err with
      | Some _ =>
          emit (Warn ("Unable to copy file " +:+ file +:+ " to " +:+ destPath
                      +:+ " - folder may not exist"))
      | None => ret tt
      end ;;
      copy_each worktreePath rest
  end.

Definition copyUntrackedFiles (worktreePath : string) : M (option error) :=
  do pattern <- getUntrackedFilesPattern;
  do found <- findFiles pattern;
  match found with
  | Err e => ret (Some e)
  | Ok files => copy_each worktreePath files ;; ret None
  end.

End WithEnv.
End Files.

(** ** The copy of [node_modules] in the background

    [copyNodeModulesAsync] starts a goroutine and returns; the main flow
    records this with the event [Go].  The goroutine makes its calls while
    the main flow goes on, and each of its calls sees the working directory
    the process has at that moment. *)

Module Background.
Import Sys Os Files.

(** Where the goroutine stands: before its warning, before the [MkdirAll]
    of [copyWithCOW], in the loop of [copyWithCOW] with the strategies still
    to try, before the warning about the error [e], at its end. *)
Inductive stage : Type :=
| Announce
| MakeDir
| TryCopy (strategies : list (list string))
| Report (e : error)
| Finished.

Section WithEnv.
Variable E : Env.
Variable worktreePath : string.

Definition destPath : string := GoFilepath.Join [worktreePath; "node_modules"].

(** The next call of the goroutine. *)
Definition task_step (s : stage) : M stage :=
  match s with
  | Announce =>
      emit (Warn "copying node_modules in the background") ;;
      ret MakeDir
  | MakeDir =>
      do err <- MkdirAll_ E (GoFilepath.Dir destPath);
      match err with
      | Some e => ret (Report e)
      | None => ret (TryCopy copyStrategies)
      end
  | TryCopy [] =>
      ret (Report ("failed to copy " +:+ "node_modules" +:+ " to " +:+ destPath))
  | TryCopy (strategy :: rest) =>
      let args := (strategy ++ ["node_modules"; destPath])%list in
      do err <- Run E ("cp" :: args);
      match err with
      | None => ret Finished
      | Some _ => ret (TryCopy rest)
      end
  | Report e =>
      emit (Warn ("Failed to copy node_modules: " +:+ e)) ;;
      ret Finished
  | Finished => ret Finished
  end.

(** [n] calls of the goroutine in a row. *)
Fixpoint task_steps (n : nat) (s : stage) : M stage :=
  match n with
  | 0 => ret s
  | S n' => do s' <- task_step s; task_steps n' s'
  end.

(** What an event of the main flow does to the process: it is recorded,
    and a successful change of directory moves the process.  (Once the
    goroutine is started the main flow writes no reference any more.) *)
Definition happen (e : event) (w : World) : World :=
  {| cwd := match e with Chdir dir true => dir | _ => cwd w end;
     refs := refs w;
     trace := (trace w ++ [e])%list |}.

(** A run of the process from the moment the goroutine is started:
    [rest] are the events of the main flow still to come, [s] is where the
    goroutine stands.  The schedule says, turn by turn, who goes on: the
    main flow with its next event ([true]) or the goroutine with its next
    call ([false]).  The run ends with the schedule: the process may end
    before the goroutine has finished, and the goroutine may still make
    calls after the last event of the main flow, until the process is
    gone.  The answers of the environment do not depend on what happened
    before, so the events of the main flow are the ones it has alone. *)
Fixpoint together (schedule : list bool) (rest : list event) (s : stage) (w : World)
  : World :=
  match schedule with
  | [] => w
  | true :: schedule' =>
      match rest with
      | [] => together schedule' [] s w
      | e :: rest' => together schedule' rest' s (happen e w)
      end
  | false :: schedule' =>
      let '(s', w') := task_step s w in
      together schedule' rest s' w'
  end.

End WithEnv.
End Background.

(** ** Credentials for the pull *)

Module Auth.
Import Sys Os.

Section WithEnv.
Variable E : Env.

(** The loop of [getSSHAuth] over the usual key names. *)
Fixpoint try_keys (homeDir : string) (keyNames : list string)
  : M (result (option AuthMethod)) :=
  match keyNames with
  | [] => ret (Err "no SSH keys found or SSH agent not available")
  | keyName :: rest =>
      let sshKey := GoFilepath.Join [homeDir; ".ssh"; keyName] in
      do st <- Stat_ E sshKey;
      match st with
      | StatOk =>
          if ssh_key_loads E sshKey
          then ret (Ok (Some (PublicKeys "git" sshKey)))
          else try_keys homeDir rest
      | _ => try_keys homeDir rest
      end
  end.

Definition getSSHAuth : M (result (option AuthMethod)) :=
  if ssh_agent E then ret (Ok (Some (SSHAgentAuth "git")))
  else
    match home_dir E with
    | Err e => ret (Err ("failed to get home directory: " +:+ e))
    | Ok homeDir => try_keys homeDir ["id_rsa"; "id_ed25519"; "id_ecdsa"; "id_dsa"]
    end.

Definition getGitHubToken : M (result string) :=
  do out <- Output E ["gh"; "auth"; "token"] "";
  match out with
  | Err e => ret (Err e)
  | Ok output => ret (Ok (GoStrings.TrimSpace output))
  end.

(** [strings.TrimPrefix line "password="] for a line that has the prefix *)
Definition after_password (line : string) : string :=
  String.substring 9 (String.length line - 9) line.

Fixpoint find_password (lines : list string) : result string :=
  match lines with
  | [] => Err "no password found in git credentials"
  | line :: rest =>
      if GoStrings.HasPrefix line "password=" then Ok (after_password line)
      else find_password rest
  end.

Definition getGitCredentials (url : string) : M (result string) :=
  do out <- Output E ["git"; "credential"; "fill"] ("url=" +:+ url +:+ Files.nl);
  match out with
  | Err e => ret (Err e)
  | Ok output => ret (find_password (GoStrings.Split output Files.nl))
  end.

Definition getHTTPSAuth (remoteURL : string) : M (result (option AuthMethod)) :=
  do gh <- getGitHubToken;
  match gh with
  | Ok token => ret (Ok (Some (BasicAuth "token" token)))
  | Err _ =>
      do cred <- getGitCredentials remoteURL;
      match cred with
      | Ok token => ret (Ok (Some (BasicAuth "token" token)))
      | Err _ => ret (Err "no HTTPS authentication method found")
      end
  end.

Definition getAuth : M (result (option AuthMethod)) :=
  match remote_urls E with
  | Err e => ret (Err ("failed to get origin remote: " +:+ e))
  | Ok [] => ret (Err "no URLs configured for origin remote")
  | Ok (remoteURL :: _) =>
      if GoStrings.HasPrefix remoteURL "git@" || GoStrings.HasPrefix remoteURL "ssh://"
      then getSSHAuth
      else if GoStrings.HasPrefix remoteURL "https://github.com"
      then getHTTPSAuth remoteURL
      else ret (Ok None)
  end.

End WithEnv.
End Auth.

(** ** git.go: the repository *)

Module Git.
Import Sys Os Repo.

Record Config : Type := { verbose : bool }.

Record GitRepo : Type := {
  root : string;
  repository : Repository;
  config : Config
}.

Definition ErrNotInGitRepo : error := "not in a git repository".
Definition ErrWorktreeCreationFailed : error := "failed to create git worktree".

(** [Repository.Worktree]: refused for a bare repository. *)
Definition Worktree (r : Repository) : result string :=
  match worktree_root r with
  | Some dir => Ok dir
  | None => Err "worktree not available in a bare repository"
  end.

Section WithEnv.
Variable E : Env.

Definition initGitRepo (cfg : Config) : M (result GitRepo) :=
  match getwd_err E with
  | Some e => ret (Err ("failed to get current directory: " +:+ e))
  | None =>
      do dir <- get_cwd;
      match plain_open E dir with
      | None => ret (Err ErrNotInGitRepo)
      | Some repo =>
          match Worktree repo with
          | Err e => ret (Err ("failed to get worktree: " +:+ e))
          | Ok root =>
              do err <- Chdir_ E root;
              match err with
              | Some e => ret (Err ("failed to change to git root directory: " +:+ e))
              | None => ret (Ok {| root := root; repository := repo; config := cfg |})
              end
          end
      end
  end.

(** [Worktree.PullContext] with the remote [origin]: go-git updates the
    references it fetched. *)
Definition PullContext (auth : option AuthMethod) : M pull_outcome :=
  do rs <- get_refs;
  let '(o, rs') := pull_context E rs auth in
  emit (Pull auth) ;;
  set_refs rs' ;;
  ret o.

Definition pull (r : GitRepo) : M (option error) :=
  match Worktree (repository r) with
  | Err e => ret (Some ("failed to get worktree: " +:+ e))
  | Ok _ =>
      do a <- Auth.getAuth E;
      match a with
      | Err e => ret (Some ("failed to get authentication: " +:+ e))
      | Ok auth =>
          do o <- PullContext auth;
          match o with
          | PullDone | NoErrAlreadyUpToDate => ret None
          | PullFailed errStr =>
              if GoStrings.Contains errStr "no upstream"
                 || GoStrings.Contains errStr "no tracking information"
              then ret (Some "no upstream configured for current branch")
              else if GoStrings.Contains errStr "authentication required"
                      || GoStrings.Contains errStr "Repository not found"
              then ret (Some "authentication failed or repository not accessible")
              else ret (Some ("failed to pull: " +:+ errStr))
          end
      end
  end.

(** [r.repository.Reference name true] *)
Definition Reference (name : string) : M (option Hash) :=
  do rs <- get_refs; ret (Reference_ rs name).

(** [r.repository.Head ()] *)
Definition Head_ : M (option Hash) :=
  do rs <- get_refs; ret (Head rs).

Definition isSome {A} (o : option A) : bool :=
  match o with Some _ => true | None => false end.

Definition branchExistsLocally (branchname : string) : M bool :=
  let branchRef := NewBranchReferenceName branchname in
  do ref <- Reference branchRef;
  ret (isSome ref).

Definition branchExistsOnRemote (branchname : string) : M bool :=
  let remoteRef := NewRemoteReferenceName "origin" branchname in
  do ref <- Reference remoteRef;
  ret (isSome ref).

(** [r.repository.Storer.SetReference (plumbing.NewHashReference name h)] *)
Definition SetReference_ (name : string) (h : Hash) : M (option error) :=
  let e := set_reference_err E name in
  emit (SetRef name h (isNil e)) ;;
  match e with
  | Some _ => ret e
  | None => do rs <- get_refs; set_refs (SetReference rs name h) ;; ret None
  end.

(** The end of [createWorktree], once the branch is resolved: the main
    worktree is asked for, and the worktree itself is left to the git
    command.  (In verbose mode the command writes to the terminal; its
    output is not modelled.) *)
Definition add_worktree (r : GitRepo) (branchname worktreePath : string)
  : M (option error) :=
  match Worktree (repository r) with
  | Err e => ret (Some ("failed to get main worktree: " +:+ e))
  | Ok _ => Run E ["git"; "worktree"; "add"; worktreePath; branchname]
  end.

Definition createWorktree (r : GitRepo) (branchname worktreePath : string)
  : M (option error) :=
  do loc <- branchExistsLocally branchname;
  if loc then
    let ref := NewBranchReferenceName branchname in
    do branchRef <- Reference ref;
    match branchRef with
    | None => ret (Some "failed to get local branch reference: reference not found")
    | Some _ => add_worktree r branchname worktreePath
    end
  else
    do rem <- branchExistsOnRemote branchname;
    if rem then
      let remoteRef := NewRemoteReferenceName "origin" branchname in
      do branchRef <- Reference remoteRef;
      match branchRef with
      | None => ret (Some "failed to get remote branch reference: reference not found")
      | Some hash =>
          (* Create local branch from remote *)
          let ref := NewBranchReferenceName branchname in
          do err <- SetReference_ ref hash;
          match err with
          | Some e => ret (Some ("failed to create local branch: " +:+ e))
          | None => add_worktree r branchname worktreePath
          end
      end
    else
      (* Create new branch from HEAD *)
      do head <- Head_;
      match head with
      | None => ret (Some "failed to get HEAD: reference not found")
      | Some hash =>
          let ref := NewBranchReferenceName branchname in
          do err <- SetReference_ ref hash;
          match err with
          | Some e => ret (Some ("failed to create new branch: " +:+ e))
          | None => add_worktree r branchname worktreePath
          end
      end.

Definition createBranch (branchname : string) : M (option error) :=
  do head <- Head_;
  match head with
  | None => ret (Some "failed to get HEAD: reference not found")
  | Some hash => SetReference_ (NewBranchReferenceName branchname) hash
  end.

End WithEnv.
End Git.

(** ** main.go: the command *)

Module Main.
Import Sys Os Git.

Record WorktreeManager : Type := { wm_config : Config }.

(** A text between double quotes. *)
Definition quoted (s : string) : string := String "034" (s +:+ String "034" "").

(** What [usage] prints. *)
Definition usage_text : string :=
  String.concat Files.nl
    [ "worktree [-v] <branch name>";
      "";
      "create a git worktree with <branch name>. Will create a worktree if one isn't";
      "found that matches the given name.";
      "";
      "Will copy over some untracked files to the new worktree. By default, this includes";
      ".env, .envrc, .env.local, .tool-versions, and mise.toml files.";
      "";
      "To customize the list of untracked files to copy for a particular repository:";
      "    git config --add worktree.untrackedfiles " +:+ quoted ".env";
      "    git config --add worktree.untrackedfiles " +:+ quoted "mise.toml";
      "";
      "To set a global configuration for all repositories:";
      "    git config --global --add worktree.untrackedfiles " +:+ quoted ".env";
      "    git config --global --add worktree.untrackedfiles " +:+ quoted "mise.toml";
      "";
      "If you have any custom configuration set, it will override the defaults";
      "completely, so add all files you want copied.";
      "" ].

Section WithEnv.
Variable E : Env.

Definition warn (msg : string) : M unit := emit (Warn msg).

(** [wm.config.logger.Printf] *)
Definition logger_Printf (msg : string) : M unit := emit (Logged msg).

Definition setupDirenv (worktreePath : string) : M (option error) :=
  let envrcPath := GoFilepath.Join [worktreePath; ".envrc"] in
  do st <- Stat_ E envrcPath;
  match st with
  | StatOk => Run E ["direnv"; "allow"; worktreePath]
  | _ => ret None
  end.

Definition dirname_of (branchname : string) : string :=
  GoStrings.ReplaceAll branchname "/" "_".

Definition worktreePath_of (branchname : string) : string :=
  GoFilepath.Join [".."; dirname_of branchname].

(** The pull of [CreateWorktree] and what is said about its failure. *)
Definition pull_step (wm : WorktreeManager) (repo : GitRepo) : M unit :=
  do err <- pull E repo;
  match err with
  | None => ret tt
  | Some errStr =>
      if GoStrings.Contains errStr "no upstream" then
        (* Silent for no upstream - this is common and expected *)
        ret tt
      else if verbose (wm_config wm) then warn ("Unable to pull: " +:+ errStr)
      else ret tt
  end.

(** [CreateWorktree] from the creation of the worktree on. *)
Definition create_and_enter (wm : WorktreeManager) (repo : GitRepo)
    (branchname worktreePath : string) : M (option error) :=
  do err <- createWorktree E repo branchname worktreePath;
  match err with
  | Some e => ret (Some (ErrWorktreeCreationFailed +:+ ": " +:+ e))
  | None =>
      do err <- Files.copyNodeModulesAsync E worktreePath;
      match err with
      | Some e => logger_Printf ("Error copying node_modules: " +:+ e)
      | None => ret tt
      end ;;
      do err <- Files.copyUntrackedFiles E worktreePath;
      match err with
      | Some e => warn ("Error copying untracked files: " +:+ e)
      | None => ret tt
      end ;;
      do err <- setupDirenv worktreePath;
      match err with
      | Some e => logger_Printf ("Error setting up direnv: " +:+ e)
      | None => ret tt
      end ;;
      do err <- Chdir_ E worktreePath;
      match err with
      | Some e => ret (Some ("failed to change to worktree directory: " +:+ e))
      | None =>
          emit (Printed ("created worktree " +:+ worktreePath)) ;;
          ret None
      end
  end.

Definition CreateWorktree (wm : WorktreeManager) (branchname : string)
  : M (option error) :=
  do r <- initGitRepo E (wm_config wm);
  match r with
  | Err e => ret (Some e)
  | Ok repo =>
      let dirname := GoStrings.ReplaceAll branchname "/" "_" in
      let worktreePath := GoFilepath.Join [".."; dirname] in
      pull_step wm repo ;;
      create_and_enter wm repo branchname worktreePath
  end.

Definition die (msg : string) : M nat :=
  emit (Printed msg) ;; ret 1.

(** [main] after [flag.Parse]: the value of the verbose flag and the
    remaining arguments; the result is the exit status. *)
Definition main (verbose : bool) (args : list string) : M nat :=
  match args with
  | [] => emit (Printed usage_text) ;; ret 1
  | branchname :: _ =>
      let config := {| verbose := verbose |} in
      let manager := {| wm_config := config |} in
      do err <- CreateWorktree manager branchname;
      match err with
      | Some e => die e
      | None => ret 0
      end
  end.

End WithEnv.
End Main.

(** ** The single-file variant of the tool

    The same tool as one file: the work is done by git subprocesses, the copy
    strategy is chosen once for the operating system, the files are copied
    during the walk, the log goes through [slog]. *)

Module Legacy.
Import Sys Os WalkDir.

Record Config : Type := { verbose : bool }.

(** The implementations of the interface [CopyStrategy]. *)
Inductive CopyStrategy : Type :=
| RegularCopyStrategy
| CoWCopyStrategy (cpCommand : string) (cpArgs : list string).

Record WorktreeManager : Type := {
  cfg : Config;
  copyStrategy : CopyStrategy
}.

Definition config_files : string :=
  "(?i)\.(?:envrc|env|env\.local|tool-versions|mise\.toml)$".

Section WithEnv.
Variable E : Env.

(** The logger writes warnings, errors and informations always, debug
    lines in verbose mode only. *)
Definition logger_Warn (msg : string) : M unit := emit (Logged ("WARN " +:+ msg)).
Definition logger_Info (msg : string) : M unit := emit (Logged ("INFO " +:+ msg)).
Definition logger_Error (msg : string) : M unit := emit (Logged ("ERROR " +:+ msg)).
Definition logger_Debug (c : Config) (msg : string) : M unit :=
  if verbose c then emit (Logged ("DEBUG " +:+ msg)) else ret tt.

(** A call of the operating system on the file at [path]. *)
Definition file_op (op : string) (answer : string -> option error) (path : string)
  : M (option error) :=
  do d <- get_cwd;
  let target := GoFilepath.resolve d path in
  emit (FileOp op target (isNil (answer target))) ;;
  ret (answer target).

Definition RegularCopy (c : Config) (src dst : string) : M (option error) :=
  do err <- file_op "open" (open_err E) src;
  match err with
  | Some e => ret (Some ("opening source file: " +:+ e))
  | None =>
      do err <- MkdirAll_ E (GoFilepath.Dir dst);
      match err with
      | Some e => ret (Some ("creating destination directory: " +:+ e))
      | None =>
          do err <- file_op "create" (create_err E) dst;
          match err with
          | Some e => ret (Some ("creating destination file: " +:+ e))
          | None =>
              do d <- get_cwd;
              let from := GoFilepath.resolve d src in
              let to := GoFilepath.resolve d dst in
              let err := copy_err E from to in
              emit (FileOp "copy" to (isNil err)) ;;
              match err with
              | Some e => ret (Some ("copying file contents: " +:+ e))
              | None =>
                  logger_Debug c "copied file using regular copy" ;;
                  ret None
              end
          end
      end
  end.

Definition CoWCopy (c : Config) (cpCommand : string) (cpArgs : list string)
    (src dst : string) : M (option error) :=
  let args := (cpArgs ++ [src; dst])%list in
  do err <- Run E (cpCommand :: args);
  match err with
  | Some e => ret (Some ("copy-on-write failed: " +:+ e))
  | None => logger_Debug c "copied file using copy-on-write" ;; ret None
  end.

(** The method [Copy] of a strategy. *)
Definition Copy (c : Config) (s : CopyStrategy) (src dst : string) : M (option error) :=
  match s with
  | RegularCopyStrategy => RegularCopy c src dst
  | CoWCopyStrategy cpCommand cpArgs => CoWCopy c cpCommand cpArgs src dst
  end.

Definition NewCopyStrategy : M CopyStrategy :=
  if String.eqb (goos E) "darwin" || GoStrings.Contains (goos E) "bsd"
  then ret (CoWCopyStrategy "/bin/cp" ["-Rc"])
  else if String.eqb (goos E) "linux" then
    do out <- Output E ["/bin/cp"; "--help"] "";
    match out with
    | Ok output =>
        if GoStrings.Contains output "--reflink"
        then ret (CoWCopyStrategy "/bin/cp" ["-R"; "--reflink=auto"])
        else ret RegularCopyStrategy
    | Err _ => ret RegularCopyStrategy
    end
  else ret RegularCopyStrategy.

Definition NewWorktreeManager (c : Config) : M WorktreeManager :=
  do strategy <- NewCopyStrategy;
  ret {| cfg := c; copyStrategy := strategy |}.

Definition copyFile (wm : WorktreeManager) (src dst : string) : M (option error) :=
  Copy (cfg wm) (copyStrategy wm) src dst.

Definition branchInList (branchName : string) (output : string) : bool :=
  let branches := GoStrings.Split output (String "010" "") in
  existsb (fun branch => String.eqb (GoStrings.TrimSpace branch) branchName) branches.

Definition branchExists (branchName : string) : M (result bool) :=
  do out <- Output E ["git"; "for-each-ref"; "--format=%(refname:lstrip=2)"; "refs/heads"] "";
  match out with
  | Err e => ret (Err ("checking local branches: " +:+ e))
  | Ok localOutput =>
      if branchInList branchName localOutput then ret (Ok true)
      else
        do out <- Output E ["git"; "for-each-ref"; "--format=%(refname:lstrip=3)";
                            "refs/remotes/origin"] "";
        match out with
        | Err e => ret (Err ("checking remote branches: " +:+ e))
        | Ok remoteOutput => ret (Ok (branchInList branchName remoteOutput))
        end
  end.

Definition isGitDirectory : M bool :=
  do err <- Run E ["git"; "rev-parse"; "--git-dir"];
  ret (isNil err).

(** The function [copyWorktreeFiles] hands to [filepath.Walk]; it copies
    as it goes, so its state is the world. *)
Definition walkFunc (wm : WorktreeManager) (pattern : GoRegexp.regex)
    (newWorktreePath : string) : @WalkFunc World :=
  fun path a w =>
    match a with
    | NotListed _ err | NoInfo err => (Some (Failure err), w)
    | Found info =>
        if GoStrings.Contains path "node_modules" then (Some SkipDir, w)
        else if negb (IsDir info) && GoRegexp.MatchString pattern (Name info) then
          let dst := GoFilepath.Join [newWorktreePath; path] in
          let '(err, w') := copyFile wm path dst w in
          match err with
          | Some e => (None, (logger_Warn ("failed to copy config file " +:+ path) w').2)
          | None => (None, w')
          end
        else (None, w)
    end.

Definition copyWorktreeFiles (wm : WorktreeManager) (newWorktreePath : string)
  : M (option error) :=
  do st <- Stat_ E "node_modules";
  match st with
  | StatOk =>
      do err <- copyFile wm "node_modules"
                  (GoFilepath.Join [newWorktreePath; "node_modules"]);
      match err with
      | Some e => logger_Warn ("failed to copy node_modules: " +:+ e)
      | None => ret tt
      end
  | _ => ret tt
  end ;;
  match GoRegexp.Compile config_files with
  | None => ret (Some "regexp: Compile: the pattern does not parse")
  | Some pattern =>
      do d <- get_cwd;
      let root := GoFilepath.resolve d "." in
      emit (Sys.Walk root) ;;
      fun w => Walk (walkFunc wm pattern newWorktreePath) "." (tree E root) w
  end.

Definition setupDirenv (worktreePath : string) : M (option error) :=
  do st <- Stat_ E (GoFilepath.Join [worktreePath; ".envrc"]);
  match st with
  | StatOk => Run E ["direnv"; "allow"; worktreePath]
  | _ => ret None
  end.

Definition CreateWorktree (wm : WorktreeManager) (branchName : string)
  : M (option error) :=
  do git <- isGitDirectory;
  if negb git then ret (Some "current directory is not a git repository")
  else
    let dirName := GoStrings.ReplaceAll branchName "/" "_" in
    do err <- Run E ["git"; "pull"];
    match err with
    | Some _ => logger_Warn "unable to run git pull, there may not be an upstream"
    | None => ret tt
    end ;;
    do found <- branchExists branchName;
    match found with
    | Err e => ret (Some ("checking branch existence: " +:+ e))
    | Ok exists_ =>
        let parentDir := ".." in
        let newWorktreePath := GoFilepath.Join [parentDir; dirName] in
        let cmd :=
          if exists_ then ["git"; "worktree"; "add"; newWorktreePath; branchName]
          else ["git"; "worktree"; "add"; "-b"; branchName; newWorktreePath] in
        do err <- Run E cmd;
        match err with
        | Some e => ret (Some ("creating git worktree: " +:+ e))
        | None =>
            do err <- copyWorktreeFiles wm newWorktreePath;
            match err with
            | Some e => ret (Some ("copying worktree files: " +:+ e))
            | None =>
                do err <- setupDirenv newWorktreePath;
                match err with
                | Some e => logger_Warn ("failed to setup direnv: " +:+ e)
                | None => ret tt
                end ;;
                do err <- Chdir_ E newWorktreePath;
                match err with
                | Some e => ret (Some ("changing to new worktree directory: " +:+ e))
                | None =>
                    logger_Info ("created worktree successfully " +:+ newWorktreePath) ;;
                    ret None
                end
            end
        end
    end.

(** [main] after [flag.Parse]; the result is the exit status. *)
Definition main (c : Config) (args : list string) : M nat :=
  match args with
  | [] => emit (Printed "Usage: worktree [-v] <branch name>") ;; ret 1
  | branchName :: _ =>
      if String.eqb branchName "help" || String.eqb branchName "-h"
         || String.eqb branchName "--help"
      then emit (Printed "Usage: worktree [-v] <branch name>") ;; ret 0
      else
        do wm <- NewWorktreeManager c;
        do err <- CreateWorktree wm branchName;
        match err with
        | Some e => logger_Error ("failed to create worktree " +:+ e) ;; ret 1
        | None => ret 0
        end
  end.

End WithEnv.
End Legacy.

(** * Properties *)

(** ** Byte strings *)

Module StringFacts.
Import GoStrings.

Lemma append_nil_r (s : string) : s +:+ "" = s.
Proof. induction s as [|c s IH]; simpl; [reflexivity | now rewrite IH]. Qed.

Lemma append_assoc (a b c : string) : (a +:+ b) +:+ c = a +:+ (b +:+ c).
Proof. induction a as [|x a IH]; simpl; [reflexivity | now rewrite IH]. Qed.

Lemma length_append (a b : string) :
  String.length (a +:+ b) = String.length a + String.length b.
Proof. induction a as [|x a IH]; simpl; [reflexivity | now rewrite IH]. Qed.

Lemma prefix_nil (s : string) : String.prefix "" s = true.
Proof. now destruct s. Qed.

(** [String.prefix p s] holds exactly when [s] starts with [p]. *)
Lemma prefix_spec (p s : string) :
  String.prefix p s = true <-> exists post, s = p +:+ post.
Proof.
  revert s. induction p as [|c p IH]; intros s; simpl.
  - split; [intros _; now exists s | intros _; now destruct s].
  - destruct s as [|d s]; simpl.
    + split; [discriminate | intros [post H]; discriminate].
    + destruct (ascii_dec c d) as [->|Hne].
      * rewrite IH. split; intros [post H]; exists post; congruence.
      * split; [discriminate | intros [post H]; congruence].
Qed.

Lemma prefix_append (p post : string) : String.prefix p (p +:+ post) = true.
Proof. apply prefix_spec. now exists post. Qed.

(** [Contains s sub] holds exactly when [sub] occurs in [s]. *)
Lemma Contains_spec (s sub : string) :
  Contains s sub = true <-> exists pre post, s = pre +:+ sub +:+ post.
Proof.
  induction s as [|c s IH]; cbn [Contains].
  - rewrite orb_false_r, prefix_spec. split.
    + intros [post H]. now exists "", post.
    + intros [pre [post H]]. destruct pre; simpl in H; [now exists post | discriminate].
  - rewrite orb_true_iff, IH, prefix_spec. split.
    + intros [[post H] | [pre [post H]]].
      * now exists "", post.
      * exists (String c pre), post. simpl. now rewrite H.
    + intros [pre [post H]]. destruct pre as [|d pre]; simpl in H.
      * left. now exists post.
      * right. exists pre, post. congruence.
Qed.

Lemma Contains_append_l (pre s sub : string) :
  Contains s sub = true -> Contains (pre +:+ s) sub = true.
Proof.
  rewrite !Contains_spec. intros [a [b ->]].
  exists (pre +:+ a), b. now rewrite append_assoc.
Qed.

Lemma Contains_append_r (s post sub : string) :
  Contains s sub = true -> Contains (s +:+ post) sub = true.
Proof.
  rewrite !Contains_spec. intros [a [b ->]].
  exists a, (b +:+ post). now rewrite !append_assoc.
Qed.

Lemma Contains_self_append (pre sub post : string) :
  Contains (pre +:+ sub +:+ post) sub = true.
Proof. apply Contains_spec. now exists pre, post. Qed.

(** Character-wise replacement, the meaning of [ReplaceAll] for a
    one-character [old] and [new]. *)
Fixpoint map_chars (f : ascii -> ascii) (s : string) : string :=
  match s with
  | "" => ""
  | String c t => String (f c) (map_chars f t)
  end.

Definition subst_char (old new c : ascii) : ascii :=
  if Ascii.eqb c old then new else c.

Lemma ReplaceAll_char (old new : ascii) (s : string) :
  ReplaceAll s (String old "") (String new "") = map_chars (subst_char old new) s.
Proof.
  unfold ReplaceAll. induction s as [|c s IH]; [reflexivity|].
  cbn [replace_from String.prefix map_chars String.length Nat.sub]. unfold subst_char at 1.
  destruct (ascii_dec old c) as [->|Hne].
  - now rewrite prefix_nil, Ascii.eqb_refl, IH.
  - destruct (Ascii.eqb_spec c old) as [->|_]; [congruence|].
    now rewrite <- IH.
Qed.

Lemma length_map_chars f s : String.length (map_chars f s) = String.length s.
Proof. induction s as [|c s IH]; simpl; [reflexivity | now rewrite IH]. Qed.

Lemma get_map_chars f s i :
  String.get i (map_chars f s) = option_map f (String.get i s).
Proof.
  revert i. induction s as [|c s IH]; intros i; simpl; [reflexivity|].
  destruct i; simpl; [reflexivity | apply IH].
Qed.

(** A string without the character [c]. *)
Fixpoint lacks (c : ascii) (s : string) : bool :=
  match s with
  | "" => true
  | String d t => negb (Ascii.eqb d c) && lacks c t
  end.

Lemma lacks_map_chars (old new : ascii) (s : string) :
  old <> new -> lacks old (map_chars (subst_char old new) s) = true.
Proof.
  intros Hne. induction s as [|c s IH]; simpl; [reflexivity|].
  rewrite IH, andb_true_r. unfold subst_char.
  destruct (Ascii.eqb_spec c old) as [->|H].
  - destruct (Ascii.eqb_spec new old); [congruence | reflexivity].
  - destruct (Ascii.eqb_spec c old); [congruence | reflexivity].
Qed.

End StringFacts.

(** ** Splitting and joining on a one-character separator *)

Module SplitFacts.
Import GoStrings StringFacts.

(** [Split] on a separator of one character. *)
Fixpoint split_char (c : ascii) (s : string) : string * list string :=
  match s with
  | "" => ("", [])
  | String d t =>
      let '(seg, rest) := split_char c t in
      if Ascii.eqb c d then ("", seg :: rest) else (String d seg, rest)
  end.

Definition fields (c : ascii) (s : string) : list string :=
  let '(seg, rest) := split_char c s in seg :: rest.

Lemma split_from_char (c : ascii) (s : string) :
  split_from (String c "") 0 s = split_char c s.
Proof.
  induction s as [|d s IH]; [reflexivity|].
  cbn [split_from split_char String.prefix String.length Nat.sub].
  rewrite IH. destruct (split_char c s) as [seg rest].
  destruct (ascii_dec c d) as [->|Hne].
  - now rewrite prefix_nil, Ascii.eqb_refl.
  - destruct (Ascii.eqb_spec c d); [congruence | reflexivity].
Qed.

Lemma Split_char (c : ascii) (s : string) : Split s (String c "") = fields c s.
Proof. unfold Split, fields. now rewrite split_from_char. Qed.

Lemma fields_cons (c d : ascii) (s : string) :
  fields c (String d s) =
  if Ascii.eqb c d then "" :: fields c s
  else match fields c s with
       | seg :: rest => String d seg :: rest
       | [] => [String d ""]
       end.
Proof.
  unfold fields. cbn [split_char]. destruct (split_char c s) as [seg rest].
  now destruct (Ascii.eqb c d).
Qed.

Lemma fields_nonempty (c : ascii) (s : string) : fields c s <> [].
Proof. unfold fields. now destruct (split_char c s). Qed.

(** A string without the separator is a single field. *)
Lemma fields_lacks (c : ascii) (s : string) : lacks c s = true -> fields c s = [s].
Proof.
  induction s as [|d s IH]; [reflexivity|]. cbn [lacks]. intros H.
  apply andb_true_iff in H as [Hd Hs]. rewrite fields_cons, (IH Hs).
  rewrite Ascii.eqb_sym. now destruct (Ascii.eqb d c).
Qed.

(** Splitting what was put together around a separator. *)
Lemma fields_append (c : ascii) (a b : string) :
  lacks c a = true ->
  fields c (a +:+ String c b) = a :: fields c b.
Proof.
  induction a as [|d a IH]; cbn [lacks String.append]; intros H.
  - now rewrite fields_cons, Ascii.eqb_refl.
  - apply andb_true_iff in H as [Hd Ha]. rewrite fields_cons, (IH Ha).
    rewrite Ascii.eqb_sym. now destruct (Ascii.eqb d c).
Qed.

(** [Split] undoes [Join] when no element has the separator in it. *)
Lemma fields_Join (c : ascii) (l : list string) (x : string) :
  Forall (fun s => lacks c s = true) (x :: l) ->
  fields c (Join (x :: l) (String c "")) = x :: l.
Proof.
  revert x. induction l as [|y l IH]; intros x H.
  - apply fields_lacks. now inversion H.
  - inversion H as [|? ? Hx Hl]; subst.
    change (Join (x :: y :: l) (String c "")) with (x +:+ String c "" +:+ Join (y :: l) (String c "")).
    cbn [String.append]. rewrite (fields_append _ _ _ Hx). now rewrite (IH y Hl).
Qed.

(** [Join] undoes [Split]. *)
Lemma Join_fields (c : ascii) (s : string) : Join (fields c s) (String c "") = s.
Proof.
  induction s as [|d s IH]; [reflexivity|].
  rewrite fields_cons. destruct (Ascii.eqb_spec c d) as [->|Hne].
  - pose proof (fields_nonempty d s) as Hn. destruct (fields d s) as [|seg rest]; [congruence|].
    change (Join ("" :: seg :: rest) (String d "")) with ("" +:+ String d "" +:+ Join (seg :: rest) (String d "")).
    cbn [String.append]. now rewrite IH.
  - pose proof (fields_nonempty c s) as Hn. destruct (fields c s) as [|seg rest]; [congruence|].
    destruct rest as [|seg' rest].
    + cbn in IH |- *. now rewrite IH.
    + change (Join (String d seg :: seg' :: rest) (String c ""))
        with (String d (seg +:+ String c "" +:+ Join (seg' :: rest) (String c ""))).
      change (Join (seg :: seg' :: rest) (String c ""))
        with (seg +:+ String c "" +:+ Join (seg' :: rest) (String c "")) in IH.
      now rewrite IH.
Qed.

Lemma fields_all_lack (c : ascii) (s : string) :
  Forall (fun f => lacks c f = true) (fields c s).
Proof.
  induction s as [|d s IH]; [repeat constructor|].
  rewrite fields_cons. destruct (Ascii.eqb_spec c d) as [->|Hne].
  - now constructor.
  - destruct (fields c s) as [|seg rest]; [repeat constructor|].
    + cbn. destruct (Ascii.eqb_spec d c); [congruence | reflexivity].
    + inversion IH; subst. constructor; [|assumption].
      cbn. destruct (Ascii.eqb_spec d c); [congruence | assumption].
Qed.

(** One more field than separators. *)
Fixpoint count_char (c : ascii) (s : string) : nat :=
  match s with
  | "" => 0
  | String d t => (if Ascii.eqb c d then 1 else 0) + count_char c t
  end.

Lemma length_fields (c : ascii) (s : string) :
  length (fields c s) = S (count_char c s).
Proof.
  induction s as [|d s IH]; [reflexivity|].
  rewrite fields_cons. cbn [count_char]. destruct (Ascii.eqb c d).
  - cbn. now rewrite IH.
  - destruct (fields c s); cbn in *; congruence.
Qed.

End SplitFacts.

(** ** Paths *)

Module PathFacts.
Import GoStrings GoFilepath StringFacts SplitFacts.

(** The path elements that [Clean] keeps as they are. *)
Definition plain (elem : string) : bool :=
  negb (String.eqb elem "") && negb (String.eqb elem ".") && negb (String.eqb elem "..").

Lemma clean_step_plain (rooted : bool) (out : list string) (elem : string) :
  plain elem = true -> clean_step rooted out elem = elem :: out.
Proof.
  unfold plain, clean_step. intros H.
  apply andb_true_iff in H as [H H3]. apply andb_true_iff in H as [H1 H2].
  destruct (String.eqb elem ""); [discriminate|].
  destruct (String.eqb elem "."); [discriminate|].
  destruct (String.eqb elem ".."); [discriminate | reflexivity].
Qed.

Lemma Clean_fields (path : string) :
  Clean path =
  let rooted := HasPrefix path "/" in
  let out := rev (fold_left (clean_step rooted) (fields "/" path) []) in
  match rooted, out with
  | true, _ => "/" +:+ GoStrings.Join out "/"
  | false, [] => "."
  | false, _ => GoStrings.Join out "/"
  end.
Proof. unfold Clean. now rewrite Split_char. Qed.

(** The fields of [a/b]. *)
Lemma fields_slash_app (a b : string) :
  fields "/" (a +:+ String "/" b) = (fields "/" a ++ fields "/" b)%list.
Proof.
  induction a as [|d a IH]; cbn [String.append].
  - now rewrite fields_cons.
  - rewrite !fields_cons, IH.
    pose proof (fields_nonempty "/" a) as Hn.
    destruct (Ascii.eqb "/" d); [reflexivity|].
    destruct (fields "/" a) as [|seg rest]; [congruence | reflexivity].
Qed.

Lemma HasPrefix_slash_append (a b : string) :
  a <> "" -> HasPrefix (a +:+ b) "/" = HasPrefix a "/".
Proof.
  destruct a as [|c a]; [congruence|]. intros _.
  unfold HasPrefix. cbn [String.append String.prefix].
  destruct (ascii_dec "/" c); [now rewrite !prefix_nil | reflexivity].
Qed.

(** Two relative paths that [Clean] reduces to the same elements name the
    same directory from any working directory. *)
Lemma resolve_same_elements (cwd p q : string) :
  p <> "" -> q <> "" -> IsAbs p = false -> IsAbs q = false ->
  (forall rooted out,
      fold_left (clean_step rooted) (fields "/" p) out =
      fold_left (clean_step rooted) (fields "/" q) out) ->
  resolve cwd p = resolve cwd q.
Proof.
  intros Hp Hq Ap Aq H. unfold resolve. rewrite Ap, Aq.
  cbn [Join]. destruct (String.eqb_spec cwd "") as [->|Hc].
  - destruct (String.eqb_spec p ""); [congruence|].
    destruct (String.eqb_spec q ""); [congruence|].
    unfold GoStrings.Join. cbn [String.concat]. rewrite !Clean_fields.
    unfold IsAbs in *. rewrite Ap, Aq. cbn zeta. now rewrite H.
  - unfold GoStrings.Join, Separator. cbn [String.concat].
    change (cwd +:+ "/" +:+ p) with (cwd +:+ String "/" p).
    change (cwd +:+ "/" +:+ q) with (cwd +:+ String "/" q).
    rewrite !Clean_fields.
    rewrite !(HasPrefix_slash_append cwd) by assumption. cbv zeta.
    rewrite !fields_slash_app, !fold_left_app. now rewrite H.
Qed.

End PathFacts.

(** ** The name and the place of the worktree directory *)

Module WorktreePath.
Import GoStrings GoFilepath StringFacts SplitFacts PathFacts Main.

Lemma dirname_of_map (branchname : string) :
  dirname_of branchname = map_chars (subst_char "/" "_") branchname.
Proof. apply (ReplaceAll_char "/" "_"). Qed.

Lemma dirname_of_lacks_slash (branchname : string) :
  lacks "/" (dirname_of branchname) = true.
Proof. rewrite dirname_of_map. now apply lacks_map_chars. Qed.

Lemma fields_parent_of (d : string) :
  lacks "/" d = true -> fields "/" ("../" +:+ d) = [".."; d].
Proof.
  intros H. change ("../" +:+ d) with (".." +:+ String "/" d).
  now rewrite fields_slash_app, (fields_lacks _ _ H).
Qed.

(** What [filepath.Join] makes of [".."] and a directory name. *)
Lemma Join_parent (d : string) :
  lacks "/" d = true ->
  Join [".."; d] =
  if String.eqb d "" then ".."
  else if String.eqb d "." then ".."
  else if String.eqb d ".." then "../.."
  else "../" +:+ d.
Proof.
  intros H. cbn [Join String.eqb Ascii.eqb Bool.eqb].
  unfold GoStrings.Join, Separator. cbn [String.concat].
  rewrite Clean_fields. change (".." +:+ "/" +:+ d) with ("../" +:+ d).
  rewrite (fields_parent_of _ H).
  change (HasPrefix ("../" +:+ d) "/") with false. cbv zeta.
  cbn [fold_left]. change (clean_step false [] "..") with [".."].
  unfold clean_step.
  destruct (String.eqb_spec d "") as [->|_]; [reflexivity|].
  destruct (String.eqb_spec d ".") as [->|_]; [reflexivity|].
  destruct (String.eqb_spec d "..") as [->|_]; reflexivity.
Qed.

Lemma worktreePath_of_plain (branchname : string) :
  plain (dirname_of branchname) = true ->
  worktreePath_of branchname = "../" +:+ dirname_of branchname.
Proof.
  intros H. unfold worktreePath_of.
  rewrite (Join_parent _ (dirname_of_lacks_slash branchname)).
  unfold plain in H.
  destruct (String.eqb (dirname_of branchname) ""); [discriminate|].
  destruct (String.eqb (dirname_of branchname) "."); [discriminate|].
  destruct (String.eqb (dirname_of branchname) ".."); [discriminate | reflexivity].
Qed.

(** The path handed to git names the directory [../<dirname>], whatever
    the name is. *)
Lemma worktreePath_of_resolve (cwd branchname : string) :
  resolve cwd (worktreePath_of branchname) = resolve cwd ("../" +:+ dirname_of branchname).
Proof.
  unfold worktreePath_of.
  pose proof (dirname_of_lacks_slash branchname) as Hl.
  rewrite (Join_parent _ Hl).
  destruct (String.eqb_spec (dirname_of branchname) "") as [->|_];
    [apply resolve_same_elements; try discriminate; try reflexivity|].
  destruct (String.eqb_spec (dirname_of branchname) ".") as [->|_];
    [apply resolve_same_elements; try discriminate; try reflexivity|].
  destruct (String.eqb_spec (dirname_of branchname) "..") as [->|_]; reflexivity.
Qed.

(** An absolute path in clean form, from its elements. *)
Definition abs_path (elems : list string) : string := "/" +:+ GoStrings.Join elems "/".

Definition name_ok (elem : string) : bool := plain elem && lacks "/" elem.

Lemma fold_clean_plain (rooted : bool) (elems out : list string) :
  Forall (fun e => plain e = true) elems ->
  fold_left (clean_step rooted) elems out = (rev elems ++ out)%list.
Proof.
  revert out. induction elems as [|e elems IH]; intros out H; [reflexivity|].
  inversion H; subst. cbn [fold_left rev]. rewrite clean_step_plain by assumption.
  rewrite IH by assumption. now rewrite <- app_assoc.
Qed.

Lemma fields_abs_path (elems : list string) :
  Forall (fun e => name_ok e = true) elems ->
  fields "/" (abs_path elems) = "" :: match elems with [] => [""] | _ => elems end.
Proof.
  intros H. unfold abs_path. cbn [String.append]. rewrite fields_cons.
  cbn [Ascii.eqb Bool.eqb]. f_equal. destruct elems as [|e elems]; [reflexivity|].
  apply (fields_Join "/"). eapply Forall_impl; [exact H|].
  cbn beta. intros a Ha. unfold name_ok in Ha. now apply andb_true_iff in Ha.
Qed.

(** From a repository root [/e1/.../en] the worktree path leads to
    [/e1/.../e(n-1)/<dirname>], the sibling of the root called [dirname]. *)
Lemma worktreePath_of_sibling (elems : list string) (branchname : string) :
  Forall (fun e => name_ok e = true) elems ->
  plain (dirname_of branchname) = true ->
  resolve (abs_path elems) (worktreePath_of branchname) =
  abs_path (removelast elems ++ [dirname_of branchname]).
Proof.
  intros He Hd. rewrite (worktreePath_of_plain _ Hd).
  set (d := dirname_of branchname) in *.
  assert (Hl : lacks "/" d = true) by apply dirname_of_lacks_slash.
  clearbody d. unfold resolve. change (IsAbs ("../" +:+ d)) with false. cbv iota.
  change (Join [abs_path elems; "../" +:+ d])
    with (Clean (abs_path elems +:+ String "/" ("../" +:+ d))).
  rewrite Clean_fields. cbv zeta.
  change (HasPrefix (abs_path elems +:+ String "/" ("../" +:+ d)) "/") with
    (String.prefix "" (GoStrings.Join elems "/" +:+ String "/" ("../" +:+ d))).
  rewrite prefix_nil, fields_slash_app, (fields_abs_path _ He), (fields_parent_of _ Hl).
  assert (Hp : Forall (fun e => plain e = true) elems).
  { eapply Forall_impl; [exact He|]. cbn beta. intros a Ha.
    unfold name_ok in Ha. now apply andb_true_iff in Ha. }
  unfold abs_path. f_equal. f_equal.
  destruct elems as [|e elems] using rev_ind.
  - cbn [app fold_left removelast].
    change (clean_step true [] "") with (@nil string).
    change (clean_step true [] "..") with (@nil string).
    now rewrite (clean_step_plain _ _ _ Hd).
  - clear IHelems. rewrite removelast_last.
    replace (match (elems ++ [e])%list with [] => [""] | _ => (elems ++ [e])%list end)
      with (elems ++ [e])%list by now destruct elems.
    cbn [app fold_left]. unfold clean_step at 2. cbn [String.eqb].
    rewrite fold_left_app, (fold_clean_plain _ _ _ Hp).
    rewrite rev_app_distr. cbn [rev app fold_left].
    apply Forall_app in Hp as [_ Hp]. inversion Hp as [|? ? Hpe _]; subst.
    unfold clean_step at 2. cbn [String.eqb Ascii.eqb Bool.eqb].
    unfold plain in Hpe.
    destruct (String.eqb e ".."); [now rewrite !andb_false_r in Hpe|].
    rewrite (clean_step_plain _ _ _ Hd), app_nil_r. cbn [rev].
    now rewrite rev_involutive.
Qed.

End WorktreePath.

(** ** Trimming the output of a command *)

Module TrimFacts.
Import GoStrings StringFacts SplitFacts Files.

(** The text a command prints for a list of lines. *)
Definition unlines (lines : list string) : string :=
  String.concat "" (map (fun l => l +:+ nl) lines).

Definition starts_solid (s : string) : bool :=
  match s with
  | "" => false
  | String c _ => negb (asciiSpace c)
  end.

Fixpoint ends_solid (s : string) : bool :=
  match s with
  | "" => false
  | String c "" => negb (asciiSpace c)
  | String _ t => ends_solid t
  end.

(** A line as the tools print it: not empty, no newline inside, no white
    space at either end. *)
Definition line_ok (l : string) : bool :=
  starts_solid l && ends_solid l && lacks "010" l.

Lemma TrimLeft_solid (s : string) : starts_solid s = true -> TrimLeft s = s.
Proof. destruct s as [|c s]; [discriminate|]. cbn. now destruct (asciiSpace c). Qed.

Lemma TrimRight_solid (s : string) : ends_solid s = true -> TrimRight s = s.
Proof.
  induction s as [|c s IH]; [discriminate|]. cbn [ends_solid TrimRight].
  destruct s as [|d s].
  - cbn. now destruct (asciiSpace c).
  - intros H. rewrite (IH H). reflexivity.
Qed.

Lemma TrimRight_append (a b : string) :
  TrimRight (a +:+ b) =
  match TrimRight b with
  | "" => TrimRight a
  | b' => a +:+ b'
  end.
Proof.
  induction a as [|c a IH]; cbn [String.append TrimRight].
  - now destruct (TrimRight b).
  - rewrite IH. destruct (TrimRight b); [reflexivity | now destruct a].
Qed.

Lemma starts_solid_append (a b : string) :
  starts_solid a = true -> starts_solid (a +:+ b) = true.
Proof. now destruct a. Qed.

Lemma ends_solid_append (a b : string) :
  ends_solid b = true -> ends_solid (a +:+ b) = true.
Proof.
  intros H. induction a as [|c a IH]; [exact H|].
  cbn [String.append ends_solid]. destruct (a +:+ b) eqn:Hab; [|exact IH].
  destruct a; [|discriminate]. cbn in Hab. subst. discriminate.
Qed.

Lemma unlines_cons (l : string) (lines : list string) :
  unlines (l :: lines) = l +:+ nl +:+ unlines lines.
Proof.
  unfold unlines. cbn [map String.concat].
  destruct (map (fun l0 => l0 +:+ nl) lines) eqn:Hm.
  - cbn [String.concat]. now rewrite !append_nil_r.
  - cbn [String.append]. now rewrite append_assoc.
Qed.

(** The printed text is the lines joined by newlines, and a final newline. *)
Lemma unlines_Join (l : string) (lines : list string) :
  unlines (l :: lines) = Join (l :: lines) nl +:+ nl.
Proof.
  revert l. induction lines as [|m lines IH]; intros l.
  - rewrite unlines_cons. unfold unlines. cbn. reflexivity.
  - rewrite unlines_cons, IH.
    change (Join (l :: m :: lines) nl) with (l +:+ nl +:+ Join (m :: lines) nl).
    now rewrite !append_assoc.
Qed.

Lemma Join_starts_solid (l : string) (lines : list string) (sep : string) :
  starts_solid l = true -> starts_solid (Join (l :: lines) sep) = true.
Proof.
  intros H. destruct lines; [exact H|].
  change (Join (l :: s :: lines) sep) with (l +:+ sep +:+ Join (s :: lines) sep).
  now apply starts_solid_append.
Qed.

Lemma Join_ends_solid (l : string) (lines : list string) (sep : string) :
  Forall (fun s => ends_solid s = true) (l :: lines) ->
  ends_solid (Join (l :: lines) sep) = true.
Proof.
  revert l. induction lines as [|m lines IH]; intros l H.
  - now inversion H.
  - inversion H; subst.
    change (Join (l :: m :: lines) sep) with (l +:+ sep +:+ Join (m :: lines) sep).
    rewrite <- append_assoc. apply ends_solid_append. now apply IH.
Qed.

(** Trimming the printed text leaves the lines joined by newlines. *)
Lemma TrimSpace_unlines (l : string) (lines : list string) :
  Forall (fun s => line_ok s = true) (l :: lines) ->
  TrimSpace (unlines (l :: lines)) = Join (l :: lines) nl.
Proof.
  intros H. rewrite unlines_Join. unfold TrimSpace.
  assert (Hs : starts_solid l = true).
  { inversion H as [|? ? Hl _]; subst. unfold line_ok in Hl.
    apply andb_true_iff in Hl as [Hl _]. now apply andb_true_iff in Hl. }
  assert (He : Forall (fun s => ends_solid s = true) (l :: lines)).
  { eapply Forall_impl; [exact H|]. cbn beta. intros a Ha. unfold line_ok in Ha.
    apply andb_true_iff in Ha as [Ha _]. now apply andb_true_iff in Ha. }
  rewrite TrimLeft_solid by now apply starts_solid_append, Join_starts_solid.
  rewrite TrimRight_append. change (TrimRight nl) with "".
  now apply TrimRight_solid, Join_ends_solid.
Qed.

Lemma Split_unlines (l : string) (lines : list string) :
  Forall (fun s => line_ok s = true) (l :: lines) ->
  Split (TrimSpace (unlines (l :: lines))) nl = l :: lines.
Proof.
  intros H. rewrite (TrimSpace_unlines _ _ H). unfold nl. rewrite Split_char.
  apply fields_Join. eapply Forall_impl; [exact H|]. cbn beta. intros a Ha.
  unfold line_ok in Ha. now apply andb_true_iff in Ha.
Qed.

Lemma Join_line_nonempty (l : string) (lines : list string) (sep : string) :
  starts_solid l = true -> Join (l :: lines) sep <> "".
Proof.
  intros H E. pose proof (Join_starts_solid l lines sep H) as H'.
  rewrite E in H'. discriminate.
Qed.

End TrimFacts.

(** ** Reasoning about the effects *)

Module Effects.
Import Sys Os.

Lemma bind_eq {A B} (m : M A) (k : A -> M B) (w : World) :
  bind m k w = k (m w).1 (m w).2.
Proof. unfold bind. now destruct (m w). Qed.

(** The world after some more events. *)
Definition log (w : World) (evs : list event) : World :=
  {| cwd := cwd w; refs := refs w; trace := (trace w ++ evs)%list |}.

Lemma log_nil (w : World) : log w [] = w.
Proof. destruct w. unfold log. cbn. now rewrite app_nil_r. Qed.

Lemma log_log (w : World) (a b : list event) : log (log w a) b = log w (a ++ b).
Proof. unfold log. cbn. now rewrite app_assoc. Qed.

Lemma emit_eq (e : event) (w : World) : emit e w = (tt, log w [e]).
Proof. reflexivity. Qed.

Section Primitives.
Variable E : Env.

Lemma Run_eq (argv : list string) (w : World) :
  Run E argv w =
  (run_err E (cwd w) argv, log w [Exec (cwd w) argv (isNil (run_err E (cwd w) argv))]).
Proof. reflexivity. Qed.

Lemma Output_eq (argv : list string) (stdin : string) (w : World) :
  Output E argv stdin w =
  (output E (cwd w) argv stdin,
   log w [Exec (cwd w) argv
            (match output E (cwd w) argv stdin with Ok _ => true | Err _ => false end)]).
Proof. reflexivity. Qed.

Lemma Stat_eq (path : string) (w : World) :
  Stat_ E path w =
  (stat E (GoFilepath.resolve (cwd w) path), log w [Stat (GoFilepath.resolve (cwd w) path)]).
Proof. reflexivity. Qed.

Lemma MkdirAll_eq (dir : string) (w : World) :
  MkdirAll_ E dir w =
  (mkdirall_err E (GoFilepath.resolve (cwd w) dir),
   log w [MkdirAll (GoFilepath.resolve (cwd w) dir)
            (isNil (mkdirall_err E (GoFilepath.resolve (cwd w) dir)))]).
Proof. reflexivity. Qed.


Lemma Chdir_eq (dir : string) (w : World) :
  Chdir_ E dir w =
  let target := GoFilepath.resolve (cwd w) dir in
  match chdir_err E target with
  | None => (None, {| cwd := target; refs := refs w;
                      trace := (trace w ++ [Chdir target true])%list |})
  | Some e => (Some e, log w [Chdir target false])
  end.
Proof.
  unfold Chdir_. rewrite !bind_eq. cbn [get_cwd fst snd]. cbv zeta.
  destruct (chdir_err E _); reflexivity.
Qed.

End Primitives.

(** An event of a process that stays in the directory [d]: a command is
    started there, a walk starts from there, and the directory is not
    changed. *)
Definition in_dir (d : string) (e : event) : Prop :=
  match e with
  | Exec d' _ _ => d' = d
  | Sys.Walk r => r = GoFilepath.resolve d "."
  | Chdir _ _ => False
  | _ => True
  end.

(** A computation that stays in the working directory: it does not change
    it, and what it does is added to the trace and happens there. *)
Definition steady {A} (m : M A) : Prop :=
  forall w,
    cwd (m w).2 = cwd w /\
    exists evs, trace (m w).2 = (trace w ++ evs)%list /\ Forall (in_dir (cwd w)) evs.

Lemma steady_ret {A} (a : A) : steady (ret a).
Proof. intros w. split; [reflexivity|]. exists []. now rewrite app_nil_r. Qed.

Lemma steady_bind {A B} (m : M A) (k : A -> M B) :
  steady m -> (forall a, steady (k a)) -> steady (bind m k).
Proof.
  intros Hm Hk w. rewrite bind_eq.
  destruct (Hm w) as [Hc [evs [Ht Hf]]].
  destruct (Hk (m w).1 (m w).2) as [Hc' [evs' [Ht' Hf']]].
  split; [congruence|]. exists (evs ++ evs')%list. split.
  - now rewrite Ht', Ht, app_assoc.
  - apply Forall_app. split; [assumption|]. now rewrite <- Hc.
Qed.

Lemma steady_emit (e : event) : (forall d, in_dir d e) -> steady (emit e).
Proof. intros H w. split; [reflexivity|]. exists [e]. split; [reflexivity|]. now constructor. Qed.

Lemma steady_get_cwd : steady get_cwd.
Proof. intros w. split; [reflexivity|]. exists []. now rewrite app_nil_r. Qed.

Lemma steady_get_refs : steady get_refs.
Proof. intros w. split; [reflexivity|]. exists []. now rewrite app_nil_r. Qed.

Lemma steady_set_refs (r : gmap string Repo.Reference) : steady (set_refs r).
Proof. intros w. split; [reflexivity|]. exists []. cbn. now rewrite app_nil_r. Qed.

Section WithEnv.
Variable E : Env.

Lemma steady_Stat (path : string) : steady (Stat_ E path).
Proof.
  intros w. split; [reflexivity|]. eexists. split; [reflexivity|]. now repeat constructor.
Qed.

Lemma steady_MkdirAll (dir : string) : steady (MkdirAll_ E dir).
Proof.
  intros w. split; [reflexivity|]. eexists. split; [reflexivity|]. now repeat constructor.
Qed.

Lemma steady_LookPath (name : string) : steady (LookPath_ E name).
Proof.
  intros w. split; [reflexivity|]. eexists. split; [reflexivity|]. now repeat constructor.
Qed.

Lemma steady_Run (argv : list string) : steady (Run E argv).
Proof.
  intros w. split; [reflexivity|]. eexists. split; [reflexivity|]. now repeat constructor.
Qed.

Lemma steady_Output (argv : list string) (stdin : string) : steady (Output E argv stdin).
Proof.
  intros w. split; [reflexivity|]. eexists. split; [reflexivity|]. now repeat constructor.
Qed.

End WithEnv.

Create HintDb steady discriminated.
#[export] Hint Resolve steady_ret steady_get_cwd steady_get_refs steady_set_refs
  steady_Stat steady_MkdirAll steady_LookPath steady_Run steady_Output : steady.

(** Goes through a computation built from the steps above; [known] closes
    the steps that have a lemma of their own. *)
Ltac steady_using known :=
  repeat first
    [ assumption
    | known
    | solve [auto with steady]
    | apply steady_emit; intro; exact I
    | apply steady_bind; [|intro]
    | progress cbv zeta
    | match goal with
      | |- steady (match ?x with _ => _ end) => destruct x
      | |- steady (if ?x then _ else _) => destruct x
      | |- steady (let '(_, _) := ?x in _) => destruct x
      end ].

Ltac steady := steady_using fail.

End Effects.

(** ** Copying with fallback ([copyWithCOW]) *)

Module CopyProps.
Import Sys Os Files Effects StringFacts.

(** The elements of a list up to and including the first that satisfies
    [ok]: the strategies that get tried. *)
Fixpoint attempts {A} (ok : A -> bool) (l : list A) : list A :=
  match l with
  | [] => []
  | x :: rest => if ok x then [x] else x :: attempts ok rest
  end.

Section WithEnv.
Variable E : Env.

(** The command line of a strategy and whether it succeeds. *)
Definition cp_argv (src dest : string) (strategy : list string) : list string :=
  ("cp" :: strategy ++ [src; dest])%list.

Definition cp_ok (d src dest : string) (strategy : list string) : bool :=
  isNil (run_err E d (cp_argv src dest strategy)).

Definition cp_event (d src dest : string) (strategy : list string) : event :=
  Exec d (cp_argv src dest strategy) (cp_ok d src dest strategy).

Definition copy_failed (src dest : string) : string :=
  "failed to copy " +:+ src +:+ " to " +:+ dest.

Lemma try_strategies_eq (strategies : list (list string)) (src dest : string) (w : World) :
  try_strategies E strategies src dest w =
  (if existsb (cp_ok (cwd w) src dest) strategies then None
   else Some (copy_failed src dest),
   log w (map (cp_event (cwd w) src dest)
              (attempts (cp_ok (cwd w) src dest) strategies))).
Proof.
  revert w. induction strategies as [|s rest IH]; intros w.
  - cbn. now rewrite log_nil.
  - cbn [try_strategies existsb attempts]. rewrite bind_eq, Run_eq. cbn [fst snd].
    fold (cp_argv src dest s). fold (cp_ok (cwd w) src dest s).
    fold (cp_event (cwd w) src dest s).
    unfold cp_ok at 1 3.
    destruct (run_err E (cwd w) (cp_argv src dest s)) as [e|] eqn:Hr; cbn [isNil orb map].
    + rewrite IH, log_log. reflexivity.
    + reflexivity.
Qed.

Lemma copyWithCOW_eq (src dest : string) (w : World) :
  let d := cwd w in
  let destDir := GoFilepath.resolve d (GoFilepath.Dir dest) in
  copyWithCOW E src dest w =
  match mkdirall_err E destDir with
  | Some e => (Some e, log w [MkdirAll destDir false])
  | None =>
      (if existsb (cp_ok d src dest) copyStrategies then None
       else Some (copy_failed src dest),
       log w (MkdirAll destDir true
                :: map (cp_event d src dest) (attempts (cp_ok d src dest) copyStrategies)))
  end.
Proof.
  cbv zeta. unfold copyWithCOW. rewrite bind_eq, MkdirAll_eq. cbn [fst snd].
  destruct (mkdirall_err E _) as [e|]; [reflexivity|].
  rewrite try_strategies_eq, log_log. reflexivity.
Qed.

Lemma steady_try_strategies strategies src dest :
  steady (try_strategies E strategies src dest).
Proof. induction strategies; cbn [try_strategies]; steady. Qed.

Lemma steady_copyWithCOW src dest : steady (copyWithCOW E src dest).
Proof. unfold copyWithCOW. steady_using ltac:(apply steady_try_strategies). Qed.

End WithEnv.

Lemma copy_failed_names (src dest : string) :
  GoStrings.Contains (copy_failed src dest) src = true /\
  GoStrings.Contains (copy_failed src dest) dest = true.
Proof.
  unfold copy_failed. split.
  - apply (Contains_self_append "failed to copy " src (" to " +:+ dest)).
  - replace ("failed to copy " +:+ src +:+ " to " +:+ dest)
      with (("failed to copy " +:+ src +:+ " to ") +:+ dest +:+ "")
      by now rewrite append_nil_r, !append_assoc.
    apply Contains_self_append.
Qed.

(** The strategies tried are an initial part of the list, all of them
    failures except possibly the last; when none succeeds all are tried. *)
Lemma attempts_prefix {A} (ok : A -> bool) (l : list A) :
  exists rest, l = (attempts ok l ++ rest)%list.
Proof.
  induction l as [|x l [rest IH]]; [now exists []|]. cbn [attempts].
  destruct (ok x); [now exists l|]. exists rest. cbn. now rewrite <- IH.
Qed.

Lemma attempts_failed_before {A} (ok : A -> bool) (l : list A) :
  Forall (fun x => ok x = false) (removelast (attempts ok l)).
Proof.
  induction l as [|x l IH]; [constructor|]. cbn [attempts].
  destruct (ok x) eqn:Hx; [constructor|].
  cbn [removelast]. destruct (attempts ok l) eqn:Ha.
  - destruct l as [|y l]; [constructor|]. cbn in Ha. destruct (ok y); discriminate.
  - now constructor.
Qed.

Lemma attempts_last_ok {A} (ok : A -> bool) (l : list A) (d : A) :
  existsb ok l = true -> ok (List.last (attempts ok l) d) = true.
Proof.
  induction l as [|x l IH]; [discriminate|]. cbn [existsb attempts].
  destruct (ok x) eqn:Hx; [intros _; exact Hx|]. cbn [orb]. intros H.
  specialize (IH H). destruct (attempts ok l) eqn:Ha; [|exact IH].
  destruct l as [|y l]; [discriminate|]. cbn in Ha. destruct (ok y); discriminate.
Qed.

Lemma attempts_all_failed {A} (ok : A -> bool) (l : list A) :
  existsb ok l = false -> attempts ok l = l.
Proof.
  induction l as [|x l IH]; [reflexivity|]. cbn [existsb attempts].
  destruct (ok x); [discriminate|]. cbn [orb]. intros H. now rewrite IH.
Qed.

End CopyProps.

(** ** A sample environment

    A developer's machine: the repository is at [/home/dev/project], the
    tool is started in its [src] directory; every command succeeds, no
    configuration is set, [fd] is not installed. *)

Module Sample.
Import Sys Repo.

Definition repo_root : string := "/home/dev/project".

Definition main_commit : string := "a1b2c3d4".
Definition remote_commit : string := "e5f6a7b8".

Definition env : Env := {|
  goos := "linux";
  getwd_err := None;
  chdir_err := fun _ => None;
  stat := fun _ => StatNotExist;
  mkdirall_err := fun _ => None;
  open_err := fun _ => None;
  create_err := fun _ => None;
  copy_err := fun _ _ => None;
  tree := fun _ => Dir "." [];
  home_dir := Ok "/home/dev";
  look_path := fun _ => false;
  run_err := fun _ _ => None;
  output := fun _ _ _ => Err "exit status 1";
  plain_open := fun d =>
    if GoStrings.HasPrefix d repo_root then Some {| worktree_root := Some repo_root |}
    else None;
  remote_urls := Ok ["https://example.org/project.git"];
  ssh_agent := false;
  ssh_key_loads := fun _ => false;
  pull_context := fun rs _ => (NoErrAlreadyUpToDate, rs);
  set_reference_err := fun _ => None
|}.

(** The same machine with other answers of the commands, of the pull and
    another file tree. *)
Definition env_with (run : string -> list string -> option string)
    (out : string -> list string -> string -> result string)
    (pull : pull_outcome) (tr : node) (has_fd : bool) : Env := {|
  goos := goos env;
  getwd_err := getwd_err env;
  chdir_err := chdir_err env;
  stat := stat env;
  mkdirall_err := mkdirall_err env;
  open_err := open_err env;
  create_err := create_err env;
  copy_err := copy_err env;
  tree := fun _ => tr;
  home_dir := home_dir env;
  look_path := fun _ => has_fd;
  run_err := run;
  output := out;
  plain_open := plain_open env;
  remote_urls := remote_urls env;
  ssh_agent := ssh_agent env;
  ssh_key_loads := ssh_key_loads env;
  pull_context := fun rs _ => (pull, rs);
  set_reference_err := set_reference_err env
|}.

Definition refs_main : gmap string Reference :=
  <["HEAD" := SymbolicReference "refs/heads/main"]>
    (<["refs/heads/main" := HashReference main_commit]> ∅).

(** A repository that also knows the branch [feature/x] of the remote. *)
Definition refs_remote : gmap string Reference :=
  <["refs/remotes/origin/feature/x" := HashReference remote_commit]> refs_main.

(** A repository without any commit: [HEAD] names a branch that is not
    there yet. *)
Definition refs_unborn : gmap string Reference :=
  <["HEAD" := SymbolicReference "refs/heads/main"]> ∅.

Definition start (rs : gmap string Reference) : World :=
  {| cwd := "/home/dev/project/src"; refs := rs; trace := [] |}.

Definition at_root (rs : gmap string Reference) : World :=
  {| cwd := repo_root; refs := rs; trace := [] |}.

(** [cp] without support for copy-on-write: only the plain [-R] works. *)
Definition plain_cp_only (d : string) (argv : list string) : option string :=
  match argv with
  | "cp" :: "-R" :: _ :: _ :: [] => None
  | "cp" :: _ => Some "exit status 1"
  | _ => None
  end.

End Sample.

(** ** C7: the copy operation *)

Module CopyClaim.
Import Sys Os Files Effects CopyProps.

(** A Linux machine whose [cp] knows [--reflink] but cannot copy with it
    here; the plain [cp -R] works. *)
Definition reflink_fails : Env :=
  Sample.env_with
    (fun _ argv =>
       match argv with
       | "/bin/cp" :: "-R" :: "--reflink=auto" :: _ => Some "exit status 1"
       | _ => None
       end)
    (fun _ argv _ =>
       match argv with
       | ["/bin/cp"; "--help"] => Ok "      --reflink[=WHEN]         control clone/CoW copies"
       | _ => Err "exit status 1"
       end)
    NoErrAlreadyUpToDate (Dir "." []) false.

(** C7, as stated, fails on the single-file variant: its manager chooses
    the copy-on-write strategy, and when that [cp] fails the copy of [.env]
    fails, although the plain [cp -R] would work; no directory was made
    first, one command was run, and the error names neither file. *)
Lemma legacy_copy_has_no_fallback :
  let w := Sample.at_root Sample.refs_main in
  let made := Legacy.NewWorktreeManager reflink_fails {| Legacy.verbose := false |} w in
  let copied := Legacy.copyFile reflink_fails made.1 ".env" "../feature_x/.env" made.2 in
  Legacy.copyStrategy made.1 = Legacy.CoWCopyStrategy "/bin/cp" ["-R"; "--reflink=auto"] /\
  run_err reflink_fails (cwd w) ["/bin/cp"; "-R"; ".env"; "../feature_x/.env"] = None /\
  copied.1 = Some "copy-on-write failed: exit status 1" /\
  trace copied.2
  = [Exec "/home/dev/project" ["/bin/cp"; "--help"] true;
     Exec "/home/dev/project" ["/bin/cp"; "-R"; "--reflink=auto"; ".env"; "../feature_x/.env"]
       false] /\
  GoStrings.Contains "copy-on-write failed: exit status 1" ".env" = false.
Proof. cbv zeta. repeat split; vm_compute; reflexivity. Qed.

(** C7, amended.  [copyWithCOW], the copy of the file copier, first makes
    sure that the parent directory of the destination exists ([MkdirAll],
    before any copy), then runs [cp] with the strategies [-Rc],
    [-R --reflink], [-R] in this order, until one succeeds.  When the
    directory could be made, it succeeds exactly when some strategy
    succeeds, so also when the preferred one fails and a later one works,
    and its error is the one that names source and destination exactly when
    every strategy failed.  The single-file variant does not fall back:
    [NewCopyStrategy] chooses one strategy by the operating system ([cp -Rc]
    on darwin and the BSDs, [cp -R --reflink=auto] on Linux when [cp --help]
    names [--reflink], the plain copy of the file otherwise), and the [Copy]
    of a copy-on-write strategy runs that one [cp] and nothing else: its
    error is [copy-on-write failed:] and the error of [cp]. *)
Theorem copyWithCOW_fallback (E : Env) (src dest : string) (w : World) :
  let d := cwd w in
  let destDir := GoFilepath.resolve d (GoFilepath.Dir dest) in
  let ok := cp_ok E d src dest in
  let tried := attempts ok copyStrategies in
  let err := (copyWithCOW E src dest w).1 in
  let w' := (copyWithCOW E src dest w).2 in
  copyStrategies = [ ["-Rc"]; ["-R"; "--reflink"]; ["-R"] ] /\
  w' = log w (MkdirAll destDir (isNil (mkdirall_err E destDir))
              :: match mkdirall_err E destDir with
                 | None => map (cp_event E d src dest) tried
                 | Some _ => []
                 end) /\
  (exists rest, copyStrategies = (tried ++ rest)%list) /\
  Forall (fun s => ok s = false) (removelast tried) /\
  (forall e, mkdirall_err E destDir = Some e -> err = Some e) /\
  (mkdirall_err E destDir = None ->
     (err = None <-> exists s, In s copyStrategies /\ ok s = true) /\
     (ok ["-Rc"] = false -> ok ["-R"; "--reflink"] = true \/ ok ["-R"] = true -> err = None) /\
     (err <> None <-> err = Some (copy_failed src dest)) /\
     (err = Some (copy_failed src dest) <-> forall s, In s copyStrategies -> ok s = false)) /\
  GoStrings.Contains (copy_failed src dest) src = true /\
  GoStrings.Contains (copy_failed src dest) dest = true /\
  (Legacy.NewCopyStrategy E w).1 =
    (if String.eqb (goos E) "darwin" || GoStrings.Contains (goos E) "bsd"
     then Legacy.CoWCopyStrategy "/bin/cp" ["-Rc"]
     else
       match String.eqb (goos E) "linux", output E d ["/bin/cp"; "--help"] "" with
       | true, Ok printed =>
           if GoStrings.Contains printed "--reflink"
           then Legacy.CoWCopyStrategy "/bin/cp" ["-R"; "--reflink=auto"]
           else Legacy.RegularCopyStrategy
       | _, _ => Legacy.RegularCopyStrategy
       end) /\
  (forall c cpCommand cpArgs,
     let argv := (cpCommand :: cpArgs ++ [src; dest])%list in
     Legacy.Copy E c (Legacy.CoWCopyStrategy cpCommand cpArgs) src dest w =
     match run_err E d argv with
     | Some e => (Some ("copy-on-write failed: " +:+ e), log w [Exec d argv false])
     | None =>
         (None,
          log w (Exec d argv true ::
                 if Legacy.verbose c then [Logged "DEBUG copied file using copy-on-write"]
                 else []))
     end).
Proof.
  cbv zeta. rewrite copyWithCOW_eq. cbv zeta.
  set (d := cwd w). set (destDir := GoFilepath.resolve d (GoFilepath.Dir dest)).
  set (ok := cp_ok E d src dest).
  split; [reflexivity|].
  split; [destruct (mkdirall_err E destDir); reflexivity|].
  split; [apply attempts_prefix|].
  split; [apply attempts_failed_before|].
  split; [intros e He; now rewrite He|].
  split; [|split; [apply copy_failed_names|split; [apply copy_failed_names|]]].
  - intros Hm. rewrite Hm. cbn [fst].
    assert (Hex : existsb ok copyStrategies = true
                  <-> exists s, In s copyStrategies /\ ok s = true)
      by apply existsb_exists.
    destruct (existsb ok copyStrategies) eqn:Hb.
    + split; [split; [intros _; now apply Hex | reflexivity]|].
      split; [reflexivity|].
      split; [split; [congruence | discriminate]|].
      split; [discriminate|]. intros Hall.
      destruct (proj1 Hex eq_refl) as [s [Hin Hs]]. rewrite (Hall s Hin) in Hs. discriminate.
    + split; [split; [discriminate|]|].
      { intros Hs. apply Hex in Hs. discriminate. }
      split.
      { intros H1 H23. exfalso. cbn in Hb. rewrite H1 in Hb. cbn in Hb.
        destruct H23 as [H|H]; rewrite H in Hb; [discriminate|].
        rewrite orb_true_r in Hb. discriminate. }
      split; [split; [reflexivity | discriminate]|].
      split; [|reflexivity]. intros _ s Hin.
      destruct (ok s) eqn:Hs; [|reflexivity].
      assert (false = true) by (apply Hex; eauto). discriminate.
  - split.
    + unfold Legacy.NewCopyStrategy.
      destruct (String.eqb (goos E) "darwin" || GoStrings.Contains (goos E) "bsd");
        [reflexivity|].
      destruct (String.eqb (goos E) "linux"); [|reflexivity].
      rewrite bind_eq, Output_eq. cbn [fst snd]. fold d.
      destruct (output E d ["/bin/cp"; "--help"] "") as [printed|e]; [|reflexivity].
      now destruct (GoStrings.Contains printed "--reflink").
    + intros c cpCommand cpArgs. cbn [Legacy.Copy]. unfold Legacy.CoWCopy. cbv zeta.
      rewrite bind_eq, Run_eq. cbn [fst snd]. fold d.
      destruct (run_err E d (cpCommand :: cpArgs ++ [src; dest])) as [e|]; [reflexivity|].
      cbn [isNil]. unfold Legacy.logger_Debug. rewrite bind_eq.
      destruct (Legacy.verbose c); [rewrite emit_eq; cbn [ret snd]; now rewrite log_log|].
      reflexivity.
Qed.

(** On a machine whose [cp] knows no copy-on-write flag the copy of [.env]
    into the new worktree still succeeds, with the third strategy. *)
Lemma copyWithCOW_fallback_witness :
  (copyWithCOW (Sample.env_with Sample.plain_cp_only (fun _ _ _ => Err "exit status 1")
                  NoErrAlreadyUpToDate (Dir "." []) false)
     ".env" "../feature_x/.env" (Sample.at_root Sample.refs_main)).1 = None.
Proof.
  pose proof (copyWithCOW_fallback
                (Sample.env_with Sample.plain_cp_only (fun _ _ _ => Err "exit status 1")
                   NoErrAlreadyUpToDate (Dir "." []) false)
                ".env" "../feature_x/.env" (Sample.at_root Sample.refs_main)) as H.
  cbv zeta in H. destruct H as (_ & _ & _ & _ & _ & H & _).
  destruct (H eq_refl) as (_ & Hfall & _).
  apply Hfall; [reflexivity | right; reflexivity].
Defined.

End CopyClaim.

(** ** C1: the resolution of the branch *)

Module BranchClaim.
Import Sys Os Repo Git Effects.

Section WithEnv.
Variable E : Env.

Lemma add_worktree_eq (r : GitRepo) (branchname worktreePath root : string) (w : World) :
  worktree_root (repository r) = Some root ->
  add_worktree E r branchname worktreePath w =
  Run E ["git"; "worktree"; "add"; worktreePath; branchname] w.
Proof. intros H. unfold add_worktree, Worktree. now rewrite H. Qed.

Lemma add_worktree_bare (r : GitRepo) (branchname worktreePath : string) (w : World) :
  worktree_root (repository r) = None ->
  add_worktree E r branchname worktreePath w =
  (Some "failed to get main worktree: worktree not available in a bare repository", w).
Proof. intros H. unfold add_worktree, Worktree. now rewrite H. Qed.

(** The world after [SetReference] stored [h] under [name]. *)
Definition with_branch (w : World) (name : string) (h : string) : World :=
  {| cwd := cwd w;
     refs := SetReference (refs w) name h;
     trace := (trace w ++ [SetRef name h true])%list |}.

Lemma SetReference_ok (name h : string) (w : World) :
  set_reference_err E name = None ->
  SetReference_ E name h w = (None, with_branch w name h).
Proof. intros H. unfold SetReference_. rewrite H. reflexivity. Qed.

Lemma SetReference_failed (name h e : string) (w : World) :
  set_reference_err E name = Some e ->
  SetReference_ E name h w = (Some e, log w [SetRef name h false]).
Proof. intros H. unfold SetReference_. rewrite H. reflexivity. Qed.

Lemma createWorktree_local (r : GitRepo) (branchname worktreePath h : string) (w : World) :
  Reference_ (refs w) (NewBranchReferenceName branchname) = Some h ->
  createWorktree E r branchname worktreePath w = add_worktree E r branchname worktreePath w.
Proof.
  intros H. unfold createWorktree, branchExistsLocally, Git.Reference.
  repeat progress (rewrite ?bind_eq; cbn [get_refs ret fst snd isSome]; rewrite ?H).
  reflexivity.
Qed.

Lemma createWorktree_remote (r : GitRepo) (branchname worktreePath h : string) (w : World) :
  Reference_ (refs w) (NewBranchReferenceName branchname) = None ->
  Reference_ (refs w) (NewRemoteReferenceName "origin" branchname) = Some h ->
  createWorktree E r branchname worktreePath w =
  match set_reference_err E (NewBranchReferenceName branchname) with
  | None =>
      add_worktree E r branchname worktreePath
        (with_branch w (NewBranchReferenceName branchname) h)
  | Some e =>
      (Some ("failed to create local branch: " +:+ e),
       log w [SetRef (NewBranchReferenceName branchname) h false])
  end.
Proof.
  intros Hl Hr. unfold createWorktree, branchExistsLocally, branchExistsOnRemote, Git.Reference.
  repeat progress (rewrite ?bind_eq; cbn [get_refs ret fst snd isSome]; rewrite ?Hl, ?Hr).
  destruct (set_reference_err E _) as [e|] eqn:He.
  - now rewrite (SetReference_failed _ _ _ _ He).
  - now rewrite (SetReference_ok _ _ _ He).
Qed.

Lemma createWorktree_neither (r : GitRepo) (branchname worktreePath : string) (w : World) :
  Reference_ (refs w) (NewBranchReferenceName branchname) = None ->
  Reference_ (refs w) (NewRemoteReferenceName "origin" branchname) = None ->
  createWorktree E r branchname worktreePath w =
  match Head (refs w) with
  | None => (Some "failed to get HEAD: reference not found", w)
  | Some h =>
      match set_reference_err E (NewBranchReferenceName branchname) with
      | None =>
          add_worktree E r branchname worktreePath
            (with_branch w (NewBranchReferenceName branchname) h)
      | Some e =>
          (Some ("failed to create new branch: " +:+ e),
           log w [SetRef (NewBranchReferenceName branchname) h false])
      end
  end.
Proof.
  intros Hl Hr. unfold createWorktree, branchExistsLocally, branchExistsOnRemote,
    Git.Reference, Head_.
  repeat progress (rewrite ?bind_eq; cbn [get_refs ret fst snd isSome]; rewrite ?Hl, ?Hr).
  destruct (Head (refs w)) as [h|]; [|reflexivity]. rewrite bind_eq.
  destruct (set_reference_err E _) as [e|] eqn:He.
  - now rewrite (SetReference_failed _ _ _ _ He).
  - now rewrite (SetReference_ok _ _ _ He).
Qed.

Lemma steady_SetReference name h : steady (SetReference_ E name h).
Proof. unfold SetReference_. steady. Qed.

Lemma steady_add_worktree r b p : steady (add_worktree E r b p).
Proof. unfold add_worktree. steady. Qed.

Lemma steady_createWorktree r b p : steady (createWorktree E r b p).
Proof.
  unfold createWorktree, branchExistsLocally, branchExistsOnRemote, Git.Reference, Head_.
  steady_using ltac:(first [apply steady_SetReference | apply steady_add_worktree]).
Qed.

End WithEnv.

(** The branch that was stored resolves to the commit. *)
Lemma Reference_SetReference (rs : gmap string Repo.Reference) (name h : string) :
  Reference_ (SetReference rs name h) name = Some h.
Proof. unfold Reference_, SetReference. now rewrite lookup_insert_eq. Qed.

Lemma lookup_SetReference_other (rs : gmap string Repo.Reference) (name other h : string) :
  other <> name -> SetReference rs name h !! other = rs !! other.
Proof. intros H. unfold SetReference. now apply lookup_insert_ne. Qed.

End BranchClaim.

Module BranchTheorem.
Import Sys Os Repo Git Effects BranchClaim.

(** C1.  In a repository with a work tree, [createWorktree] resolves the
    branch in three states.  (a) A local branch of that name exists: nothing
    is written, the references stay as they are, and [git worktree add
    <path> <branch>] attaches the worktree to the branch.  (b) No local
    branch, but [refs/remotes/origin/<branch>] exists: the local branch is
    stored, pointing at the commit of the remote branch, then the worktree is
    added.  (c) Neither exists: the local branch is stored, pointing at the
    commit of [HEAD], then the worktree is added.  In (b) and (c) the store
    must accept the new reference. *)
Theorem createWorktree_three_states (E : Env) (r : GitRepo)
    (branchname worktreePath root : string) (w : World) :
  let loc := NewBranchReferenceName branchname in
  let rem := NewRemoteReferenceName "origin" branchname in
  let git := ["git"; "worktree"; "add"; worktreePath; branchname] in
  let added := fun w1 : World =>
    (run_err E (cwd w1) git, log w1 [Exec (cwd w1) git (isNil (run_err E (cwd w1) git))]) in
  worktree_root (repository r) = Some root ->
  (forall h, Reference_ (refs w) loc = Some h ->
     createWorktree E r branchname worktreePath w = added w) /\
  (forall h, Reference_ (refs w) loc = None -> Reference_ (refs w) rem = Some h ->
     set_reference_err E loc = None ->
     createWorktree E r branchname worktreePath w = added (with_branch w loc h) /\
     refs (with_branch w loc h) = <[loc := HashReference h]> (refs w) /\
     Reference_ (refs (with_branch w loc h)) loc = Some h) /\
  (forall h, Reference_ (refs w) loc = None -> Reference_ (refs w) rem = None ->
     Head (refs w) = Some h -> set_reference_err E loc = None ->
     createWorktree E r branchname worktreePath w = added (with_branch w loc h) /\
     refs (with_branch w loc h) = <[loc := HashReference h]> (refs w) /\
     Reference_ (refs (with_branch w loc h)) loc = Some h).
Proof.
  cbv zeta. intros Hroot. repeat split.
  - intros h Hl. rewrite (createWorktree_local E _ _ _ _ _ Hl).
    now rewrite (add_worktree_eq E _ _ _ _ _ Hroot).
  - rewrite (createWorktree_remote E _ _ _ _ _ H H0), H1.
    now rewrite (add_worktree_eq E _ _ _ _ _ Hroot).
  - apply Reference_SetReference.
  - rewrite (createWorktree_neither E _ _ _ _ H H0), H1, H2.
    now rewrite (add_worktree_eq E _ _ _ _ _ Hroot).
  - apply Reference_SetReference.
Qed.

Definition sample_repo : GitRepo :=
  {| root := Sample.repo_root;
     repository := {| worktree_root := Some Sample.repo_root |};
     config := {| verbose := false |} |}.

(** The three states on the sample repository: [main] is a local branch,
    [feature/x] is known from the remote only, [topic] is new. *)
Lemma createWorktree_three_states_witness :
  (createWorktree Sample.env sample_repo "main" "../main"
     (Sample.at_root Sample.refs_remote)).2.(refs) = Sample.refs_remote /\
  (createWorktree Sample.env sample_repo "feature/x" "../feature_x"
     (Sample.at_root Sample.refs_remote)).2.(refs) !! "refs/heads/feature/x"
    = Some (HashReference Sample.remote_commit) /\
  (createWorktree Sample.env sample_repo "topic" "../topic"
     (Sample.at_root Sample.refs_remote)).2.(refs) !! "refs/heads/topic"
    = Some (HashReference Sample.main_commit).
Proof.
  split; [|split].
  - destruct (createWorktree_three_states Sample.env sample_repo "main" "../main"
                Sample.repo_root (Sample.at_root Sample.refs_remote) eq_refl) as (Ha & _ & _).
    rewrite (Ha Sample.main_commit); [reflexivity | vm_compute; reflexivity].
  - destruct (createWorktree_three_states Sample.env sample_repo "feature/x" "../feature_x"
                Sample.repo_root (Sample.at_root Sample.refs_remote) eq_refl) as (_ & Hb & _).
    destruct (Hb Sample.remote_commit) as (-> & _ & _);
      [vm_compute; reflexivity.. | vm_compute; reflexivity].
  - destruct (createWorktree_three_states Sample.env sample_repo "topic" "../topic"
                Sample.repo_root (Sample.at_root Sample.refs_remote) eq_refl) as (_ & _ & Hc).
    destruct (Hc Sample.main_commit) as (-> & _ & _);
      [vm_compute; reflexivity.. | vm_compute; reflexivity].
Defined.

End BranchTheorem.

(** ** C9: the output of the fast finder *)

Module FdClaim.
Import Sys Os Files Effects StringFacts SplitFacts TrimFacts.

Definition fd_argv (pattern : string) : list string :=
  ["fd"; "-u"; pattern; "-E"; "node_modules"].

(** The paths [findFilesWithFd] makes of the output of [fd]. *)
Definition paths_of_output (output : string) : list string :=
  let files := GoStrings.Split (GoStrings.TrimSpace output) nl in
  if (length files =? 1)%nat && String.eqb (nth 0 files "") "" then [] else files.

Lemma findFilesWithFd_eq (E : Env) (pattern : string) (w : World) :
  findFilesWithFd E pattern w =
  (match output E (cwd w) (fd_argv pattern) "" with
   | Err e => Err e
   | Ok out => Ok (paths_of_output out)
   end,
   log w [Exec (cwd w) (fd_argv pattern)
            (match output E (cwd w) (fd_argv pattern) "" with Ok _ => true | Err _ => false end)]).
Proof.
  unfold findFilesWithFd. rewrite bind_eq, Output_eq. cbn [fst snd]. fold (fd_argv pattern).
  destruct (output E (cwd w) (fd_argv pattern) "") as [out|e]; [|reflexivity].
  unfold paths_of_output. cbv zeta.
  now destruct ((length _ =? 1)%nat && String.eqb _ "").
Qed.

Lemma paths_of_blank (out : string) :
  GoStrings.TrimSpace out = "" -> paths_of_output out = [].
Proof. intros H. unfold paths_of_output. now rewrite H. Qed.

Lemma paths_of_text (out : string) :
  GoStrings.TrimSpace out <> "" ->
  paths_of_output out = fields "010" (GoStrings.TrimSpace out).
Proof.
  intros H. unfold paths_of_output, nl. rewrite Split_char. cbv zeta.
  destruct (fields "010" (GoStrings.TrimSpace out)) as [|f [|g rest]] eqn:Hf;
    [reflexivity | | reflexivity].
  cbn [length Nat.eqb nth andb]. destruct (String.eqb_spec f "") as [->|]; [|reflexivity].
  exfalso. apply H. rewrite <- (Join_fields "010" (GoStrings.TrimSpace out)), Hf. reflexivity.
Qed.

(** C9.  When the output of [fd] is empty, or white space only,
    [findFilesWithFd] returns the empty list, not the list of one empty
    path.  Otherwise it returns the lines of the trimmed output, one path
    per line: one more than there are newlines, and joined by newlines
    they are the trimmed output again.  For a list of well-formed lines
    (not empty, no newline, no white space at the ends), each printed with
    a newline, these are the lines themselves. *)
Theorem findFilesWithFd_lines (E : Env) (pattern : string) (w : World) :
  let result := (findFilesWithFd E pattern w).1 in
  let printed := output E (cwd w) (fd_argv pattern) "" in
  (printed = Ok "" -> result = Ok []) /\
  (forall out, printed = Ok out -> GoStrings.TrimSpace out = "" -> result = Ok []) /\
  (forall out, printed = Ok out -> GoStrings.TrimSpace out <> "" ->
     exists files,
       result = Ok files /\ files <> [] /\ files <> [""] /\
       length files = S (count_char "010" (GoStrings.TrimSpace out)) /\
       Forall (fun f => lacks "010" f = true) files /\
       GoStrings.Join files nl = GoStrings.TrimSpace out) /\
  (forall l lines, printed = Ok (unlines (l :: lines)) ->
     Forall (fun s => line_ok s = true) (l :: lines) ->
     result = Ok (l :: lines)).
Proof.
  cbv zeta. rewrite findFilesWithFd_eq. cbn [fst]. repeat split.
  - intros H. now rewrite H.
  - intros out H Hb. now rewrite H, paths_of_blank.
  - intros out H Hn. rewrite H, (paths_of_text _ Hn).
    exists (fields "010" (GoStrings.TrimSpace out)). repeat split.
    + apply fields_nonempty.
    + intros Hf. apply Hn.
      rewrite <- (Join_fields "010" (GoStrings.TrimSpace out)), Hf. reflexivity.
    + apply length_fields.
    + apply fields_all_lack.
    + apply Join_fields.
  - intros l lines H Hok. rewrite H. f_equal.
    assert (Hn : GoStrings.TrimSpace (unlines (l :: lines)) <> "").
    { rewrite (TrimSpace_unlines _ _ Hok). apply Join_line_nonempty.
      inversion Hok as [|? ? Hl _]; subst. unfold line_ok in Hl.
      apply andb_true_iff in Hl as [Hl _]. now apply andb_true_iff in Hl. }
    rewrite (paths_of_text _ Hn), <- Split_char. now apply Split_unlines.
Qed.

(** [fd] found [.env] and [web/.env.local]. *)
Lemma findFilesWithFd_lines_witness :
  (findFilesWithFd
     (Sample.env_with (fun _ _ => None)
        (fun _ _ _ => Ok (unlines [".env"; "web/.env.local"]))
        NoErrAlreadyUpToDate (Dir "." []) true)
     "^(\.env)$" (Sample.at_root Sample.refs_main)).1 = Ok [".env"; "web/.env.local"].
Proof.
  destruct (findFilesWithFd_lines
              (Sample.env_with (fun _ _ => None)
                 (fun _ _ _ => Ok (unlines [".env"; "web/.env.local"]))
                 NoErrAlreadyUpToDate (Dir "." []) true)
              "^(\.env)$" (Sample.at_root Sample.refs_main)) as (_ & _ & _ & H).
  apply H; [reflexivity | repeat constructor].
Defined.

End FdClaim.

(** ** What an anchored pattern matches *)

Module PatternFacts.
Import GoRegexp.

(** A shape is what one alternative of a pattern without repetition
    matches: a literal character or, for [.], any character but the
    newline, position by position. *)
Definition shape : Type := list (option ascii).

Definition fits_char (o : option ascii) (d : ascii) : bool :=
  match o with
  | Some c => Ascii.eqb c d
  | None => negb (Ascii.eqb d "010")
  end.

(** What is left of [s] after a beginning of the shape [sh]. *)
Fixpoint strip (sh : shape) (s : string) : option string :=
  match sh with
  | [] => Some s
  | o :: sh' =>
      match s with
      | "" => None
      | String d t => if fits_char o d then strip sh' t else None
      end
  end.

Definition fits (s : string) (sh : shape) : bool :=
  match strip sh s with
  | Some "" => true
  | _ => false
  end.

Fixpoint shapes (r : regex) : list shape :=
  match r with
  | Eps => [[]]
  | Chr c => [[Some c]]
  | Any => [[None]]
  | ChrFold _ | Bol | Eol => []
  | Seq r1 r2 => flat_map (fun a => map (app a) (shapes r2)) (shapes r1)
  | Alt r1 r2 => (shapes r1 ++ shapes r2)%list
  end.

Fixpoint anchor_free (r : regex) : bool :=
  match r with
  | Eps | Chr _ | Any => true
  | ChrFold _ | Bol | Eol => false
  | Seq r1 r2 | Alt r1 r2 => anchor_free r1 && anchor_free r2
  end.

Definition is_nil {A} (l : list A) : bool :=
  match l with [] => true | _ :: _ => false end.

Lemma existsb_ext {A} (f g : A -> bool) (l : list A) :
  (forall x, f x = g x) -> existsb f l = existsb g l.
Proof. intros H. induction l as [|x l IH]; cbn; [reflexivity | now rewrite H, IH]. Qed.

Lemma existsb_map {A B} (f : B -> bool) (h : A -> B) (l : list A) :
  existsb f (map h l) = existsb (fun x => f (h x)) l.
Proof. induction l as [|x l IH]; cbn; [reflexivity | now rewrite IH]. Qed.

Lemma existsb_flat_map {A B} (f : B -> bool) (h : A -> list B) (l : list A) :
  existsb f (flat_map h l) = existsb (fun x => existsb f (h x)) l.
Proof.
  induction l as [|x l IH]; cbn; [reflexivity | now rewrite existsb_app, IH].
Qed.

Lemma strip_app (a b : shape) (s : string) :
  strip (a ++ b)%list s = match strip a s with Some s' => strip b s' | None => None end.
Proof.
  revert s. induction a as [|o a IH]; intros s; cbn [app strip]; [reflexivity|].
  destruct s as [|d t]; [reflexivity|]. destruct (fits_char o d); [apply IH | reflexivity].
Qed.

Lemma is_nil_app {A} (a b : list A) : is_nil (a ++ b)%list = is_nil a && is_nil b.
Proof. now destruct a. Qed.

(** The matcher on a pattern without anchors tries its shapes. *)
Lemma run_shapes (g : regex) :
  anchor_free g = true ->
  forall (b : bool) (s : string) (k : bool -> string -> bool),
    run g b s k =
    existsb (fun sh => match strip sh s with
                       | Some s' => k (b && is_nil sh) s'
                       | None => false
                       end) (shapes g).
Proof.
  induction g as [| c | c | | | | g1 IH1 g2 IH2 | g1 IH1 g2 IH2]; intros Hg b s k;
    cbn [run shapes existsb strip anchor_free] in *; try discriminate.
  - now rewrite andb_true_r, orb_false_r.
  - destruct s as [|d t]; [reflexivity|]. cbn [fits_char is_nil].
    rewrite andb_false_r, orb_false_r. now destruct (Ascii.eqb c d).
  - destruct s as [|d t]; [reflexivity|]. cbn [fits_char is_nil].
    rewrite andb_false_r, orb_false_r. now destruct (Ascii.eqb d "010").
  - apply andb_true_iff in Hg as [H1 H2].
    rewrite (IH1 H1), existsb_flat_map. apply existsb_ext. intros a.
    rewrite existsb_map. destruct (strip a s) as [s'|] eqn:Ha.
    + rewrite (IH2 H2). apply existsb_ext. intros c.
      now rewrite strip_app, Ha, is_nil_app, andb_assoc.
    + symmetry. clear IH1 IH2. generalize (shapes g2) as l.
      induction l as [|c l IHl]; [reflexivity|].
      cbn [existsb]. now rewrite strip_app, Ha, IHl.
  - apply andb_true_iff in Hg as [H1 H2].
    now rewrite (IH1 H1), (IH2 H2), existsb_app.
Qed.

Lemma search_not_at_start (r : regex) (s : string) :
  search (Seq Bol r) false s = false.
Proof. induction s as [|c s IH]; cbn; [reflexivity | exact IH]. Qed.

(** A pattern [^(g)$] matches the strings that fit a shape of [g]. *)
Lemma MatchString_anchored (g : regex) (s : string) :
  anchor_free g = true ->
  MatchString (Seq Bol (Seq g (Seq Eol Eps))) s = existsb (fits s) (shapes g).
Proof.
  intros Hg. unfold MatchString.
  assert (Hh : match_here (Seq Bol (Seq g (Seq Eol Eps))) true s = existsb (fits s) (shapes g)).
  { unfold match_here. cbn [run]. rewrite (run_shapes g Hg). apply existsb_ext.
    intros sh. unfold fits. destruct (strip sh s) as [[|c t]|]; reflexivity. }
  destruct s as [|c t]; cbn [search]; rewrite Hh.
  - now rewrite orb_false_r.
  - now rewrite search_not_at_start, orb_false_r.
Qed.

(** A string fits a shape when it has its length and agrees with it
    position by position. *)
Lemma fits_spec (s : string) (sh : shape) :
  fits s sh = true <->
  Forall2 (fun o d => fits_char o d = true) sh (String.list_ascii_of_string s).
Proof.
  unfold fits. revert s. induction sh as [|o sh IH]; intros s; cbn [strip].
  - destruct s; cbn; split; try discriminate; try constructor. intros H. inversion H.
  - destruct s as [|d t]; cbn [String.list_ascii_of_string].
    + split; [discriminate | intros H; inversion H].
    + destruct (fits_char o d) eqn:Hd.
      * rewrite IH. split; [now constructor | intros H; now inversion H].
      * split; [discriminate | intros H; inversion H; congruence].
Qed.

(** The shape of a name taken literally. *)
Definition literal (name : string) : shape := map Some (String.list_ascii_of_string name).

Lemma fits_literal (s name : string) : fits s (literal name) = true <-> s = name.
Proof.
  rewrite fits_spec. unfold literal. revert s.
  induction name as [|c name IH]; intros s; cbn [String.list_ascii_of_string map].
  - split; [intros H; inversion H as [Hs|]; now destruct s | intros ->; constructor].
  - split.
    + intros H. destruct s as [|d t]; cbn in H; inversion H as [|? ? ? ? Hc Ht]; subst.
      cbn in Hc. apply Ascii.eqb_eq in Hc as ->. f_equal. now apply IH.
    + intros ->. cbn. constructor; [apply Ascii.eqb_refl | now apply IH].
Qed.

End PatternFacts.

(** ** C4, C5: the pattern of the untracked files *)

Module PatternClaim.
Import Sys Os Files Effects StringFacts SplitFacts TrimFacts GoRegexp PatternFacts.

Definition config_argv : list string :=
  ["git"; "config"; "--get-all"; "worktree.untrackedfiles"].

Definition default_pattern : string := "^(" +:+ defaultPatterns +:+ ")$".

(** The pattern [getUntrackedFilesPattern] makes of what [git config]
    answered. *)
Definition pattern_of (printed : result string) : string :=
  match printed with
  | Err _ => default_pattern
  | Ok output =>
      let customPatterns := GoStrings.TrimSpace output in
      if negb (String.eqb customPatterns "")
      then "^(" +:+ GoStrings.Join (GoStrings.Split customPatterns nl) "|" +:+ ")$"
      else default_pattern
  end.

Lemma getUntrackedFilesPattern_eq (E : Env) (w : World) :
  getUntrackedFilesPattern E w =
  (pattern_of (output E (cwd w) config_argv ""),
   log w [Exec (cwd w) config_argv
            (match output E (cwd w) config_argv "" with Ok _ => true | Err _ => false end)]).
Proof.
  unfold getUntrackedFilesPattern. rewrite bind_eq, Output_eq. cbn [fst snd].
  fold config_argv. unfold pattern_of.
  destruct (output E (cwd w) config_argv "") as [out|e]; [|reflexivity].
  cbv zeta. now destruct (negb (String.eqb (GoStrings.TrimSpace out) "")).
Qed.

Lemma pattern_of_entries (l : string) (lines : list string) :
  Forall (fun s => line_ok s = true) (l :: lines) ->
  pattern_of (Ok (unlines (l :: lines))) = "^(" +:+ GoStrings.Join (l :: lines) "|" +:+ ")$".
Proof.
  intros H. unfold pattern_of. cbv zeta. rewrite (Split_unlines _ _ H).
  rewrite (TrimSpace_unlines _ _ H).
  destruct (String.eqb_spec (GoStrings.Join (l :: lines) nl) "") as [He|]; [|reflexivity].
  exfalso. revert He. apply Join_line_nonempty.
  inversion H as [|? ? Hl _]; subst. unfold line_ok in Hl.
  apply andb_true_iff in Hl as [Hl _]. now apply andb_true_iff in Hl.
Qed.

(** The shapes of the built-in pattern: the inner dots of [.env.local],
    [.mise.toml] and [mise.toml] are not escaped. *)
Definition default_shapes : list shape :=
  [ literal ".env"; literal ".envrc";
    (literal ".env" ++ None :: literal "local")%list;
    (literal ".mise" ++ None :: literal "toml")%list;
    literal ".tool-versions";
    (literal "mise" ++ None :: literal "toml")%list ].

(** The shapes of the pattern made of the entries [.env] and [mise.toml]. *)
Definition env_mise_shapes : list shape :=
  [ (None :: literal "env")%list; (literal "mise" ++ None :: literal "toml")%list ].

Lemma matches_anchored (pattern : string) (g : regex) (name : string) :
  Compile pattern = Some (Seq Bol (Seq g (Seq Eol Eps))) ->
  anchor_free g = true ->
  matches pattern name = existsb (fits name) (shapes g).
Proof. intros Hc Hg. unfold matches. rewrite Hc. now apply MatchString_anchored. Qed.

Lemma default_pattern_shapes (name : string) :
  matches default_pattern name = existsb (fits name) default_shapes.
Proof.
  assert (Hc : exists g, Compile default_pattern = Some (Seq Bol (Seq g (Seq Eol Eps)))
                         /\ anchor_free g = true /\ shapes g = default_shapes).
  { eexists. split; [vm_compute; reflexivity|]. split; vm_compute; reflexivity. }
  destruct Hc as (g & Hc & Hg & Hs). now rewrite (matches_anchored _ g _ Hc Hg), Hs.
Qed.

Lemma env_mise_pattern_shapes (name : string) :
  matches "^(.env|mise.toml)$" name = existsb (fits name) env_mise_shapes.
Proof.
  assert (Hc : exists g, Compile "^(.env|mise.toml)$" = Some (Seq Bol (Seq g (Seq Eol Eps)))
                         /\ anchor_free g = true /\ shapes g = env_mise_shapes).
  { eexists. split; [vm_compute; reflexivity|]. split; vm_compute; reflexivity. }
  destruct Hc as (g & Hc & Hg & Hs). now rewrite (matches_anchored _ g _ Hc Hg), Hs.
Qed.

Definition six_names : list string :=
  [".env"; ".envrc"; ".env.local"; ".mise.toml"; ".tool-versions"; "mise.toml"].

End PatternClaim.

Module PatternTheorems.
Import Sys Os Files Effects StringFacts SplitFacts TrimFacts GoRegexp PatternFacts PatternClaim.

(** C4.  Without configuration ([git config] fails, or prints nothing)
    [getUntrackedFilesPattern] returns the built-in pattern.  It matches the
    six names [.env], [.envrc], [.env.local], [.mise.toml], [.tool-versions]
    and [mise.toml], and neither [.environment] nor [foo.env.bak]; but the
    inner dots of three of the names are wildcards: it matches exactly the
    names that fit one of [default_shapes], among them [.envXlocal] and
    [mise-toml], which are none of the six.  The pattern of the single-file
    variant has these dots escaped and matches neither. *)
Theorem default_pattern_not_literal (E : Env) (w : World) :
  let pattern := (getUntrackedFilesPattern E w).1 in
  let printed := output E (cwd w) config_argv "" in
  ((exists e, printed = Err e) \/
   (exists out, printed = Ok out /\ GoStrings.TrimSpace out = "") ->
   pattern = default_pattern) /\
  (forall name, matches default_pattern name = existsb (fits name) default_shapes) /\
  Forall (fun name => matches default_pattern name = true) six_names /\
  matches default_pattern ".environment" = false /\
  matches default_pattern "foo.env.bak" = false /\
  matches default_pattern ".envXlocal" = true /\
  matches default_pattern "mise-toml" = true /\
  ~ In ".envXlocal" six_names /\ ~ In "mise-toml" six_names /\
  matches Legacy.config_files ".env.local" = true /\
  matches Legacy.config_files ".envXlocal" = false /\
  matches Legacy.config_files ".mise-toml" = false.
Proof.
  cbv zeta. rewrite getUntrackedFilesPattern_eq. cbn [fst].
  split.
  { intros [[e ->] | [out [-> Hb]]]; [reflexivity|]. unfold pattern_of. now rewrite Hb. }
  split; [apply default_pattern_shapes|].
  split; [repeat constructor|].
  repeat split; try (vm_compute; reflexivity);
    intros H; cbn in H; repeat (destruct H as [H|H]; [discriminate|]); exact H.
Qed.

(** The machine of the sample where [git config] prints [printed]. *)
Definition printing (printed : string) : Env :=
  Sample.env_with (fun _ _ => None)
    (fun _ argv _ =>
       if bool_decide (argv = config_argv) then Ok printed
       else Err "exit status 1")
    NoErrAlreadyUpToDate (Dir "." []) false.

(** The entries [.env] and [mise.toml] are configured. *)
Definition configured : Env := printing (unlines [".env"; "mise.toml"]).

(** One entry is configured, the empty one: [git config] prints an empty
    line. *)
Definition configured_empty : Env := printing (unlines [""]).

(** C5, as stated, fails: with the entries [.env] and [mise.toml]
    configured the pattern matches the name [xenv], which is neither; and
    with an empty entry configured the pattern is the built-in one. *)
Lemma custom_pattern_matches_other_name :
  let pattern := (getUntrackedFilesPattern configured (Sample.at_root Sample.refs_main)).1 in
  pattern = "^(.env|mise.toml)$" /\
  matches pattern "xenv" = true /\ "xenv" <> ".env" /\ "xenv" <> "mise.toml" /\
  (getUntrackedFilesPattern configured_empty (Sample.at_root Sample.refs_main)).1
  = default_pattern.
Proof. cbv zeta. repeat split; try (vm_compute; reflexivity); discriminate. Qed.

(** C5, amended.  When [git config] prints more than white space, the
    pattern is [^(l1|...|ln)$], where [l1], ..., [ln] are the lines of what
    it printed, white space taken off both ends of the whole: nothing of the
    built-in list is in it.  For entries printed one per line that are not
    empty and have no white space at their ends these lines are the
    entries.  When it prints white space only (an empty entry, say) the
    pattern is the built-in one.  An entry is a fragment of a regular
    expression, not a literal name: for the entries [.env] and [mise.toml]
    the pattern is [^(.env|mise.toml)$]; it matches [.env] and [mise.toml],
    none of the other built-in names, and exactly the names that fit [?env]
    or [mise?toml], the [?] being any character but the newline. *)
Theorem custom_pattern_overrides (E : Env) (w : World) :
  let pattern := (getUntrackedFilesPattern E w).1 in
  let printed := output E (cwd w) config_argv "" in
  (forall out, printed = Ok out ->
     let trimmed := GoStrings.TrimSpace out in
     let entries := GoStrings.Split trimmed nl in
     (trimmed <> "" ->
        pattern = "^(" +:+ GoStrings.Join entries "|" +:+ ")$" /\
        GoStrings.Join entries nl = trimmed /\
        Forall (fun e => lacks "010" e = true) entries) /\
     (trimmed = "" -> pattern = default_pattern)) /\
  (forall l lines, printed = Ok (unlines (l :: lines)) ->
     Forall (fun s => line_ok s = true) (l :: lines) ->
     pattern = "^(" +:+ GoStrings.Join (l :: lines) "|" +:+ ")$") /\
  (printed = Ok (unlines [".env"; "mise.toml"]) ->
     pattern = "^(.env|mise.toml)$" /\
     (forall name, matches pattern name = existsb (fits name) env_mise_shapes) /\
     matches pattern ".env" = true /\ matches pattern "mise.toml" = true /\
     Forall (fun name => matches pattern name = false)
       [".envrc"; ".env.local"; ".mise.toml"; ".tool-versions"]).
Proof.
  cbv zeta. rewrite getUntrackedFilesPattern_eq. cbn [fst]. split; [|split].
  - intros out ->. unfold pattern_of. cbv zeta. split.
    + intros Hne. destruct (String.eqb_spec (GoStrings.TrimSpace out) "") as [He|_];
        [congruence|]. cbn [negb]. split; [reflexivity|].
      unfold nl. rewrite Split_char. split; [apply Join_fields | apply fields_all_lack].
    + intros ->. reflexivity.
  - intros l lines -> Hok. now apply pattern_of_entries.
  - intros ->. rewrite pattern_of_entries by repeat constructor.
    change ("^(" +:+ GoStrings.Join [".env"; "mise.toml"] "|" +:+ ")$")
      with "^(.env|mise.toml)$".
    split; [reflexivity|]. split; [apply env_mise_pattern_shapes|].
    repeat split; try (vm_compute; reflexivity). repeat constructor.
Qed.

Lemma custom_pattern_overrides_witness :
  (getUntrackedFilesPattern configured (Sample.at_root Sample.refs_main)).1
  = "^(.env|mise.toml)$".
Proof.
  destruct (custom_pattern_overrides configured (Sample.at_root Sample.refs_main))
    as (_ & _ & H).
  now destruct (H eq_refl) as [-> _].
Defined.

End PatternTheorems.

(** ** The steps of the command stay in the working directory *)

Module Steady.
Import Sys Os Files Git Main Effects CopyProps BranchClaim.

Section WithEnv.
Variable E : Env.

Lemma steady_try_keys home keys : steady (Auth.try_keys E home keys).
Proof. induction keys; cbn [Auth.try_keys]; steady. Qed.

Lemma steady_getAuth : steady (Auth.getAuth E).
Proof.
  unfold Auth.getAuth, Auth.getSSHAuth, Auth.getHTTPSAuth, Auth.getGitHubToken,
    Auth.getGitCredentials.
  steady_using ltac:(apply steady_try_keys).
Qed.

Lemma steady_pull r : steady (pull E r).
Proof. unfold pull, PullContext. steady_using ltac:(apply steady_getAuth). Qed.

Lemma steady_pull_step wm r : steady (pull_step E wm r).
Proof. unfold pull_step, warn. steady_using ltac:(apply steady_pull). Qed.

Lemma steady_copyNodeModulesAsync p : steady (copyNodeModulesAsync E p).
Proof. unfold copyNodeModulesAsync. steady. Qed.

Lemma steady_getUntrackedFilesPattern : steady (getUntrackedFilesPattern E).
Proof. unfold getUntrackedFilesPattern. steady. Qed.

Lemma steady_findFilesWithFd pattern : steady (findFilesWithFd E pattern).
Proof. unfold findFilesWithFd. steady. Qed.

Lemma steady_findFilesWithWalk re : steady (findFilesWithWalk E re).
Proof.
  intros w. unfold findFilesWithWalk. rewrite !bind_eq. cbn [get_cwd emit fst snd].
  destruct (WalkDir.Walk _ _ _ _) as [[e|] files]; cbn [ret snd cwd trace];
    (split; [reflexivity|]; eexists; split; [reflexivity|]; now repeat constructor).
Qed.

Lemma steady_findFiles pattern : steady (findFiles E pattern).
Proof.
  unfold findFiles, hasCommand.
  steady_using ltac:(first [apply steady_findFilesWithFd | apply steady_findFilesWithWalk]).
Qed.

Lemma steady_copy_each p files : steady (copy_each E p files).
Proof.
  induction files; cbn [copy_each]; steady_using ltac:(apply steady_copyWithCOW).
Qed.

Lemma steady_copyUntrackedFiles p : steady (copyUntrackedFiles E p).
Proof.
  unfold copyUntrackedFiles.
  steady_using ltac:(first [apply steady_getUntrackedFilesPattern | apply steady_findFiles
                | apply steady_copy_each]).
Qed.

Lemma steady_setupDirenv p : steady (setupDirenv E p).
Proof. unfold setupDirenv. steady. Qed.

(** [create_and_enter] between the creation of the worktree and the
    change of directory. *)
Definition copy_steps (worktreePath : string) : M unit :=
  do err <- Files.copyNodeModulesAsync E worktreePath;
  match err with
  | Some e => logger_Printf ("Error copying node_modules: " +:+ e)
  | None => ret tt
  end ;;
  do err <- Files.copyUntrackedFiles E worktreePath;
  match err with
  | Some e => warn ("Error copying untracked files: " +:+ e)
  | None => ret tt
  end ;;
  do err <- setupDirenv E worktreePath;
  match err with
  | Some e => logger_Printf ("Error setting up direnv: " +:+ e)
  | None => ret tt
  end.

Lemma steady_copy_steps p : steady (copy_steps p).
Proof.
  unfold copy_steps, logger_Printf, warn.
  steady_using ltac:(first [apply steady_copyNodeModulesAsync | apply steady_copyUntrackedFiles
                | apply steady_setupDirenv]).
Qed.

Lemma create_and_enter_eq wm repo b p w :
  create_and_enter E wm repo b p w =
  let created := createWorktree E repo b p w in
  match created.1 with
  | Some e => (Some (ErrWorktreeCreationFailed +:+ ": " +:+ e), created.2)
  | None =>
      let copied := (copy_steps p created.2).2 in
      let entered := Chdir_ E p copied in
      match entered.1 with
      | Some e => (Some ("failed to change to worktree directory: " +:+ e), entered.2)
      | None => (None, log entered.2 [Printed ("created worktree " +:+ p)])
      end
  end.
Proof.
  unfold create_and_enter. rewrite bind_eq. cbv zeta.
  destruct (createWorktree E repo b p w).1 as [e|]; [reflexivity|].
  unfold copy_steps. rewrite !bind_eq.
  destruct (Chdir_ E p _).1; reflexivity.
Qed.

End WithEnv.
End Steady.

(** ** C8: a failed pull *)

Module PullClaim.
Import Sys Os Git Main Effects Steady.

Definition quiet : WorktreeManager := {| wm_config := {| verbose := false |} |}.
Definition chatty : WorktreeManager := {| wm_config := {| verbose := true |} |}.

Lemma pull_step_eq (E : Env) (wm : WorktreeManager) (repo : GitRepo) (w : World) :
  pull_step E wm repo w =
  (tt,
   match (pull E repo w).1 with
   | None => (pull E repo w).2
   | Some errStr =>
       if GoStrings.Contains errStr "no upstream" then (pull E repo w).2
       else if verbose (wm_config wm)
            then log (pull E repo w).2 [Warn ("Unable to pull: " +:+ errStr)]
            else (pull E repo w).2
   end).
Proof.
  unfold pull_step. rewrite bind_eq. destruct (pull E repo w).1 as [e|]; [|reflexivity].
  destruct (GoStrings.Contains e "no upstream"); [reflexivity|].
  now destruct (verbose (wm_config wm)).
Qed.

Lemma CreateWorktree_eq (E : Env) (wm : WorktreeManager) (branchname : string) (w : World) :
  CreateWorktree E wm branchname w =
  match (initGitRepo E (wm_config wm) w).1 with
  | Err e => (Some e, (initGitRepo E (wm_config wm) w).2)
  | Ok repo =>
      create_and_enter E wm repo branchname (worktreePath_of branchname)
        (pull_step E wm repo (initGitRepo E (wm_config wm) w).2).2
  end.
Proof.
  unfold CreateWorktree. rewrite bind_eq.
  destruct (initGitRepo E (wm_config wm) w).1; [|reflexivity].
  cbv zeta. now rewrite bind_eq.
Qed.

(** What [pull] makes of the failures of go-git that tell of a missing
    upstream. *)
Lemma pull_no_upstream (E : Env) (repo : GitRepo) (w : World)
    (root : string) (auth : option AuthMethod) (msg : string) (rs : gmap string Repo.Reference) :
  worktree_root (repository repo) = Some root ->
  (Auth.getAuth E w).1 = Ok auth ->
  pull_context E (refs (Auth.getAuth E w).2) auth = (PullFailed msg, rs) ->
  GoStrings.Contains msg "no upstream" || GoStrings.Contains msg "no tracking information" = true ->
  (pull E repo w).1 = Some "no upstream configured for current branch".
Proof.
  intros Hr Ha Hp Hm. unfold pull, Worktree. rewrite Hr, bind_eq, Ha.
  unfold PullContext. rewrite !bind_eq. cbn [get_refs fst snd]. rewrite Hp.
  rewrite !bind_eq. cbn [emit set_refs ret fst snd]. now rewrite Hm.
Qed.

(** C8, as stated, fails: without [-v] a pull that fails for another
    reason than a missing upstream is not reported at all.  The remote of the
    sample refuses the connection; the worktree is created and the trace has
    no warning. *)
Lemma quiet_pull_failure_not_warned :
  let E := Sample.env_with (fun _ _ => None) (fun _ _ _ => Err "exit status 1")
             (PullFailed "connection refused") (Dir "." []) false in
  let run := CreateWorktree E quiet "feature/x" (Sample.start Sample.refs_main) in
  (pull E BranchTheorem.sample_repo (Sample.at_root Sample.refs_main)).1
    = Some "failed to pull: connection refused" /\
  GoStrings.Contains "failed to pull: connection refused" "no upstream" = false /\
  run.1 = None /\
  Forall (fun e => match e with Warn _ => False | _ => True end) (trace run.2).
Proof. cbv zeta. repeat split; try (vm_compute; reflexivity). vm_compute. repeat constructor. Qed.

(** C8, amended.  Once the repository is found, a failure of the pull
    never ends [CreateWorktree]: it goes on with the creation of the
    worktree, in the world the pull left.  A failure whose message has
    [no upstream] in it (what [pull] makes of go-git's missing-upstream and
    missing-tracking errors) adds nothing to the output, with or without
    [-v]; any other failure adds the warning [Unable to pull: ...] with
    [-v], and nothing without it. *)
Theorem pull_failure_not_fatal (E : Env) (wm : WorktreeManager) (branchname : string)
    (w w1 : World) (repo : GitRepo) :
  initGitRepo E (wm_config wm) w = (Ok repo, w1) ->
  let err := (pull E repo w1).1 in
  let pulled := (pull E repo w1).2 in
  let after := (pull_step E wm repo w1).2 in
  CreateWorktree E wm branchname w =
    create_and_enter E wm repo branchname (worktreePath_of branchname) after /\
  (err = None -> after = pulled) /\
  (forall e, err = Some e -> GoStrings.Contains e "no upstream" = true -> after = pulled) /\
  (forall e, err = Some e -> GoStrings.Contains e "no upstream" = false ->
     verbose (wm_config wm) = true -> after = log pulled [Warn ("Unable to pull: " +:+ e)]) /\
  (forall e, err = Some e -> GoStrings.Contains e "no upstream" = false ->
     verbose (wm_config wm) = false -> after = pulled) /\
  (forall root auth msg rs,
     worktree_root (repository repo) = Some root ->
     (Auth.getAuth E w1).1 = Ok auth ->
     pull_context E (refs (Auth.getAuth E w1).2) auth = (PullFailed msg, rs) ->
     GoStrings.Contains msg "no upstream" || GoStrings.Contains msg "no tracking information"
       = true ->
     err = Some "no upstream configured for current branch" /\ after = pulled).
Proof.
  intros Hinit. cbv zeta. rewrite pull_step_eq. cbn [snd]. split.
  { rewrite CreateWorktree_eq, Hinit. cbn [fst snd]. now rewrite pull_step_eq. }
  split; [intros ->; reflexivity|].
  split; [intros e -> ->; reflexivity|].
  split; [intros e -> -> ->; reflexivity|].
  split; [intros e -> -> ->; reflexivity|].
  intros root auth msg rs Hr Ha Hp Hm.
  rewrite (pull_no_upstream E repo w1 root auth msg rs Hr Ha Hp Hm).
  split; reflexivity.
Qed.

(** The remote of the sample has no upstream for the branch: nothing is
    said, even with [-v], and the worktree is created. *)
Lemma pull_failure_not_fatal_witness :
  let E := Sample.env_with (fun _ _ => None) (fun _ _ _ => Err "exit status 1")
             (PullFailed "no upstream branch") (Dir "." []) false in
  (CreateWorktree E chatty "feature/x" (Sample.start Sample.refs_main)).1 = None.
Proof.
  cbv zeta.
  destruct (pull_failure_not_fatal
              (Sample.env_with (fun _ _ => None) (fun _ _ _ => Err "exit status 1")
                 (PullFailed "no upstream branch") (Dir "." []) false)
              chatty "feature/x" (Sample.start Sample.refs_main)
              {| cwd := Sample.repo_root; refs := Sample.refs_main;
                 trace := [Chdir Sample.repo_root true] |}
              {| root := Sample.repo_root;
                 repository := {| worktree_root := Some Sample.repo_root |};
                 config := {| verbose := true |} |}
              eq_refl) as [-> _].
  vm_compute. reflexivity.
Defined.

End PullClaim.

(** ** C2: when the command fails *)

Module ErrorClaim.
Import Sys Os Repo Git Main Effects Steady BranchClaim PullClaim.

(** The branch can be given to git: it is there, or it can be stored from
    the remote branch or from [HEAD]. *)
Definition branch_ready (E : Env) (rs : gmap string Repo.Reference) (branchname : string) : Prop :=
  is_Some (Reference_ rs (NewBranchReferenceName branchname)) \/
  (set_reference_err E (NewBranchReferenceName branchname) = None /\
   (is_Some (Reference_ rs (NewRemoteReferenceName "origin" branchname)) \/
    is_Some (Head rs))).

Definition git_add (worktreePath branchname : string) : list string :=
  ["git"; "worktree"; "add"; worktreePath; branchname].

Lemma createWorktree_ok_iff (E : Env) (r : GitRepo) (b p : string) (w : World) :
  (createWorktree E r b p w).1 = None <->
  (exists root, worktree_root (repository r) = Some root) /\
  branch_ready E (refs w) b /\
  run_err E (cwd w) (git_add p b) = None.
Proof.
  unfold branch_ready, git_add.
  destruct (Reference_ (refs w) (NewBranchReferenceName b)) as [h|] eqn:Hl.
  - rewrite (createWorktree_local E _ _ _ _ _ Hl).
    destruct (worktree_root (repository r)) as [root|] eqn:Hr.
    + rewrite (add_worktree_eq E _ _ _ _ _ Hr), Run_eq. cbn [fst].
      split; [intros H; repeat split; eauto | intros (_ & _ & H); exact H].
    + rewrite (add_worktree_bare E _ _ _ _ Hr). cbn [fst].
      split; [discriminate | intros ([root H] & _); discriminate].
  - assert (Hno : ~ is_Some (@None string)) by (intros [x Hx]; discriminate).
    destruct (Reference_ (refs w) (NewRemoteReferenceName "origin" b)) as [h|] eqn:Hrem.
    + rewrite (createWorktree_remote E _ _ _ _ _ Hl Hrem).
      destruct (set_reference_err E (NewBranchReferenceName b)) as [e|] eqn:Hs.
      * cbn [fst]. split; [discriminate|].
        intros (_ & [H | [H _]] & _); [now apply Hno in H | discriminate].
      * destruct (worktree_root (repository r)) as [root|] eqn:Hr.
        -- rewrite (add_worktree_eq E _ _ _ _ _ Hr), Run_eq. cbn [fst with_branch cwd].
           split; [intros H; repeat split; eauto | intros (_ & _ & H); exact H].
        -- rewrite (add_worktree_bare E _ _ _ _ Hr). cbn [fst].
           split; [discriminate | intros ([root H] & _); discriminate].
    + rewrite (createWorktree_neither E _ _ _ _ Hl Hrem).
      destruct (Head (refs w)) as [h|] eqn:Hh.
      * destruct (set_reference_err E (NewBranchReferenceName b)) as [e|] eqn:Hs.
        -- cbn [fst]. split; [discriminate|].
           intros (_ & [H | [H _]] & _); [now apply Hno in H | discriminate].
        -- destruct (worktree_root (repository r)) as [root|] eqn:Hr.
           ++ rewrite (add_worktree_eq E _ _ _ _ _ Hr), Run_eq. cbn [fst with_branch cwd].
              split; [intros H; repeat split; eauto | intros (_ & _ & H); exact H].
           ++ rewrite (add_worktree_bare E _ _ _ _ Hr). cbn [fst].
              split; [discriminate | intros ([root H] & _); discriminate].
      * cbn [fst]. split; [discriminate|].
        intros (_ & [H | [_ [H | H]]] & _); now apply Hno in H.
Qed.

(** The world after [initGitRepo] went to the root. *)
Definition at_root_of (w : World) (dir : string) : World :=
  {| cwd := dir; refs := refs w; trace := (trace w ++ [Chdir dir true])%list |}.

Lemma initGitRepo_ok_iff (E : Env) (cfg : Config) (w w1 : World) (repo : GitRepo) :
  initGitRepo E cfg w = (Ok repo, w1) <->
  getwd_err E = None /\
  exists rp rt,
    plain_open E (cwd w) = Some rp /\ worktree_root rp = Some rt /\
    chdir_err E (GoFilepath.resolve (cwd w) rt) = None /\
    repo = {| root := rt; repository := rp; config := cfg |} /\
    w1 = at_root_of w (GoFilepath.resolve (cwd w) rt).
Proof.
  unfold initGitRepo, Worktree.
  destruct (getwd_err E) as [e|].
  { split; [discriminate | intros [H _]; discriminate]. }
  rewrite bind_eq. cbn [get_cwd fst snd].
  destruct (plain_open E (cwd w)) as [rp|].
  2:{ split; [discriminate | intros (_ & rp & rt & H & _); discriminate]. }
  destruct (worktree_root rp) as [rt|] eqn:Hrt.
  2:{ split; [discriminate|]. intros (_ & rp' & rt & H & H' & _). congruence. }
  rewrite bind_eq, Chdir_eq. cbv zeta.
  destruct (chdir_err E (GoFilepath.resolve (cwd w) rt)) as [e|] eqn:Hc; cbn [fst snd ret].
  - split; [discriminate|]. intros (_ & rp' & rt' & H & H' & Hc' & _).
    assert (rp' = rp) by congruence. subst. assert (rt' = rt) by congruence. subst. congruence.
  - split.
    + intros H. inversion H; subst. split; [reflexivity|]. exists rp, rt. now repeat split.
    + intros (_ & rp' & rt' & H & H' & Hc' & -> & ->).
      assert (rp' = rp) by congruence. subst. assert (rt' = rt) by congruence. subst.
      reflexivity.
Qed.

Lemma create_and_enter_ok_iff (E : Env) wm repo b p w :
  (create_and_enter E wm repo b p w).1 = None <->
  (createWorktree E repo b p w).1 = None /\
  chdir_err E (GoFilepath.resolve (cwd w) p) = None.
Proof.
  rewrite create_and_enter_eq. cbv zeta.
  destruct (createWorktree E repo b p w).1 as [e|] eqn:Hc; cbn [fst].
  { split; [discriminate | intros [H _]; discriminate]. }
  rewrite Chdir_eq. cbv zeta.
  destruct (steady_createWorktree E repo b p w) as [Hcwd _].
  destruct (steady_copy_steps E p (createWorktree E repo b p w).2) as [Hcwd' _].
  rewrite Hcwd', Hcwd.
  destruct (chdir_err E (GoFilepath.resolve (cwd w) p)); cbn [fst].
  - split; [discriminate | intros [_ H]; discriminate].
  - split; [intros _; now split | reflexivity].
Qed.

End ErrorClaim.

Module ErrorTheorem.
Import Sys Os Repo Git Main Effects Steady BranchClaim PullClaim ErrorClaim.

(** C2, as stated, fails.  In a repository without a commit ([HEAD] names a
    branch that is not born yet) [CreateWorktree] returns an error although
    the directory is inside a git repository, no subprocess failed (git was
    not even started) and no change of directory failed. *)
Lemma unborn_head_is_fatal :
  let run := CreateWorktree Sample.env quiet "topic" (Sample.start Sample.refs_unborn) in
  run.1 = Some "failed to create git worktree: failed to get HEAD: reference not found" /\
  plain_open Sample.env (cwd (Sample.start Sample.refs_unborn)) <> None /\
  Forall (fun e => match e with
                   | Exec _ _ false | Chdir _ false => False
                   | Exec _ ("git" :: "worktree" :: _) _ => False
                   | _ => True
                   end) (trace run.2).
Proof.
  cbv zeta. split; [vm_compute; reflexivity|]. split; [vm_compute; discriminate|].
  vm_compute. repeat constructor.
Qed.

(** C2, amended.  [CreateWorktree] succeeds exactly when: the working
    directory can be read, it is inside a repository, the repository has a
    work tree, the process can change to its root, the branch exists or can
    be stored (from the remote branch or from [HEAD]) after the pull, [git
    worktree add] succeeds, and the process can change into the new
    worktree.  It returns an error in every other case.  What the pull, the
    authentication, the copies and direnv answer does not enter, except that
    the pull may bring references.  [main] exits with 0 on success and with 1
    on an error. *)
Theorem CreateWorktree_fails_exactly_when (E : Env) (wm : WorktreeManager)
    (branchname : string) (w : World) :
  let path := worktreePath_of branchname in
  ((CreateWorktree E wm branchname w).1 = None <->
   getwd_err E = None /\
   exists rp rt,
     plain_open E (cwd w) = Some rp /\ worktree_root rp = Some rt /\
     let d := GoFilepath.resolve (cwd w) rt in
     let repo := {| root := rt; repository := rp; config := wm_config wm |} in
     let pulled := (pull_step E wm repo (at_root_of w d)).2 in
     chdir_err E d = None /\
     branch_ready E (refs pulled) branchname /\
     run_err E d (git_add path branchname) = None /\
     chdir_err E (GoFilepath.resolve d path) = None) /\
  (forall v rest,
     (main E v (branchname :: rest) w).1 =
     match (CreateWorktree E {| wm_config := {| verbose := v |} |} branchname w).1 with
     | None => 0
     | Some _ => 1
     end).
Proof.
  cbv zeta. split.
  - rewrite CreateWorktree_eq.
    destruct (initGitRepo E (wm_config wm) w) as [[repo|e] w1] eqn:Hi; cbn [fst snd].
    + apply initGitRepo_ok_iff in Hi as (Hg & rp & rt & Hp & Hr & Hc & -> & ->).
      rewrite create_and_enter_ok_iff, createWorktree_ok_iff.
      set (repo := {| root := rt; repository := rp; config := wm_config wm |}).
      set (d := GoFilepath.resolve (cwd w) rt).
      destruct (steady_pull_step E wm repo (at_root_of w d)) as [Hcwd _].
      rewrite Hcwd. cbn [at_root_of cwd repository repo].
      split.
      * intros [(Hroot & Hb & Hrun) Hch]. split; [exact Hg|]. exists rp, rt.
        now repeat split.
      * intros (_ & rp' & rt' & Hp' & Hr' & Hc' & Hb & Hrun & Hch).
        assert (rp' = rp) by congruence. subst rp'.
        assert (rt' = rt) by congruence. subst rt'.
        fold d in Hb, Hrun, Hch. fold repo in Hb. repeat split; eauto.
    + split; [discriminate|]. intros (Hg & rp & rt & Hp & Hr & Hc & _).
      assert (Hok : initGitRepo E (wm_config wm) w =
                    (Ok {| root := rt; repository := rp; config := wm_config wm |},
                     at_root_of w (GoFilepath.resolve (cwd w) rt))).
      { apply initGitRepo_ok_iff. split; [exact Hg|]. exists rp, rt. now repeat split. }
      congruence.
  - intros v rest. unfold main. rewrite bind_eq.
    now destruct (CreateWorktree E _ branchname w).1.
Qed.

Lemma CreateWorktree_fails_exactly_when_witness :
  (CreateWorktree Sample.env quiet "feature/x" (Sample.start Sample.refs_main)).1 = None.
Proof.
  apply (proj1 (CreateWorktree_fails_exactly_when Sample.env quiet "feature/x"
                  (Sample.start Sample.refs_main))).
  split; [reflexivity|].
  exists {| worktree_root := Some Sample.repo_root |}, Sample.repo_root.
  cbv zeta. repeat split; try reflexivity.
  right. split; [reflexivity|]. right. vm_compute. eauto.
Defined.

End ErrorTheorem.

(** ** The main flow works from the root of the repository *)

Module RootClaim.
Import Sys Os Repo Git Main Effects Steady BranchClaim PullClaim ErrorClaim.

Lemma createWorktree_runs_git (E : Env) (r : GitRepo) (b p : string) (w : World) :
  (createWorktree E r b p w).1 = None ->
  exists evs, trace (createWorktree E r b p w).2
              = (trace w ++ evs ++ [Exec (cwd w) (git_add p b) true])%list.
Proof.
  intros Hok. pose proof Hok as Hiff.
  apply createWorktree_ok_iff in Hiff as ([root Hr] & _ & Hrun). revert Hok.
  unfold git_add in *.
  destruct (Reference_ (refs w) (NewBranchReferenceName b)) as [h|] eqn:Hl.
  - rewrite (createWorktree_local E _ _ _ _ _ Hl), (add_worktree_eq E _ _ _ _ _ Hr), Run_eq.
    cbn [fst snd]. rewrite Hrun. intros _. now exists [].
  - destruct (Reference_ (refs w) (NewRemoteReferenceName "origin" b)) as [h|] eqn:Hrem.
    + rewrite (createWorktree_remote E _ _ _ _ _ Hl Hrem).
      destruct (set_reference_err E (NewBranchReferenceName b)); [discriminate|].
      rewrite (add_worktree_eq E _ _ _ _ _ Hr), Run_eq. cbn [fst snd with_branch cwd].
      rewrite Hrun. intros _. eexists [_]. cbn. now rewrite <- app_assoc.
    + rewrite (createWorktree_neither E _ _ _ _ Hl Hrem).
      destruct (Head (refs w)); [|discriminate].
      destruct (set_reference_err E (NewBranchReferenceName b)); [discriminate|].
      rewrite (add_worktree_eq E _ _ _ _ _ Hr), Run_eq. cbn [fst snd with_branch cwd].
      rewrite Hrun. intros _. eexists [_]. cbn. now rewrite <- app_assoc.
Qed.

(** When [initGitRepo] succeeds it has changed the working directory of
    the process to the root of the work tree (the root as go-git reports it;
    an absolute root does not depend on where the tool was started).  What
    the main flow of [CreateWorktree] does afterwards happens there: until
    the final change of directory no directory is changed, every command is
    started in the root and a walk starts from the root; the worktree path
    [../<dirname>] is resolved against the root, both for [git worktree
    add], which runs in the root, and for the final change of directory. *)
Lemma CreateWorktree_from_root (E : Env) (wm : WorktreeManager)
    (branchname : string) (w w1 : World) (repo : GitRepo) :
  initGitRepo E (wm_config wm) w = (Ok repo, w1) ->
  let here := cwd w1 in
  let path := worktreePath_of branchname in
  let target := GoFilepath.resolve here path in
  let run := CreateWorktree E wm branchname w in
  worktree_root (repository repo) = Some (root repo) /\
  here = GoFilepath.resolve (cwd w) (root repo) /\
  (GoFilepath.IsAbs (root repo) = true -> here = GoFilepath.Clean (root repo)) /\
  w1 = at_root_of w here /\
  target = GoFilepath.resolve here ("../" +:+ dirname_of branchname) /\
  exists before,
    Forall (in_dir here) before /\
    ((run.1 <> None /\ cwd run.2 = here /\
      (trace run.2 = (trace w1 ++ before)%list \/
       trace run.2 = (trace w1 ++ before ++ [Chdir target false])%list)) \/
     (run.1 = None /\ cwd run.2 = target /\
      trace run.2 = (trace w1 ++ before ++
                       [Chdir target true; Printed ("created worktree " +:+ path)])%list /\
      In (Exec here (git_add path branchname) true) before)).
Proof.
  intros Hinit. cbv zeta. pose proof Hinit as Hi.
  apply initGitRepo_ok_iff in Hi as (Hg & rp & rt & Hp & Hr & Hc & -> & ->).
  cbn [root repository at_root_of cwd].
  set (here := GoFilepath.resolve (cwd w) rt) in *.
  set (repo := {| root := rt; repository := rp; config := wm_config wm |}) in *.
  split; [exact Hr|]. split; [reflexivity|].
  split; [intros Ha; unfold here, GoFilepath.resolve; now rewrite Ha|].
  split; [reflexivity|].
  split; [apply WorktreePath.worktreePath_of_resolve|].
  rewrite CreateWorktree_eq, Hinit. cbn [fst snd].
  set (w1 := at_root_of w here). set (path := worktreePath_of branchname).
  destruct (steady_pull_step E wm repo w1) as [Hc2 [ev2 [Ht2 Hf2]]].
  set (w2 := (pull_step E wm repo w1).2) in *.
  rewrite create_and_enter_eq. cbv zeta.
  destruct (steady_createWorktree E repo branchname path w2) as [Hc3 [ev3 [Ht3 Hf3]]].
  assert (Hh : cwd w1 = here) by reflexivity.
  rewrite Hc2, Hh in Hc3, Hf3. rewrite Hh in Hf2, Hc2.
  destruct (createWorktree E repo branchname path w2).1 as [e|] eqn:Hcr.
  - exists (ev2 ++ ev3)%list. split; [now apply Forall_app|]. left. cbn [fst snd].
    split; [discriminate|]. split; [exact Hc3|]. left.
    now rewrite Ht3, Ht2, app_assoc.
  - set (w3 := (createWorktree E repo branchname path w2).2) in *.
    destruct (steady_copy_steps E path w3) as [Hc4 [ev4 [Ht4 Hf4]]].
    set (w4 := (copy_steps E path w3).2) in *.
    rewrite Hc3 in Hc4, Hf4.
    rewrite Chdir_eq. cbv zeta. rewrite Hc4.
    exists (ev2 ++ ev3 ++ ev4)%list.
    split; [repeat (apply Forall_app; split); assumption|].
    destruct (chdir_err E (GoFilepath.resolve here path)) as [e|]; cbn [fst snd log cwd trace].
    + left. split; [discriminate|]. split; [exact Hc4|]. right.
      rewrite Ht4, Ht3, Ht2. now rewrite <- !app_assoc.
    + right. split; [reflexivity|]. split; [reflexivity|]. split.
      * rewrite Ht4, Ht3, Ht2. rewrite <- !app_assoc. reflexivity.
      * destruct (createWorktree_runs_git E repo branchname path w2 Hcr) as [evs Hevs].
        fold w3 in Hevs. rewrite Ht3 in Hevs. apply app_inv_head in Hevs.
        rewrite Hc2 in Hevs. apply in_or_app. right. apply in_or_app. left.
        rewrite Hevs. apply in_or_app. right. now left.
Qed.

End RootClaim.

(** ** The name and the path of the worktree directory *)

Module PathTheorem.
Import GoStrings GoFilepath StringFacts SplitFacts PathFacts Main WorktreePath PullClaim.

(** [CreateWorktree] computes the path in this way. *)
Lemma CreateWorktree_path (E : Sys.Env) (wm : WorktreeManager) (branchname : string) :
  CreateWorktree E wm branchname =
  (do r <- Git.initGitRepo E (wm_config wm);
   match r with
   | Sys.Err e => Sys.ret (Some e)
   | Sys.Ok repo =>
       pull_step E wm repo ;;
       create_and_enter E wm repo branchname (worktreePath_of branchname)
   end).
Proof. reflexivity. Qed.

(** For every branch name the directory name is the branch name with
    every [/] replaced by [_]: the same length, [_] where the branch name
    has [/], the character of the branch name elsewhere, so no [/] is left.
    The path of the worktree is [filepath.Join ".." dirname]; from every
    working directory it names the same directory as [../<dirname>], and it
    is that very text unless the name is empty, [.] or [..].  From a
    repository root [/e1/.../en] this is [/e1/.../e(n-1)/<dirname>], a
    sibling of the root. *)
Lemma directory_name_and_path (branchname : string) :
  let dirname := dirname_of branchname in
  let path := worktreePath_of branchname in
  dirname = map_chars (subst_char "/" "_") branchname /\
  String.length dirname = String.length branchname /\
  (forall i, String.get i dirname
             = option_map (subst_char "/" "_") (String.get i branchname)) /\
  lacks "/" dirname = true /\
  (forall cwd, resolve cwd path = resolve cwd ("../" +:+ dirname)) /\
  (plain dirname = true -> path = "../" +:+ dirname) /\
  (plain dirname = true ->
   forall elems, Forall (fun e => name_ok e = true) elems ->
     resolve (abs_path elems) path = abs_path (removelast elems ++ [dirname])).
Proof.
  cbv zeta. split; [apply dirname_of_map|].
  split; [rewrite dirname_of_map; apply length_map_chars|].
  split; [intros i; rewrite dirname_of_map; apply get_map_chars|].
  split; [apply dirname_of_lacks_slash|].
  split; [intros cwd; apply worktreePath_of_resolve|].
  split; [apply worktreePath_of_plain|].
  intros Hp elems He. now apply worktreePath_of_sibling.
Qed.

End PathTheorem.

(** ** Walking the file tree *)

Module WalkFacts.
Import Sys WalkDir StringFacts SplitFacts.

(** Induction on file trees: the entries of a directory satisfy the
    property. *)
Fixpoint node_induction (P : node -> Prop)
    (HF : forall name, P (File name))
    (HD : forall name entries, Forall P entries -> P (Dir name entries))
    (HU : forall name e, P (Unreadable name e))
    (HB : forall name e, P (Broken name e))
    (n : node) {struct n} : P n :=
  match n with
  | File name => HF name
  | Dir name entries =>
      HD name entries
        ((fix all (l : list node) : Forall P l :=
            match l with
            | [] => List.Forall_nil P
            | m :: rest =>
                @List.Forall_cons node P m rest (node_induction P HF HD HU HB m) (all rest)
            end) entries)
  | Unreadable name e => HU name e
  | Broken name e => HB name e
  end.

(** The function of a walk, recording the paths it is called on. *)
Definition traced {S} (fn : @WalkFunc S) : @WalkFunc (S * list string) :=
  fun path a st =>
    let '(r, s') := fn path a st.1 in (r, (s', (st.2 ++ [path])%list)).

Section Invariant.
Context {S : Type}.
Variable fn : @WalkFunc S.
Variable I : S -> Prop.
Hypothesis fn_keeps : forall path a s, I s -> I (fn path a s).2.

Lemma entries_loop_keeps (visit : string -> node -> S -> option walk_error * S)
    (path : string) (l : list node) :
  Forall (fun m => forall p s, I s -> I (visit p m s).2) l ->
  forall s, I s -> I (entries_loop visit path l s).2.
Proof.
  induction l as [|m rest IH]; intros Hl s Hs; [exact Hs|].
  inversion Hl as [|? ? Hm Hrest]; subst. cbn [entries_loop].
  specialize (Hm (GoFilepath.Join [path; node_name m]) s Hs).
  destruct (visit (GoFilepath.Join [path; node_name m]) m s) as [[e|] s'];
    cbn [snd] in Hm.
  - destruct (goes_on m e); [now apply IH | exact Hm].
  - now apply IH.
Qed.

(** What the function of the walk keeps, the walk keeps. *)
Lemma walk_keeps (n : node) : forall path s, I s -> I (walk fn path n s).2.
Proof.
  induction n as [name | name entries IH | name e | name e] using node_induction;
    intros path s Hs; cbn [walk]; try now apply fn_keeps.
  pose proof (fn_keeps path (Found (info_of (Dir name entries))) s Hs) as H1.
  destruct (fn path (Found (info_of (Dir name entries))) s) as [[e|] s1];
    cbn [snd] in H1; [exact H1|].
  now apply entries_loop_keeps.
Qed.

Lemma Walk_keeps (root : string) (n : node) (s : S) : I s -> I (Walk fn root n s).2.
Proof.
  intros Hs. unfold Walk. pose proof (walk_keeps n root s Hs) as H.
  destruct (walk fn root n s) as [[[| |e]|] s']; exact H.
Qed.

End Invariant.

(** A path with the element [name]. *)
Definition has_element (name path : string) : Prop := In name (fields "/" path).

Lemma Join_Contains (x sep : string) (l : list string) :
  In x l -> GoStrings.Contains (GoStrings.Join l sep) x = true.
Proof.
  induction l as [|y l IH]; [intros []|]. intros [->|Hin].
  - destruct l as [|z l].
    + cbn. rewrite <- (append_nil_r x) at 1. apply (Contains_self_append "" x "").
    + change (GoStrings.Join (x :: z :: l) sep)
        with (x +:+ sep +:+ GoStrings.Join (z :: l) sep).
      apply (Contains_self_append "" x).
  - destruct l as [|z l]; [destruct Hin|].
    change (GoStrings.Join (y :: z :: l) sep)
      with (y +:+ sep +:+ GoStrings.Join (z :: l) sep).
    apply Contains_append_l, Contains_append_l. now apply IH.
Qed.

(** A path with the element [node_modules] has the text [node_modules]. *)
Lemma has_element_Contains (name path : string) :
  has_element name path -> GoStrings.Contains path name = true.
Proof.
  unfold has_element. intros H. rewrite <- (Join_fields "/" path).
  now apply Join_Contains.
Qed.

End WalkFacts.

(** ** C6: the dependency directory *)

Module DiscoveryClaim.
Import Sys Os WalkDir Files Effects StringFacts SplitFacts WalkFacts.

Definition free_of_node_modules (path : string) : Prop :=
  GoStrings.Contains path "node_modules" = false.

Lemma walkFunc_keeps_free (re : GoRegexp.regex) (path : string) (a : arrival)
    (files : list string) :
  Forall free_of_node_modules files ->
  Forall free_of_node_modules (walkFunc re path a files).2.
Proof.
  intros H. unfold walkFunc. destruct a as [info | info e | e]; try exact H.
  destruct (GoStrings.Contains path "node_modules") eqn:Hc; [exact H|].
  destruct (negb (IsDir info) && GoRegexp.MatchString re (Name info)); [|exact H].
  cbn [snd]. apply Forall_app. split; [exact H|]. now repeat constructor.
Qed.

Lemma findFilesWithWalk_eq (E : Env) (re : GoRegexp.regex) (w : World) :
  (findFilesWithWalk E re w).1 =
  match Walk (walkFunc re) "." (tree E (GoFilepath.resolve (cwd w) ".")) [] with
  | (Some e, _) => Err e
  | (None, files) => Ok files
  end.
Proof.
  unfold findFilesWithWalk. rewrite !bind_eq. cbn [get_cwd emit fst snd cwd].
  now destruct (Walk _ _ _ _) as [[e|] files].
Qed.

(** [findFilesWithWalk] never returns a path that has [node_modules] in
    it. *)
Lemma findFilesWithWalk_free (E : Env) (re : GoRegexp.regex) (w : World) (files : list string) :
  (findFilesWithWalk E re w).1 = Ok files -> Forall free_of_node_modules files.
Proof.
  rewrite findFilesWithWalk_eq.
  pose proof (Walk_keeps (walkFunc re) (Forall free_of_node_modules)
                (walkFunc_keeps_free re) "." (tree E (GoFilepath.resolve (cwd w) ".")) []
                (List.Forall_nil _)) as H.
  destruct (Walk _ _ _ _) as [[e|] fs]; [discriminate|]. intros Heq.
  inversion Heq; subst. exact H.
Qed.

(** The paths the walk of [findFilesWithWalk] calls its function on. *)
Definition visited (re : GoRegexp.regex) (n : node) : list string :=
  (Walk (traced (walkFunc re)) "." n ([], [])).2.2.

(** The paths the walk of the single-file variant calls its function on. *)
Definition visited_legacy (E : Env) (wm : Legacy.WorktreeManager) (re : GoRegexp.regex)
    (newWorktreePath : string) (n : node) (w : World) : list string :=
  (Walk (traced (Legacy.walkFunc E wm re newWorktreePath)) "." n (w, [])).2.2.

(** A path that leads through a directory called [node_modules]. *)
Definition inside_node_modules (path : string) : Prop :=
  In "node_modules" (removelast (fields "/" path)).

(** The relative path with the elements [elems], as [Walk] builds it from
    the root [.]. *)
Definition rel_path (elems : list string) : string :=
  match elems with
  | [] => "."
  | _ :: _ => GoStrings.Join elems "/"
  end.

(** A tree whose entries have proper names, all the way down. *)
Fixpoint proper_entry (n : node) : bool :=
  WorktreePath.name_ok (node_name n) &&
  match n with
  | Dir _ entries => forallb proper_entry entries
  | _ => true
  end.

Definition proper_tree (n : node) : bool :=
  match n with
  | Dir _ entries => forallb proper_entry entries
  | _ => true
  end.

Lemma name_ok_parts (e : string) :
  WorktreePath.name_ok e = true -> PathFacts.plain e = true /\ lacks "/" e = true.
Proof. unfold WorktreePath.name_ok. intros H. now apply andb_true_iff in H. Qed.

Lemma fields_rel_path (elems : list string) :
  Forall (fun e => WorktreePath.name_ok e = true) elems ->
  fields "/" (rel_path elems) = match elems with [] => ["."] | _ => elems end.
Proof.
  intros H. destruct elems as [|e elems]; [reflexivity|]. cbn [rel_path].
  apply (fields_Join "/"). eapply Forall_impl; [exact H|]. cbn beta.
  intros a Ha. now apply name_ok_parts in Ha.
Qed.

Lemma rel_path_not_rooted (elems : list string) :
  Forall (fun e => WorktreePath.name_ok e = true) elems ->
  rel_path elems <> "" /\ GoStrings.HasPrefix (rel_path elems) "/" = false.
Proof.
  intros H. destruct elems as [|e elems]; [split; [discriminate | reflexivity]|].
  inversion H as [|? ? He _]; subst. apply name_ok_parts in He as [Hp Hl].
  cbn [rel_path]. assert (Hj : exists rest, GoStrings.Join (e :: elems) "/" = e +:+ rest).
  { destruct elems; [exists ""; cbn; now rewrite append_nil_r | eexists; reflexivity]. }
  destruct Hj as [rest ->]. destruct e as [|c e]; [discriminate|].
  split; [discriminate|]. unfold GoStrings.HasPrefix.
  cbn [String.append String.prefix].
  destruct (ascii_dec "/" c) as [<-|]; [cbn in Hl; discriminate | reflexivity].
Qed.

(** [Walk] goes from a directory to its entry [name]. *)
Lemma Join_rel_path (elems : list string) (name : string) :
  Forall (fun e => WorktreePath.name_ok e = true) elems ->
  WorktreePath.name_ok name = true ->
  GoFilepath.Join [rel_path elems; name] = rel_path (elems ++ [name]).
Proof.
  intros He Hn. destruct (rel_path_not_rooted elems He) as [Hne Hroot].
  cbn [GoFilepath.Join]. destruct (String.eqb_spec (rel_path elems) ""); [congruence|].
  unfold GoStrings.Join, GoFilepath.Separator. cbn [String.concat].
  change (rel_path elems +:+ "/" +:+ name) with (rel_path elems +:+ String "/" name).
  rewrite PathFacts.Clean_fields, (PathFacts.HasPrefix_slash_append _ _ Hne), Hroot.
  cbv zeta. rewrite PathFacts.fields_slash_app, (fields_rel_path _ He).
  apply name_ok_parts in Hn as [Hp Hl]. rewrite (fields_lacks _ _ Hl).
  assert (Hpl : Forall (fun e => PathFacts.plain e = true) (elems ++ [name])).
  { apply Forall_app. split; [|now repeat constructor].
    eapply Forall_impl; [exact He|]. cbn beta. intros a Ha. now apply name_ok_parts in Ha. }
  destruct elems as [|e elems].
  - cbn [app fold_left]. change (GoFilepath.clean_step false [] ".") with (@nil string).
    rewrite (PathFacts.clean_step_plain _ _ _ Hp). reflexivity.
  - rewrite (WorktreePath.fold_clean_plain _ _ _ Hpl), app_nil_r, rev_involutive.
    reflexivity.
Qed.

Section LegacyWalk.
Variable E : Env.
Variable wm : Legacy.WorktreeManager.
Variable re : GoRegexp.regex.
Variable newWorktreePath : string.

Let fn := traced (Legacy.walkFunc E wm re newWorktreePath).

Lemma legacy_fn_visits (path : string) (a : arrival) (st : World * list string) :
  (fn path a st).2.2 = (st.2 ++ [path])%list.
Proof.
  unfold fn, traced. now destruct (Legacy.walkFunc E wm re newWorktreePath path a st.1).
Qed.

Lemma legacy_fn_descends (path : string) (info : FileInfo) (st : World * list string) :
  (fn path (Found info) st).1 = None -> free_of_node_modules path.
Proof.
  unfold fn, traced, Legacy.walkFunc, free_of_node_modules.
  destruct (GoStrings.Contains path "node_modules"); [discriminate | reflexivity].
Qed.

(** The paths that do not lead through [node_modules]. *)
Definition outside (path : string) : Prop := ~ inside_node_modules path.

Lemma outside_rel_path (elems : list string) :
  Forall (fun e => WorktreePath.name_ok e = true) elems ->
  ~ In "node_modules" (removelast elems) -> outside (rel_path elems).
Proof.
  intros He Hn. unfold outside, inside_node_modules. rewrite (fields_rel_path _ He).
  destruct elems; [cbn; tauto | exact Hn].
Qed.

Lemma free_rel_path (elems : list string) :
  Forall (fun e => WorktreePath.name_ok e = true) elems ->
  free_of_node_modules (rel_path elems) -> ~ In "node_modules" elems.
Proof.
  intros He Hf Hin. unfold free_of_node_modules in Hf.
  rewrite (has_element_Contains "node_modules" (rel_path elems)) in Hf; [discriminate|].
  unfold has_element. rewrite (fields_rel_path _ He). now destruct elems.
Qed.

Lemma legacy_walk_outside (n : node) :
  forall elems st,
    Forall (fun e => WorktreePath.name_ok e = true) elems ->
    match n with Dir _ entries => forallb proper_entry entries = true | _ => True end ->
    ~ In "node_modules" (removelast elems) ->
    Forall outside st.2 ->
    Forall outside (walk fn (rel_path elems) n st).2.2.
Proof.
  induction n as [name | name entries IH | name e | name e] using node_induction;
    intros elems st He Hwf Hn Hv; cbn [walk];
    try (rewrite legacy_fn_visits; apply Forall_app; split;
         [exact Hv | constructor; [now apply outside_rel_path | constructor]]).
  pose proof (legacy_fn_visits (rel_path elems) (Found (info_of (Dir name entries))) st)
    as Hvis.
  pose proof (legacy_fn_descends (rel_path elems) (info_of (Dir name entries)) st) as Hdesc.
  destruct (fn (rel_path elems) (Found (info_of (Dir name entries))) st) as [[e|] st1];
    cbn [fst snd] in *.
  - rewrite Hvis. apply Forall_app.
    split; [exact Hv | constructor; [now apply outside_rel_path | constructor]].
  - assert (Hv1 : Forall outside st1.2).
    { rewrite Hvis. apply Forall_app.
      split; [exact Hv | constructor; [now apply outside_rel_path | constructor]]. }
    specialize (Hdesc eq_refl). apply (free_rel_path _ He) in Hdesc.
    clear Hvis Hv. revert st1 Hv1.
    induction entries as [|m rest IHrest]; intros st1 Hv1; [exact Hv1|].
    inversion IH as [|? ? Hm Hrest]; subst. cbn [entries_loop].
    cbn [forallb] in Hwf. apply andb_true_iff in Hwf as [Hwm Hwrest].
    destruct m as [mname | mname mentries | mname me | mname me];
      cbn [proper_entry node_name] in Hwm; apply andb_true_iff in Hwm as [Hname Hsub];
      cbn [node_name]; rewrite (Join_rel_path _ _ He Hname).
    all: match goal with
         | |- context [walk ?f ?p ?m ?s1] =>
             let H := fresh "H" in
             assert (H : Forall outside (walk f p m s1).2.2);
             [ apply Hm;
               [ apply Forall_app; split; [exact He | now repeat constructor]
               | first [exact Hsub | exact I]
               | now rewrite removelast_last
               | exact Hv1 ]
             | destruct (walk f p m s1) as [[e|] st2]; cbn [snd] in H;
               [ destruct (goes_on _ e); [now apply IHrest | exact H]
               | now apply IHrest ] ]
         end.
Qed.

(** On a tree with proper names the walk of the single-file variant
    visits no path that leads through [node_modules]. *)
Lemma legacy_walk_stays_outside (n : node) (w : World) :
  proper_tree n = true ->
  Forall outside (visited_legacy E wm re newWorktreePath n w).
Proof.
  intros Hwf. unfold visited_legacy, Walk.
  assert (Hwf' : match n with Dir _ entries => forallb proper_entry entries = true
                             | _ => True end) by (destruct n; try exact I; exact Hwf).
  pose proof (legacy_walk_outside n [] (w, []) (List.Forall_nil _) Hwf'
                (fun H => H) (List.Forall_nil _)) as H.
  cbn [rel_path] in H. fold fn.
  destruct (walk fn "." n (w, [])) as [[[| |e]|] st]; exact H.
Qed.

End LegacyWalk.

(** A repository with an installed package: [.env] at the top, and
    [node_modules/pkg/.env]. *)
Definition with_package : node :=
  Dir "." [ File ".env"; File "main.go"; Dir "node_modules" [ Dir "pkg" [ File ".env" ] ] ].

(** The same with a directory inside [node_modules] that cannot be read. *)
Definition with_locked_package : node :=
  Dir "." [ File ".env"; Dir "node_modules" [ Unreadable "pkg" "permission denied" ] ].

(** The pattern of an installation without configuration, compiled. *)
Definition default_re : GoRegexp.regex :=
  match GoRegexp.Compile PatternClaim.default_pattern with
  | Some re => re
  | None => GoRegexp.Eps
  end.

Definition legacy_re : GoRegexp.regex :=
  match GoRegexp.Compile Legacy.config_files with
  | Some re => re
  | None => GoRegexp.Eps
  end.

Definition legacy_manager : Legacy.WorktreeManager :=
  {| Legacy.cfg := {| Legacy.verbose := false |};
     Legacy.copyStrategy := Legacy.CoWCopyStrategy "/bin/cp" ["-R"; "--reflink=auto"] |}.

Lemma default_re_compiled :
  GoRegexp.Compile PatternClaim.default_pattern = Some default_re /\
  GoRegexp.Compile Legacy.config_files = Some legacy_re.
Proof. split; vm_compute; reflexivity. Qed.

(** C6.  No path that [findFilesWithWalk] returns has [node_modules] in
    it, so none lies under the dependency directory; [findFilesWithFd]
    returns the lines [fd] printed when it was told to exclude
    [node_modules].  But the walk of [findFilesWithWalk] does descend into the
    dependency directory: on the tree [with_package] its function is called
    on [node_modules/pkg] and on [node_modules/pkg/.env], and a directory
    inside [node_modules] that cannot be read makes the whole discovery fail.
    The walk of the single-file variant returns [SkipDir] there: on every
    tree with proper names it visits no path that leads through
    [node_modules]. *)
Theorem walk_descends_into_node_modules :
  (forall E re w files,
      (findFilesWithWalk E re w).1 = Ok files ->
      Forall (fun p => free_of_node_modules p /\ ~ has_element "node_modules" p) files) /\
  (forall E pattern w files,
      (findFilesWithFd E pattern w).1 = Ok files ->
      exists out,
        output E (cwd w) ["fd"; "-u"; pattern; "-E"; "node_modules"] "" = Ok out /\
        files = FdClaim.paths_of_output out) /\
  visited default_re with_package =
    ["."; ".env"; "main.go"; "node_modules"; "node_modules/pkg"; "node_modules/pkg/.env"] /\
  inside_node_modules "node_modules/pkg/.env" /\
  Walk (walkFunc default_re) "." with_package [] = (None, [".env"]) /\
  Walk (walkFunc default_re) "." with_locked_package [] = (Some "permission denied", [".env"]) /\
  (forall E wm re newWorktreePath n w,
      proper_tree n = true ->
      Forall (fun p => ~ inside_node_modules p) (visited_legacy E wm re newWorktreePath n w)) /\
  visited_legacy Sample.env legacy_manager legacy_re "../feature_x" with_package
    (Sample.at_root Sample.refs_main) = ["."; ".env"; "main.go"; "node_modules"].
Proof.
  split.
  { intros E re w files H. apply (findFilesWithWalk_free E re w) in H.
    eapply Forall_impl; [exact H|]. cbn beta. intros p Hp. split; [exact Hp|].
    intros He. apply has_element_Contains in He. unfold free_of_node_modules in Hp.
    congruence. }
  split.
  { intros E pattern w files. rewrite FdClaim.findFilesWithFd_eq. cbn [fst].
    unfold FdClaim.fd_argv.
    destruct (output E (cwd w) _ "") as [out|e]; [|discriminate].
    intros H. inversion H; subst. now exists out. }
  split; [vm_compute; reflexivity|].
  split; [vm_compute; tauto|].
  split; [vm_compute; reflexivity|].
  split; [vm_compute; reflexivity|].
  split; [|vm_compute; reflexivity].
  intros E wm re newWorktreePath n w. apply legacy_walk_stays_outside.
Qed.

End DiscoveryClaim.

(** ** The single-file variant beside the command *)

Module LegacyFacts.
Import Sys Os Effects.

(** A machine where every command succeeds and prints nothing, with the
    file tree [tr]. *)
Definition silent (tr : node) : Env :=
  Sample.env_with (fun _ _ => None) (fun _ _ _ => Ok "") NoErrAlreadyUpToDate tr false.

(** The same, with the local branches [main] and [feature/x]. *)
Definition with_local_branch : Env :=
  Sample.env_with (fun _ _ => None)
    (fun _ argv _ =>
       if bool_decide (argv = ["git"; "for-each-ref"; "--format=%(refname:lstrip=2)";
                               "refs/heads"])
       then Ok (TrimFacts.unlines ["main"; "feature/x"])
       else Ok "")
    NoErrAlreadyUpToDate (Dir "." []) false.

Definition plain_config : Legacy.Config := {| Legacy.verbose := false |}.

(** The variant runs the one strategy that was chosen for the operating
    system; when that [cp] fails the copy fails, no other strategy is tried. *)
Lemma legacy_copy_single_strategy (E : Env) (c : Legacy.Config) (cpCommand : string)
    (cpArgs : list string) (src dst e : string) (w : World) :
  run_err E (cwd w) (cpCommand :: cpArgs ++ [src; dst])%list = Some e ->
  Legacy.Copy E c (Legacy.CoWCopyStrategy cpCommand cpArgs) src dst w =
  (Some ("copy-on-write failed: " +:+ e),
   log w [Exec (cwd w) (cpCommand :: cpArgs ++ [src; dst])%list false]).
Proof.
  intros H. cbn [Legacy.Copy]. unfold Legacy.CoWCopy. cbv zeta.
  rewrite bind_eq, Run_eq. cbn [fst snd]. now rewrite H.
Qed.

(** The commands a run started, in order. *)
Definition commands (evs : list event) : list (list string) :=
  flat_map (fun e => match e with Exec _ argv _ => [argv] | _ => [] end) evs.

(** The variant leaves the branch to git: [git worktree add <path> <branch>]
    for a branch that [git for-each-ref] lists, [git worktree add -b <branch>
    <path>] for a new one. *)
Lemma legacy_worktree_command :
  List.last (commands (trace (Legacy.main with_local_branch plain_config ["feature/x"]
                                (Sample.start Sample.refs_main)).2)) []
    = ["git"; "worktree"; "add"; "../feature_x"; "feature/x"] /\
  List.last (commands (trace (Legacy.main (silent (Dir "." [])) plain_config ["feature/x"]
                                (Sample.start Sample.refs_main)).2)) []
    = ["git"; "worktree"; "add"; "-b"; "feature/x"; "../feature_x"].
Proof. split; vm_compute; reflexivity. Qed.

(** The variant does not go to the root of the repository: started in
    [/home/dev/project/src] it walks that directory and places the worktree
    beside it, at [/home/dev/project/feature_x]. *)
Lemma legacy_stays_where_started :
  let run := Legacy.main (silent (Dir "." [File ".env"])) plain_config ["feature/x"]
               (Sample.start Sample.refs_main) in
  run.1 = 0 /\ cwd run.2 = "/home/dev/project/feature_x" /\
  flat_map (fun e => match e with Sys.Walk r => [r] | _ => [] end) (trace run.2)
    = ["/home/dev/project/src"].
Proof. cbv zeta. repeat split; vm_compute; reflexivity. Qed.

(** In the variant an error of the walk ends the command with status 1. *)
Lemma legacy_walk_error_is_fatal :
  let run := Legacy.main (silent (Dir "." [Unreadable "secret" "permission denied"]))
               plain_config ["feature/x"] (Sample.start Sample.refs_main) in
  run.1 = 1 /\
  List.last (trace run.2) (Printed "")
    = Logged "ERROR failed to create worktree copying worktree files: permission denied".
Proof. cbv zeta. split; vm_compute; reflexivity. Qed.

End LegacyFacts.

(** * Further properties of the program *)

(** ** What a computation leaves alone *)

Module Frames.
Import Sys Os Effects.

(** A computation that only adds events to the trace, all of them
    satisfying [P]: the working directory and the references stay. *)
Definition logs (P : event -> Prop) {A} (m : M A) : Prop :=
  forall w, exists evs, (m w).2 = log w evs /\ Forall P evs.

(** A computation whose new events all satisfy [P]; it may change the
    working directory and the references. *)
Definition emits (P : event -> Prop) {A} (m : M A) : Prop :=
  forall w, exists evs, trace (m w).2 = (trace w ++ evs)%list /\ Forall P evs.

Section WithP.
Variable P : event -> Prop.

Lemma logs_ret {A} (a : A) : logs P (ret a).
Proof. intros w. exists []. now rewrite log_nil. Qed.

Lemma logs_get_cwd : logs P get_cwd.
Proof. intros w. exists []. now rewrite log_nil. Qed.

Lemma logs_get_refs : logs P get_refs.
Proof. intros w. exists []. now rewrite log_nil. Qed.

Lemma logs_emit (e : event) : P e -> logs P (emit e).
Proof. intros H w. exists [e]. split; [reflexivity | now constructor]. Qed.

Lemma logs_bind {A B} (m : M A) (k : A -> M B) :
  logs P m -> (forall a, logs P (k a)) -> logs P (bind m k).
Proof.
  intros Hm Hk w. rewrite bind_eq.
  destruct (Hm w) as [evs [Hw Hf]].
  destruct (Hk (m w).1 (m w).2) as [evs' [Hw' Hf']].
  exists (evs ++ evs')%list. split.
  - now rewrite Hw', Hw, log_log.
  - now apply Forall_app.
Qed.

Lemma logs_emits {A} (m : M A) : logs P m -> emits P m.
Proof. intros H w. destruct (H w) as [evs [-> Hf]]. now exists evs. Qed.

Lemma emits_ret {A} (a : A) : emits P (ret a).
Proof. apply logs_emits, logs_ret. Qed.

Lemma emits_emit (e : event) : P e -> emits P (emit e).
Proof. intros H. now apply logs_emits, logs_emit. Qed.

Lemma emits_get_cwd : emits P get_cwd.
Proof. apply logs_emits, logs_get_cwd. Qed.

Lemma emits_get_refs : emits P get_refs.
Proof. apply logs_emits, logs_get_refs. Qed.

Lemma emits_set_cwd (d : string) : emits P (set_cwd d).
Proof. intros w. exists []. cbn. now rewrite app_nil_r. Qed.

Lemma emits_set_refs (r : gmap string Repo.Reference) : emits P (set_refs r).
Proof. intros w. exists []. cbn. now rewrite app_nil_r. Qed.

Lemma emits_bind {A B} (m : M A) (k : A -> M B) :
  emits P m -> (forall a, emits P (k a)) -> emits P (bind m k).
Proof.
  intros Hm Hk w. rewrite bind_eq.
  destruct (Hm w) as [evs [Hw Hf]].
  destruct (Hk (m w).1 (m w).2) as [evs' [Hw' Hf']].
  exists (evs ++ evs')%list. split.
  - now rewrite Hw', Hw, app_assoc.
  - now apply Forall_app.
Qed.


End WithP.

(** Goes through a computation built from the primitive steps; [known]
    closes the steps that have a lemma of their own. *)
Ltac logs_using known :=
  repeat first
    [ assumption
    | known
    | apply logs_ret
    | apply logs_get_cwd
    | apply logs_get_refs
    | apply logs_emit; solve [hnf; exact I]
    | apply logs_bind; [|intro]
    | progress cbv zeta
    | match goal with
      | |- logs _ (match ?x with _ => _ end) => destruct x
      | |- logs _ (if ?x then _ else _) => destruct x
      | |- logs _ (let '(_, _) := ?x in _) => destruct x
      end ].

Ltac emits_using known :=
  repeat first
    [ assumption
    | known
    | apply emits_ret
    | apply emits_get_cwd
    | apply emits_get_refs
    | apply emits_set_cwd
    | apply emits_set_refs
    | apply emits_emit; solve [hnf; exact I]
    | apply emits_bind; [|intro]
    | progress cbv zeta
    | match goal with
      | |- emits _ (match ?x with _ => _ end) => destruct x
      | |- emits _ (if ?x then _ else _) => destruct x
      | |- emits _ (let '(_, _) := ?x in _) => destruct x
      end ].

End Frames.

(** ** Credentials ([getAuth]) *)

Module AuthProps.
Import Sys Os Auth Effects Frames CopyProps StringFacts SplitFacts TrimFacts.

(** The names [getSSHAuth] tries, in its order. *)
Definition keyNames : list string := ["id_rsa"; "id_ed25519"; "id_ecdsa"; "id_dsa"].

Definition key_file (homeDir keyName : string) : string :=
  GoFilepath.Join [homeDir; ".ssh"; keyName].

(** A key that can be used by a process in the directory [d]: the file is
    there and go-git can load it. *)
Definition usable (E : Env) (d homeDir keyName : string) : bool :=
  match stat E (GoFilepath.resolve d (key_file homeDir keyName)) with
  | StatOk => ssh_key_loads E (key_file homeDir keyName)
  | _ => false
  end.

Definition key_looked_at (d homeDir keyName : string) : event :=
  Stat (GoFilepath.resolve d (key_file homeDir keyName)).

(** What [getAuth] does besides computing: it looks at files and runs
    commands. *)
Definition looks_or_runs (e : event) : Prop :=
  match e with
  | Stat _ | Exec _ _ _ => True
  | _ => False
  end.

Definition gh_argv : list string := ["gh"; "auth"; "token"].
Definition fill_argv : list string := ["git"; "credential"; "fill"].

Definition fill_stdin (url : string) : string := "url=" +:+ url +:+ Files.nl.

Definition no_https : string := "no HTTPS authentication method found".

Section WithEnv.
Variable E : Env.

Lemma try_keys_eq (homeDir : string) (keys : list string) (w : World) :
  try_keys E homeDir keys w =
  (match find (usable E (cwd w) homeDir) keys with
   | Some k => Ok (Some (PublicKeys "git" (key_file homeDir k)))
   | None => Err "no SSH keys found or SSH agent not available"
   end,
   log w (map (key_looked_at (cwd w) homeDir) (attempts (usable E (cwd w) homeDir) keys))).
Proof.
  revert w. induction keys as [|k keys IH]; intros w.
  - cbn. now rewrite log_nil.
  - cbn [try_keys find attempts]. rewrite bind_eq, Stat_eq. cbn [fst snd].
    fold (key_file homeDir k). unfold usable at 1 3.
    destruct (stat E (GoFilepath.resolve (cwd w) (key_file homeDir k))) eqn:Hs;
      [destruct (ssh_key_loads E (key_file homeDir k)); [reflexivity|] | |];
      rewrite IH, log_log; reflexivity.
Qed.

Lemma logs_try_keys homeDir keys : logs looks_or_runs (try_keys E homeDir keys).
Proof. induction keys; cbn [try_keys]; unfold Stat_; logs_using fail. Qed.

Lemma logs_getAuth : logs looks_or_runs (getAuth E).
Proof.
  unfold getAuth, getSSHAuth, getHTTPSAuth, getGitHubToken, getGitCredentials, Output.
  logs_using ltac:(apply logs_try_keys).
Qed.

End WithEnv.

Lemma substring_all (s : string) : String.substring 0 (String.length s) s = s.
Proof. induction s as [|c s IH]; [reflexivity|]. cbn. now rewrite IH. Qed.

Lemma after_password_line (p : string) : after_password ("password=" +:+ p) = p.
Proof.
  unfold after_password. cbn [String.append String.length].
  replace (S (S (S (S (S (S (S (S (S (String.length p))))))))) - 9)
    with (String.length p) by lia.
  cbn [String.substring]. apply substring_all.
Qed.

(** The lines of a printed text up to the first one that does not belong
    to the list. *)
Lemma fields_unlines (pre : list string) (rest : string) :
  Forall (fun l => lacks "010" l = true) pre ->
  fields "010" (unlines pre +:+ rest) = (pre ++ fields "010" rest)%list.
Proof.
  induction pre as [|l pre IH]; intros H; [reflexivity|].
  inversion H as [|? ? Hl Hpre]; subst.
  rewrite unlines_cons, !append_assoc. unfold Files.nl. cbn [String.append].
  rewrite (fields_append _ _ _ Hl), (IH Hpre). reflexivity.
Qed.

Lemma find_password_skips (pre rest : list string) :
  Forall (fun l => GoStrings.HasPrefix l "password=" = false) pre ->
  find_password (pre ++ rest) = find_password rest.
Proof.
  induction pre as [|l pre IH]; intros H; [reflexivity|].
  inversion H as [|? ? Hl Hpre]; subst. cbn [app find_password].
  now rewrite Hl, (IH Hpre).
Qed.

Lemma find_password_none (lines : list string) :
  Forall (fun l => GoStrings.HasPrefix l "password=" = false) lines ->
  find_password lines = Err "no password found in git credentials".
Proof.
  intros H. rewrite <- (app_nil_r lines). now rewrite find_password_skips.
Qed.

(** X1.  [getSSHAuth] uses the agent when there is one, and looks at no
    file then.  Without an agent it goes through [id_rsa], [id_ed25519],
    [id_ecdsa], [id_dsa] under [.ssh] of the home directory and takes the
    first whose file is there and loads, as the user [git]; the files after
    that one are not looked at.  When no key is usable, or the home
    directory is not known, it fails.  Nothing but the trace changes. *)
Theorem getSSHAuth_first_usable_key (E : Env) (w : World) :
  getSSHAuth E w =
  if ssh_agent E then (Ok (Some (SSHAgentAuth "git")), w)
  else
    match home_dir E with
    | Err e => (Err ("failed to get home directory: " +:+ e), w)
    | Ok homeDir =>
        (match find (usable E (cwd w) homeDir) keyNames with
         | Some k => Ok (Some (PublicKeys "git" (key_file homeDir k)))
         | None => Err "no SSH keys found or SSH agent not available"
         end,
         log w (map (key_looked_at (cwd w) homeDir)
                    (attempts (usable E (cwd w) homeDir) keyNames)))
    end.
Proof.
  unfold getSSHAuth. destruct (ssh_agent E); [reflexivity|].
  destruct (home_dir E) as [homeDir|e]; [|reflexivity].
  apply try_keys_eq.
Qed.

(** X2.  [getHTTPSAuth] asks the GitHub command first: when [gh auth
    token] succeeds its output, trimmed, is the password (an empty one
    included) and the credential helper is not started.  Only when it fails
    is [git credential fill] run, with [url=<remote>] and a newline on its
    input, and the password is the one of its first [password=] line.  The
    user name is [token] in both cases.  When both fail the error is the
    fixed text, whatever the commands said; the result is never [nil, nil]. *)
Theorem getHTTPSAuth_token_sources (E : Env) (remoteURL : string) (w : World) :
  let d := cwd w in
  let run := getHTTPSAuth E remoteURL w in
  let helper := output E d fill_argv (fill_stdin remoteURL) in
  (forall out, output E d gh_argv "" = Ok out ->
     run = (Ok (Some (BasicAuth "token" (GoStrings.TrimSpace out))),
            log w [Exec d gh_argv true])) /\
  (forall e, output E d gh_argv "" = Err e ->
     run.2 = log w [Exec d gh_argv false;
                    Exec d fill_argv (match helper with Ok _ => true | Err _ => false end)] /\
     run.1 = match helper with
             | Ok out =>
                 match find_password (GoStrings.Split out Files.nl) with
                 | Ok password => Ok (Some (BasicAuth "token" password))
                 | Err _ => Err no_https
                 end
             | Err _ => Err no_https
             end) /\
  run.1 <> Ok None.
Proof.
  cbv zeta. unfold getHTTPSAuth, getGitHubToken, getGitCredentials, gh_argv, fill_argv,
    fill_stdin, no_https.
  rewrite !bind_eq, Output_eq. cbn [fst snd].
  destruct (output E (cwd w) ["gh"; "auth"; "token"] "") as [out|e] eqn:Hgh; cbn [ret fst snd].
  - split; [intros out' Ho; inversion Ho; subst; reflexivity|].
    split; [intros e He; discriminate | discriminate].
  - rewrite !bind_eq, Output_eq. cbn [fst snd cwd log].
    destruct (output E (cwd w) ["git"; "credential"; "fill"] _) as [out|e'] eqn:Hc;
      cbn [ret fst snd].
    + split; [intros out' Ho; discriminate|].
      destruct (find_password (GoStrings.Split out Files.nl)) as [p|e'']; cbn [fst snd].
      * split; [intros e0 _; split; [now rewrite log_log | reflexivity] | discriminate].
      * split; [intros e0 _; split; [now rewrite log_log | reflexivity] | discriminate].
    + split; [intros out' Ho; discriminate|].
      split; [intros e0 _; split; [now rewrite log_log | reflexivity] | discriminate].
Qed.

(** X3.  [getGitCredentials] returns what follows [password=] on the
    first line of the helper's output that starts with it, as it is (not
    trimmed), whatever comes on the lines after; when no line starts with
    [password=] it fails with [no password found in git credentials]. *)
Theorem getGitCredentials_password_line (E : Env) (url out : string) (w : World) :
  output E (cwd w) fill_argv (fill_stdin url) = Ok out ->
  (forall pre password rest,
     Forall (fun l => lacks "010" l = true /\ GoStrings.HasPrefix l "password=" = false) pre ->
     lacks "010" password = true ->
     out = unlines pre +:+ "password=" +:+ password +:+ Files.nl +:+ rest ->
     (getGitCredentials E url w).1 = Ok password) /\
  (Forall (fun l => GoStrings.HasPrefix l "password=" = false) (fields "010" out) ->
   (getGitCredentials E url w).1 = Err "no password found in git credentials").
Proof.
  intros Hout. unfold getGitCredentials. rewrite bind_eq, Output_eq. cbn [fst snd].
  unfold fill_argv, fill_stdin in Hout. rewrite Hout. cbn [ret fst].
  unfold Files.nl. rewrite Split_char. split.
  - intros pre password rest Hpre Hp ->.
    rewrite fields_unlines
      by (eapply Forall_impl; [exact Hpre|]; cbn beta; intros a Ha; apply Ha).
    rewrite find_password_skips
      by (eapply Forall_impl; [exact Hpre|]; cbn beta; intros a Ha; apply Ha).
    rewrite <- append_assoc.
    assert (Hl : lacks "010" ("password=" +:+ password) = true) by (cbn; exact Hp).
    change (String "010" "" +:+ rest) with (String "010" rest).
    rewrite (fields_append _ _ _ Hl). cbn [find_password].
    unfold GoStrings.HasPrefix. rewrite prefix_append. f_equal. apply after_password_line.
  - apply find_password_none.
Qed.

(** A helper that prints the protocol, the host and the password. *)
Definition with_helper : Env :=
  Sample.env_with (fun _ _ => None)
    (fun _ argv _ =>
       if bool_decide (argv = fill_argv)
       then Ok (unlines ["protocol=https"; "host=github.com"; "username=dev";
                         "password=s3cret pass "; "quit=0"])
       else Err "exit status 1")
    NoErrAlreadyUpToDate (Dir "." []) false.

Lemma getGitCredentials_password_line_witness :
  (getGitCredentials with_helper "https://github.com/dev/project"
     (Sample.at_root Sample.refs_main)).1 = Ok "s3cret pass ".
Proof.
  refine (proj1 (getGitCredentials_password_line with_helper "https://github.com/dev/project"
                   _ (Sample.at_root Sample.refs_main) eq_refl)
            ["protocol=https"; "host=github.com"; "username=dev"] "s3cret pass "
            (unlines ["quit=0"]) _ eq_refl eq_refl).
  repeat constructor.
Defined.

End AuthProps.

(** ** The pull ([pull]) *)

Module PullProps.
Import Sys Os Repo Git Effects Frames AuthProps StringFacts.

(** A remote that is reached over SSH, on a machine without agent and
    without keys. *)
Definition ssh_remote : Env := {|
  goos := goos Sample.env;
  getwd_err := getwd_err Sample.env;
  chdir_err := chdir_err Sample.env;
  stat := stat Sample.env;
  mkdirall_err := mkdirall_err Sample.env;
  open_err := open_err Sample.env;
  create_err := create_err Sample.env;
  copy_err := copy_err Sample.env;
  tree := tree Sample.env;
  home_dir := home_dir Sample.env;
  look_path := look_path Sample.env;
  run_err := run_err Sample.env;
  output := output Sample.env;
  plain_open := plain_open Sample.env;
  remote_urls := Ok ["git@github.com:dev/project.git"];
  ssh_agent := false;
  ssh_key_loads := ssh_key_loads Sample.env;
  pull_context := fun rs _ => (PullDone, <["refs/remotes/origin/main" := HashReference "0badc0de"]> rs);
  set_reference_err := set_reference_err Sample.env
|}.

(** What [pull] makes of the error of go-git. *)
Lemma pull_after_auth (E : Env) (r : GitRepo) (w : World) (root : string)
    (auth : option AuthMethod) :
  worktree_root (repository r) = Some root ->
  (Auth.getAuth E w).1 = Ok auth ->
  let w1 := (Auth.getAuth E w).2 in
  let answer := pull_context E (refs w) auth in
  (pull E r w).2 = {| cwd := cwd w; refs := answer.2;
                      trace := (trace w1 ++ [Pull auth])%list |} /\
  (pull E r w).1 =
  match answer.1 with
  | PullDone | NoErrAlreadyUpToDate => None
  | PullFailed errStr =>
      if GoStrings.Contains errStr "no upstream"
         || GoStrings.Contains errStr "no tracking information"
      then Some "no upstream configured for current branch"
      else if GoStrings.Contains errStr "authentication required"
              || GoStrings.Contains errStr "Repository not found"
      then Some "authentication failed or repository not accessible"
      else Some ("failed to pull: " +:+ errStr)
  end.
Proof.
  intros Hr Ha. cbv zeta. unfold pull, Worktree. rewrite Hr, bind_eq, Ha.
  destruct (logs_getAuth E w) as [evs [Hw _]].
  assert (Hrefs : refs (Auth.getAuth E w).2 = refs w) by now rewrite Hw.
  assert (Hcwd : cwd (Auth.getAuth E w).2 = cwd w) by now rewrite Hw.
  clear Hw. set (w1 := (Auth.getAuth E w).2) in *.
  unfold PullContext. rewrite !bind_eq. cbn [get_refs fst snd]. rewrite Hrefs.
  destruct (pull_context E (refs w) auth) as [o rs]. rewrite !bind_eq.
  cbn [emit set_refs ret fst snd cwd refs trace]. rewrite Hcwd.
  destruct o as [| |errStr]; [split; reflexivity.. |].
  destruct (_ || _); [split; reflexivity|].
  destruct (_ || _); split; reflexivity.
Qed.

(** X4.  When the credentials cannot be determined [pull] does not
    contact the remote: it returns [failed to get authentication: ...] (or,
    in a bare repository, [failed to get worktree: ...] before it even
    looks for credentials), the references and the working directory are
    as before, and all it did was looking at files and running commands. *)
Theorem pull_without_credentials (E : Env) (r : GitRepo) (w : World) (e : string) :
  (Auth.getAuth E w).1 = Err e ->
  let run := pull E r w in
  run.1 = Some (match Worktree (repository r) with
                | Err e' => "failed to get worktree: " +:+ e'
                | Ok _ => "failed to get authentication: " +:+ e
                end) /\
  cwd run.2 = cwd w /\ refs run.2 = refs w /\
  (worktree_root (repository r) = None -> run.2 = w) /\
  exists evs, trace run.2 = (trace w ++ evs)%list /\ Forall looks_or_runs evs.
Proof.
  intros Ha. cbv zeta. unfold pull, Worktree.
  destruct (worktree_root (repository r)) as [root|].
  - rewrite bind_eq, Ha. cbn [ret fst snd].
    destruct (logs_getAuth E w) as [evs [-> Hf]]. cbn [log cwd refs trace].
    repeat split; try discriminate. now exists evs.
  - cbn [ret fst snd]. repeat split. exists []. now rewrite app_nil_r.
Qed.

Lemma pull_without_credentials_witness :
  (pull ssh_remote BranchTheorem.sample_repo (Sample.at_root Sample.refs_main)).1
    = Some "failed to get authentication: no SSH keys found or SSH agent not available" /\
  refs (pull ssh_remote BranchTheorem.sample_repo (Sample.at_root Sample.refs_main)).2
    = Sample.refs_main.
Proof.
  destruct (pull_without_credentials ssh_remote BranchTheorem.sample_repo
              (Sample.at_root Sample.refs_main)
              "no SSH keys found or SSH agent not available" eq_refl)
    as (H1 & _ & H2 & _).
  split; [exact H1 | exact H2].
Defined.

(** X5.  A remote whose first URL starts neither with [git@] nor with
    [ssh://] nor with [https://github.com] is pulled from without
    credentials: no file is looked at, no command is run, go-git is called
    once with no authentication method, and the references are the ones it
    leaves.  The other URLs of the remote play no part. *)
Theorem pull_without_auth_method (E : Env) (r : GitRepo) (w : World)
    (root url : string) (rest : list string) :
  worktree_root (repository r) = Some root ->
  remote_urls E = Ok (url :: rest) ->
  GoStrings.HasPrefix url "git@" = false ->
  GoStrings.HasPrefix url "ssh://" = false ->
  GoStrings.HasPrefix url "https://github.com" = false ->
  let answer := pull_context E (refs w) None in
  (pull E r w).2 = {| cwd := cwd w; refs := answer.2;
                      trace := (trace w ++ [Pull None])%list |} /\
  ((pull E r w).1 = None <-> answer.1 = PullDone \/ answer.1 = NoErrAlreadyUpToDate).
Proof.
  intros Hr Hu H1 H2 H3. cbv zeta.
  assert (Ha : Auth.getAuth E w = (Ok None, w)).
  { unfold Auth.getAuth. now rewrite Hu, H1, H2, H3. }
  destruct (pull_after_auth E r w root None Hr) as [Hw Hres]; [now rewrite Ha|].
  rewrite Ha in Hw. cbn [snd] in Hw. split; [exact Hw|]. rewrite Hres.
  destruct (pull_context E (refs w) None).1 as [| |errStr].
  - split; [now left | reflexivity].
  - split; [now right | reflexivity].
  - destruct (_ || _); [split; [discriminate | now intros [|]]|].
    destruct (_ || _); split; try discriminate; now intros [|].
Qed.

Lemma pull_without_auth_method_witness :
  pull Sample.env BranchTheorem.sample_repo (Sample.at_root Sample.refs_main)
  = (None, {| cwd := Sample.repo_root; refs := Sample.refs_main; trace := [Pull None] |}).
Proof.
  destruct (pull_without_auth_method Sample.env BranchTheorem.sample_repo
              (Sample.at_root Sample.refs_main) Sample.repo_root
              "https://example.org/project.git" [] eq_refl eq_refl eq_refl eq_refl eq_refl)
    as [Hw Hres].
  rewrite (surjective_pairing (pull _ _ _)), Hw. f_equal.
Defined.

(** X6.  [pull] returns no error exactly when the repository has a work
    tree, the credentials are determined and go-git reports a pull or that
    everything is up to date.  Once go-git was called, the references are
    the ones it leaves, also when it failed; a failure whose message has
    [no upstream] or [no tracking information] in it is reported as [no
    upstream configured for current branch], before any other reading of
    the message. *)
Theorem pull_succeeds_exactly_when (E : Env) (r : GitRepo) (w : World) :
  ((pull E r w).1 = None <->
   (exists root, worktree_root (repository r) = Some root) /\
   exists auth,
     (Auth.getAuth E w).1 = Ok auth /\
     ((pull_context E (refs w) auth).1 = PullDone \/
      (pull_context E (refs w) auth).1 = NoErrAlreadyUpToDate)) /\
  (forall root auth,
     worktree_root (repository r) = Some root ->
     (Auth.getAuth E w).1 = Ok auth ->
     refs (pull E r w).2 = (pull_context E (refs w) auth).2 /\
     forall msg,
       (pull_context E (refs w) auth).1 = PullFailed msg ->
       GoStrings.Contains msg "no upstream" || GoStrings.Contains msg "no tracking information"
         = true ->
       (pull E r w).1 = Some "no upstream configured for current branch").
Proof.
  split.
  - destruct (worktree_root (repository r)) as [root|] eqn:Hr.
    + destruct (Auth.getAuth E w).1 as [auth|e] eqn:Ha.
      * destruct (pull_after_auth E r w root auth Hr Ha) as [_ ->].
        split.
        -- intros H. split; [now exists root|]. exists auth. split; [reflexivity|].
           destruct (pull_context E (refs w) auth).1 as [| |errStr]; [now left | now right|].
           destruct (_ || _); [discriminate|]. destruct (_ || _); discriminate.
        -- intros (_ & auth' & Heq & Hp). inversion Heq; subst auth'.
           destruct Hp as [-> | ->]; reflexivity.
      * destruct (pull_without_credentials E r w e Ha) as [-> _].
        split; [discriminate | intros (_ & auth & Heq & _); discriminate].
    + unfold pull, Worktree. rewrite Hr. cbn [ret fst].
      split; [discriminate | intros ([root H] & _); discriminate].
  - intros root auth Hr Ha. destruct (pull_after_auth E r w root auth Hr Ha) as [Hw Hres].
    split; [now rewrite Hw|]. intros msg Hp Hm. now rewrite Hres, Hp, Hm.
Qed.

End PullProps.

(** ** The references ([createWorktree], [createBranch]) *)

Module BranchProps.
Import Sys Os Repo Git Effects BranchClaim.

Lemma resolveReference_hash (rs : gmap string Repo.Reference) (n : nat) (h : string) :
  resolveReference rs n (HashReference h) = Some h.
Proof. now destruct n. Qed.

(** A reference that resolves within some number of steps resolves within
    any larger number. *)
Lemma resolveReference_more_fuel (rs : gmap string Repo.Reference) (n : nat) :
  forall (m : nat) (r : Repo.Reference) (h : string),
    resolveReference rs n r = Some h -> n <= m -> resolveReference rs m r = Some h.
Proof.
  induction n as [|n IH]; intros m r h Hr Hle.
  - destruct r as [h'|t]; [|discriminate]. cbn in Hr. now rewrite resolveReference_hash.
  - destruct r as [h'|t]; [now rewrite resolveReference_hash|].
    destruct m as [|m]; [lia|]. cbn [resolveReference] in *.
    destruct (rs !! t) as [r'|]; [|discriminate]. apply IH; [exact Hr | lia].
Qed.

(** Storing a commit under a name that did not resolve leaves what the
    other references resolve to. *)
Lemma resolveReference_insert_fresh (rs : gmap string Repo.Reference) (x h0 : string) (N : nat) :
  (forall rx, rs !! x = Some rx -> resolveReference rs N rx = None) ->
  forall (n : nat) (r : Repo.Reference) (h : string),
    n <= N -> resolveReference rs n r = Some h ->
    resolveReference (<[x := HashReference h0]> rs) n r = Some h.
Proof.
  intros Hx. induction n as [|n IH]; intros r h Hle Hr.
  - destruct r as [h'|t]; [exact Hr | discriminate].
  - destruct r as [h'|t]; [exact Hr|]. cbn [resolveReference] in *.
    destruct (rs !! t) as [r'|] eqn:Ht; [|discriminate].
    destruct (decide (t = x)) as [->|Hne].
    + specialize (Hx r' Ht).
      rewrite (resolveReference_more_fuel rs n N r' h Hr) in Hx by lia. discriminate.
    + rewrite lookup_insert_ne by congruence. rewrite Ht. apply IH; [lia | exact Hr].
Qed.

Lemma Reference_insert_fresh (rs : gmap string Repo.Reference) (x h0 name h : string) :
  Reference_ rs x = None ->
  Reference_ rs name = Some h ->
  Reference_ (SetReference rs x h0) name = Some h.
Proof.
  unfold Reference_, SetReference. intros Hx Hn.
  destruct (decide (name = x)) as [->|Hne]; [congruence|].
  rewrite lookup_insert_ne by congruence.
  destruct (rs !! name) as [r|]; [|discriminate].
  apply (resolveReference_insert_fresh rs x h0 (S MaxResolveRecursion)); [|lia | exact Hn].
  intros rx Hrx. now rewrite Hrx in Hx.
Qed.

(** Storing under a name the commit that a reference resolves to leaves
    that reference where it was, also when it leads through the name. *)
Lemma resolveReference_insert_same (rs : gmap string Repo.Reference) (x h : string) :
  forall (n : nat) (r : Repo.Reference),
    resolveReference rs n r = Some h ->
    resolveReference (<[x := HashReference h]> rs) n r = Some h.
Proof.
  induction n as [|n IH]; intros r Hr.
  - destruct r as [h'|t]; [exact Hr | discriminate].
  - destruct r as [h'|t]; [exact Hr|]. cbn [resolveReference] in *.
    destruct (decide (t = x)) as [->|Hne].
    + rewrite lookup_insert_eq. apply resolveReference_hash.
    + rewrite lookup_insert_ne by congruence.
      destruct (rs !! t) as [r'|]; [|discriminate]. now apply IH.
Qed.

Lemma branch_is_not_HEAD (b : string) : HEAD <> NewBranchReferenceName b.
Proof. discriminate. Qed.

Section WithEnv.
Variable E : Env.

Lemma add_worktree_refs (r : GitRepo) (b p : string) (w : World) :
  refs (add_worktree E r b p w).2 = refs w.
Proof. unfold add_worktree. now destruct (Worktree (repository r)). Qed.

(** The references after [createWorktree]: the ones before, or those with
    the branch stored, which then did not resolve before. *)
Lemma createWorktree_refs (r : GitRepo) (b p : string) (w : World) :
  let loc := NewBranchReferenceName b in
  refs (createWorktree E r b p w).2 = refs w \/
  (Reference_ (refs w) loc = None /\
   exists h, refs (createWorktree E r b p w).2 = SetReference (refs w) loc h).
Proof.
  cbv zeta.
  destruct (Reference_ (refs w) (NewBranchReferenceName b)) as [h|] eqn:Hl.
  - left. rewrite (createWorktree_local E _ _ _ _ _ Hl). apply add_worktree_refs.
  - destruct (Reference_ (refs w) (NewRemoteReferenceName "origin" b)) as [h|] eqn:Hrem.
    + rewrite (createWorktree_remote E _ _ _ _ _ Hl Hrem).
      destruct (set_reference_err E _); [now left|].
      right. split; [reflexivity|]. exists h. now rewrite add_worktree_refs.
    + rewrite (createWorktree_neither E _ _ _ _ Hl Hrem).
      destruct (Head (refs w)) as [h|]; [|now left].
      destruct (set_reference_err E _); [now left|].
      right. split; [reflexivity|]. exists h. now rewrite add_worktree_refs.
Qed.

End WithEnv.

(** X7.  Whatever its outcome, [createWorktree] writes at most one
    reference, [refs/heads/<branch>], and only when that branch did not
    resolve: every other name holds what it held, and every reference that
    resolved before ([HEAD], the remote branches, the other local branches,
    also symbolic ones) resolves to the same commit afterwards.  The
    working directory stays. *)
Theorem createWorktree_keeps_references (E : Env) (r : GitRepo) (b p : string) (w : World) :
  let after := (createWorktree E r b p w).2 in
  (forall name, name <> NewBranchReferenceName b -> refs after !! name = refs w !! name) /\
  (forall name h, Reference_ (refs w) name = Some h -> Reference_ (refs after) name = Some h) /\
  (is_Some (Reference_ (refs w) (NewBranchReferenceName b)) -> refs after = refs w) /\
  cwd after = cwd w.
Proof.
  cbv zeta. destruct (createWorktree_refs E r b p w) as [H | [Hl [h H]]]; rewrite H.
  - repeat split; try tauto. apply (steady_createWorktree E r b p w).
  - split; [intros name Hn; now apply lookup_SetReference_other|].
    split; [intros name h' Hn; now apply Reference_insert_fresh|].
    split; [intros [h' Hh]; congruence|]. apply (steady_createWorktree E r b p w).
Qed.

(** X8.  [createBranch] stores [refs/heads/<branch>] with the commit of
    [HEAD], whether or not the branch was there: afterwards the branch
    resolves to that commit, [branchExistsLocally] says yes, and [HEAD]
    still resolves to the same commit, also when it names that very branch.
    Without a commit behind [HEAD] it fails and writes nothing; an error of
    the store is returned as it is. *)
Theorem createBranch_points_at_head (E : Env) (b : string) (w : World) :
  let loc := NewBranchReferenceName b in
  let run := createBranch E b w in
  match Head (refs w) with
  | None => run = (Some "failed to get HEAD: reference not found", w)
  | Some h =>
      match set_reference_err E loc with
      | Some e => run = (Some e, log w [SetRef loc h false])
      | None =>
          run.1 = None /\
          refs run.2 = <[loc := HashReference h]> (refs w) /\
          Reference_ (refs run.2) loc = Some h /\
          Head (refs run.2) = Some h /\
          (branchExistsLocally b run.2).1 = true /\
          cwd run.2 = cwd w
      end
  end.
Proof.
  cbv zeta. unfold createBranch, Head_.
  repeat progress (rewrite ?bind_eq; cbn [get_refs ret fst snd]).
  destruct (Head (refs w)) as [h|] eqn:Hh; [|reflexivity].
  destruct (set_reference_err E (NewBranchReferenceName b)) as [e|] eqn:He.
  - now rewrite (SetReference_failed E _ _ _ _ He).
  - rewrite (SetReference_ok E _ _ _ He). cbn [fst snd with_branch refs cwd].
    split; [reflexivity|]. split; [reflexivity|].
    split; [apply Reference_SetReference|].
    split.
    + unfold Head, Reference_, SetReference in *.
      rewrite lookup_insert_ne by apply not_eq_sym, branch_is_not_HEAD.
      destruct (refs w !! HEAD) as [r0|]; [|discriminate].
      now apply resolveReference_insert_same.
    + split; [|reflexivity].
      unfold branchExistsLocally, Git.Reference. rewrite !bind_eq.
      cbn [get_refs ret fst snd refs with_branch]. now rewrite Reference_SetReference.
Qed.

(** X9.  When [initGitRepo] fails nothing has happened but, at most, the
    refused change of directory: the process is where it was, the
    references are untouched, and [CreateWorktree] returns that very error
    without pulling, without starting git and without copying; [main] prints
    it and exits with 1. *)
Theorem initGitRepo_failure_stays (E : Env) (cfg : Config) (w : World) (e : string) :
  (initGitRepo E cfg w).1 = Err e ->
  let w1 := (initGitRepo E cfg w).2 in
  cwd w1 = cwd w /\ refs w1 = refs w /\
  (w1 = w \/ exists d, w1 = log w [Chdir d false]) /\
  (forall branchname rest,
     Main.CreateWorktree E {| Main.wm_config := cfg |} branchname w = (Some e, w1) /\
     Main.main E (verbose cfg) (branchname :: rest) w = (1, log w1 [Printed e])).
Proof.
  intros Hinit. cbv zeta.
  assert (Hw : cwd (initGitRepo E cfg w).2 = cwd w /\ refs (initGitRepo E cfg w).2 = refs w /\
               ((initGitRepo E cfg w).2 = w \/
                exists d, (initGitRepo E cfg w).2 = log w [Chdir d false])).
  { revert Hinit. unfold initGitRepo, Worktree.
    destruct (getwd_err E); [intros _; repeat split; now left|].
    rewrite bind_eq. cbn [get_cwd fst snd].
    destruct (plain_open E (cwd w)) as [rp|]; [|intros _; repeat split; now left].
    destruct (worktree_root rp) as [rt|]; [|intros _; repeat split; now left].
    rewrite bind_eq, Chdir_eq. cbv zeta.
    destruct (chdir_err E _) as [e'|]; cbn [fst snd ret]; [|discriminate].
    intros _. repeat split. right. now eexists. }
  destruct Hw as (Hc & Hr & Hev). split; [exact Hc|]. split; [exact Hr|]. split; [exact Hev|].
  assert (Hcw : forall branchname,
             Main.CreateWorktree E {| Main.wm_config := cfg |} branchname w
             = (Some e, (initGitRepo E cfg w).2)).
  { intros branchname. rewrite PullClaim.CreateWorktree_eq. cbn [Main.wm_config].
    now rewrite Hinit. }
  intros branchname rest. split; [apply Hcw|].
  unfold Main.main. rewrite bind_eq. destruct cfg as [v]. cbn [verbose].
  rewrite Hcw. reflexivity.
Qed.

Lemma initGitRepo_failure_stays_witness :
  Main.main Sample.env false ["feature/x"]
    {| cwd := "/tmp"; refs := Sample.refs_main; trace := [] |}
  = (1, {| cwd := "/tmp"; refs := Sample.refs_main;
           trace := [Printed "not in a git repository"] |}).
Proof.
  destruct (initGitRepo_failure_stays Sample.env {| verbose := false |}
              {| cwd := "/tmp"; refs := Sample.refs_main; trace := [] |}
              "not in a git repository" eq_refl) as (_ & _ & _ & H).
  exact (proj2 (H "feature/x" [])).
Defined.

End BranchProps.

(** ** The file copier ([copyUntrackedFiles], [findFiles]) *)

Module CopierProps.
Import Sys Os WalkDir Files Effects Frames CopyProps StringFacts WalkFacts.

(** The directories a run made (or tried to make) and the warnings it
    gave, in order. *)
Definition made_dirs (evs : list event) : list string :=
  flat_map (fun e => match e with MkdirAll dir _ => [dir] | _ => [] end) evs.

Definition warnings (evs : list event) : list string :=
  flat_map (fun e => match e with Warn msg => [msg] | _ => [] end) evs.

Definition unable_to_copy (worktreePath file : string) : string :=
  "Unable to copy file " +:+ file +:+ " to " +:+ GoFilepath.Join [worktreePath; file]
  +:+ " - folder may not exist".

Section WithEnv.
Variable E : Env.

(** Whether the copy of [src] to [dest] by a process in [d] works out:
    the directory can be made and one of the strategies succeeds. *)
Definition copies (d src dest : string) : bool :=
  isNil (mkdirall_err E (GoFilepath.resolve d (GoFilepath.Dir dest))) &&
  existsb (cp_ok E d src dest) copyStrategies.

Definition copy_events (d src dest : string) : list event :=
  let destDir := GoFilepath.resolve d (GoFilepath.Dir dest) in
  match mkdirall_err E destDir with
  | Some _ => [MkdirAll destDir false]
  | None =>
      MkdirAll destDir true
        :: map (cp_event E d src dest) (attempts (cp_ok E d src dest) copyStrategies)
  end.

Lemma copyWithCOW_events (src dest : string) (w : World) :
  (copyWithCOW E src dest w).2 = log w (copy_events (cwd w) src dest) /\
  isNil (copyWithCOW E src dest w).1 = copies (cwd w) src dest.
Proof.
  pose proof (copyWithCOW_eq E src dest w) as H. cbv zeta in H. rewrite H.
  unfold copy_events, copies.
  destruct (mkdirall_err E _) as [e|]; cbn [fst snd isNil andb]; [now split|].
  split; [reflexivity|]. now destruct (existsb _ _).
Qed.

(** What the loop of [copyUntrackedFiles] does for one file. *)
Definition file_events (d worktreePath file : string) : list event :=
  (copy_events d file (GoFilepath.Join [worktreePath; file]) ++
   if copies d file (GoFilepath.Join [worktreePath; file]) then []
   else [Warn (unable_to_copy worktreePath file)])%list.

Lemma copy_each_eq (worktreePath : string) (files : list string) (w : World) :
  copy_each E worktreePath files w =
  (tt, log w (flat_map (file_events (cwd w) worktreePath) files)).
Proof.
  revert w. induction files as [|file rest IH]; intros w.
  - cbn. now rewrite log_nil.
  - cbn [copy_each flat_map]. cbv zeta. rewrite !bind_eq.
    destruct (copyWithCOW_events file (GoFilepath.Join [worktreePath; file]) w) as [Hw Hok].
    unfold file_events at 1. rewrite <- Hok.
    destruct (copyWithCOW E file (GoFilepath.Join [worktreePath; file]) w).1 as [e|];
      cbn [isNil]; rewrite ?bind_eq; cbn [emit ret fst snd]; rewrite Hw.
    + rewrite IH. cbn [log cwd trace refs]. unfold log. cbn [cwd refs trace].
      now rewrite <- !app_assoc.
    + rewrite IH, log_log, app_nil_r. reflexivity.
Qed.

Lemma made_dirs_cp (d src dest : string) (l : list (list string)) :
  made_dirs (map (cp_event E d src dest) l) = [] /\
  warnings (map (cp_event E d src dest) l) = [].
Proof. induction l as [|s l [IH1 IH2]]; [now split|]. now split. Qed.

Lemma file_events_dirs (d worktreePath file : string) :
  made_dirs (file_events d worktreePath file)
  = [GoFilepath.resolve d (GoFilepath.Dir (GoFilepath.Join [worktreePath; file]))] /\
  warnings (file_events d worktreePath file)
  = if copies d file (GoFilepath.Join [worktreePath; file]) then []
    else [unable_to_copy worktreePath file].
Proof.
  unfold file_events, copy_events, made_dirs, warnings. rewrite !flat_map_app.
  destruct (mkdirall_err E _) as [e|].
  - destruct (copies _ _ _); now split.
  - cbn [flat_map app].
    destruct (made_dirs_cp d file (GoFilepath.Join [worktreePath; file])
                (attempts (cp_ok E d file (GoFilepath.Join [worktreePath; file]))
                   copyStrategies)) as [H1 H2].
    unfold made_dirs, warnings in H1, H2. rewrite H1, H2.
    destruct (copies _ _ _); now split.
Qed.

Lemma loop_dirs (d worktreePath : string) (files : list string) :
  made_dirs (flat_map (file_events d worktreePath) files)
  = map (fun f => GoFilepath.resolve d (GoFilepath.Dir (GoFilepath.Join [worktreePath; f])))
        files /\
  warnings (flat_map (file_events d worktreePath) files)
  = map (unable_to_copy worktreePath)
        (List.filter (fun f => negb (copies d f (GoFilepath.Join [worktreePath; f]))) files).
Proof.
  induction files as [|f files [IH1 IH2]]; [now split|].
  cbn [flat_map map List.filter]. unfold made_dirs, warnings in *. rewrite !flat_map_app.
  destruct (file_events_dirs d worktreePath f) as [H1 H2].
  unfold made_dirs, warnings in H1, H2. rewrite H1, H2, IH1, IH2.
  split; [reflexivity|]. now destruct (copies _ _ _).
Qed.

End WithEnv.

(** X10.  [copyUntrackedFiles] fails only when the discovery of the
    files fails, and then copies nothing.  Otherwise it returns no error
    and goes through all the files found, in their order: for each one it
    makes the directory of [<worktree>/<file>] (resolved against the
    working directory, which it never leaves) and copies; a copy that fails
    gives the warning [Unable to copy file ...] and the loop goes on with
    the next file.  The references are not touched. *)
Theorem copyUntrackedFiles_tries_every_file (E : Env) (worktreePath : string) (w : World) :
  let pattern := (getUntrackedFilesPattern E w).1 in
  let w1 := (getUntrackedFilesPattern E w).2 in
  let w2 := (findFiles E pattern w1).2 in
  let run := copyUntrackedFiles E worktreePath w in
  let d := cwd w in
  match (findFiles E pattern w1).1 with
  | Err e => run = (Some e, w2)
  | Ok files =>
      run.1 = None /\
      exists evs,
        run.2 = log w2 evs /\
        made_dirs evs
        = map (fun f => GoFilepath.resolve d
                          (GoFilepath.Dir (GoFilepath.Join [worktreePath; f]))) files /\
        warnings evs
        = map (unable_to_copy worktreePath)
              (List.filter (fun f => negb (copies E d f (GoFilepath.Join [worktreePath; f]))) files)
  end.
Proof.
  cbv zeta. unfold copyUntrackedFiles. rewrite !bind_eq.
  destruct (Steady.steady_getUntrackedFilesPattern E w) as [Hc1 _].
  destruct (Steady.steady_findFiles E (getUntrackedFilesPattern E w).1
              (getUntrackedFilesPattern E w).2) as [Hc2 _].
  destruct (findFiles E _ _).1 as [files|e]; [|reflexivity].
  rewrite bind_eq, copy_each_eq. cbn [ret fst snd]. split; [reflexivity|].
  eexists. split; [reflexivity|]. rewrite Hc2, Hc1. apply loop_dirs.
Qed.

(** The entries of a tree with the paths [filepath.Walk] gives them, in
    the order of the walk. *)
Fixpoint listing (path : string) (n : node) : list (string * node) :=
  (path, n) ::
  match n with
  | Dir _ entries =>
      flat_map (fun m => listing (GoFilepath.Join [path; node_name m]) m) entries
  | _ => []
  end.

(** A tree in which every directory can be listed and every entry
    examined. *)
Fixpoint readable (n : node) : bool :=
  match n with
  | File _ => true
  | Dir _ entries => forallb readable entries
  | Unreadable _ _ | Broken _ _ => false
  end.

(** The entries [findFilesWithWalk] returns: not a directory, a name that
    matches, a path without the text [node_modules]. *)
Definition selected (re : GoRegexp.regex) (entry : string * node) : bool :=
  negb (GoStrings.Contains entry.1 "node_modules") &&
  negb (node_is_dir entry.2) &&
  GoRegexp.MatchString re (node_name entry.2).

Definition found (re : GoRegexp.regex) (path : string) (n : node) : list string :=
  map fst (List.filter (selected re) (listing path n)).

Lemma found_dir (re : GoRegexp.regex) (path name : string) (entries : list node) :
  found re path (Dir name entries)
  = flat_map (fun m => found re (GoFilepath.Join [path; node_name m]) m) entries.
Proof.
  unfold found. cbn [listing List.filter]. unfold selected at 1. cbn [fst snd node_is_dir negb].
  rewrite andb_false_r. cbn [andb].
  induction entries as [|m rest IH]; [reflexivity|].
  cbn [flat_map]. now rewrite List.filter_app, map_app, IH.
Qed.

Lemma walk_readable (re : GoRegexp.regex) (n : node) :
  readable n = true ->
  forall path files,
    walk (walkFunc re) path n files = (None, (files ++ found re path n)%list).
Proof.
  induction n as [name | name entries IH | name e | name e] using node_induction;
    intros Hr path files; try discriminate.
  - cbn [walk walkFunc]. unfold found, info_of. cbn [listing List.filter]. unfold selected.
    cbn [fst snd node_is_dir node_name IsDir Name negb].
    destruct (GoStrings.Contains path "node_modules"); cbn [negb andb map].
    + now rewrite app_nil_r.
    + destruct (GoRegexp.MatchString re name); cbn [map fst]; [reflexivity|].
      now rewrite app_nil_r.
  - rewrite found_dir. cbn [walk]. cbn [readable] in Hr.
    assert (Hfn : walkFunc re path (Found (info_of (Dir name entries))) files = (None, files)).
    { unfold walkFunc, info_of. cbn [IsDir node_is_dir negb andb].
      now destruct (GoStrings.Contains path "node_modules"). }
    rewrite Hfn. clear Hfn. revert files.
    induction entries as [|m rest IHrest]; intros files; [cbn; now rewrite app_nil_r|].
    inversion IH as [|? ? Hm Hrest]; subst. cbn [forallb] in Hr.
    apply andb_true_iff in Hr as [Hrm Hrrest].
    cbn [entries_loop flat_map]. rewrite (Hm Hrm).
    rewrite (IHrest Hrest Hrrest). now rewrite app_assoc.
Qed.

Lemma walk_unreadable (re : GoRegexp.regex) (n : node) :
  readable n = false ->
  forall path files,
    exists e files', walk (walkFunc re) path n files = (Some (Failure e), files').
Proof.
  induction n as [name | name entries IH | name e | name e] using node_induction;
    intros Hr path files; try discriminate.
  - cbn [walk]. cbn [readable] in Hr.
    assert (Hfn : walkFunc re path (Found (info_of (Dir name entries))) files = (None, files)).
    { unfold walkFunc, info_of. cbn [IsDir node_is_dir negb andb].
      now destruct (GoStrings.Contains path "node_modules"). }
    rewrite Hfn. clear Hfn. revert files.
    induction entries as [|m rest IHrest]; intros files; [discriminate|].
    inversion IH as [|? ? Hm Hrest]; subst. cbn [forallb] in Hr. cbn [entries_loop].
    destruct (readable m) eqn:Hrm.
    + rewrite (walk_readable re m Hrm). now apply IHrest.
    + destruct (Hm eq_refl (GoFilepath.Join [path; node_name m]) files) as [e [files' ->]].
      cbn [goes_on is_SkipDir andb]. now exists e, files'.
  - cbn [walk walkFunc]. now exists e, files.
  - cbn [walk walkFunc]. now exists e, files.
Qed.

(** X11.  On a tree that can be read everywhere [findFilesWithWalk]
    returns, in the order of the walk, the paths of exactly the entries that
    are not directories, whose name (not the path) matches the pattern and
    whose path does not have the text [node_modules] in it.  When some
    directory cannot be listed or some entry cannot be examined, anywhere in
    the tree, it returns an error and no file. *)
Theorem findFilesWithWalk_lists_matching_files (E : Env) (re : GoRegexp.regex) (w : World) :
  let n := tree E (GoFilepath.resolve (cwd w) ".") in
  (readable n = true -> (findFilesWithWalk E re w).1 = Ok (found re "." n)) /\
  (readable n = false -> exists e, (findFilesWithWalk E re w).1 = Err e).
Proof.
  cbv zeta. rewrite DiscoveryClaim.findFilesWithWalk_eq. unfold Walk. split; intros Hr.
  - now rewrite (walk_readable re _ Hr).
  - destruct (walk_unreadable re _ Hr "." []) as [e [files' ->]]. now exists e.
Qed.

(** A project with a directory called [.env], a package and a
    subdirectory. *)
Definition project : node :=
  Dir "." [ Dir ".env" [ File "notes" ]; File ".envrc";
            Dir "node_modules" [ File ".env" ];
            Dir "web" [ File ".env.local"; File "index.html" ] ].

Lemma findFilesWithWalk_lists_matching_files_witness :
  (findFilesWithWalk (LegacyFacts.silent project) DiscoveryClaim.default_re
     (Sample.at_root Sample.refs_main)).1 = Ok [".envrc"; "web/.env.local"].
Proof.
  exact (proj1 (findFilesWithWalk_lists_matching_files (LegacyFacts.silent project)
                  DiscoveryClaim.default_re (Sample.at_root Sample.refs_main)) eq_refl).
Defined.


End CopierProps.

(** ** What the command prints *)

Module OutputProps.
Import Sys Os WalkDir Files Git Main Effects Frames StringFacts.

(** Every event but a printed line ([fmt.Print] of the usage, of the
    error and of the success) and the log line about the dependency
    directory. *)
Definition quiet (e : event) : Prop :=
  match e with
  | Printed _ => False
  | Logged msg => GoStrings.HasPrefix msg "Error copying node_modules" = false
  | _ => True
  end.


Section WithEnv.
Variable E : Env.











End WithEnv.


End OutputProps.

(** ** Branches that share a directory *)

Module NameProps.
Import GoStrings StringFacts Main WorktreePath.

(** Two characters that the directory name does not tell apart. *)
Definition alike (c d : ascii) : Prop :=
  c = d \/ ((c = "/" \/ c = "_") /\ (d = "/" \/ d = "_"))%char.

Lemma subst_char_alike (c d : ascii) :
  subst_char "/" "_" c = subst_char "/" "_" d <-> alike c d.
Proof.
  unfold subst_char, alike.
  destruct (Ascii.eqb_spec c "/") as [->|Hc], (Ascii.eqb_spec d "/") as [->|Hd].
  - split; [now left | reflexivity].
  - split; [intros <-; right; split; [now left | now right] | intros [H | [_ [H | H]]]; congruence].
  - split; [intros ->; right; split; [now right | now left] | intros [H | [[H | H] _]]; congruence].
  - split; [now left | intros [H | [[H | H] [H' | H']]]; congruence].
Qed.

Lemma map_chars_alike (a b : string) :
  map_chars (subst_char "/" "_") a = map_chars (subst_char "/" "_") b <->
  Forall2 alike (String.list_ascii_of_string a) (String.list_ascii_of_string b).
Proof.
  revert b. induction a as [|c a IH]; intros [|d b]; cbn [map_chars String.list_ascii_of_string].
  - split; [constructor | reflexivity].
  - split; [discriminate | intros H; inversion H].
  - split; [discriminate | intros H; inversion H].
  - split.
    + intros H. injection H as Hc Hab. constructor; [now apply subst_char_alike | now apply IH].
    + intros H. inversion H as [|? ? ? ? Hc Hab]; subst.
      apply subst_char_alike in Hc. apply IH in Hab. now rewrite Hc, Hab.
Qed.

Lemma map_chars_fixed (a : string) :
  lacks "/" a = true -> map_chars (subst_char "/" "_") a = a.
Proof.
  induction a as [|c a IH]; [reflexivity|]. cbn [lacks map_chars]. intros H.
  apply andb_true_iff in H as [Hc Ha]. rewrite (IH Ha). unfold subst_char.
  now destruct (Ascii.eqb c "/").
Qed.

Lemma alike_without_underscore (a b : list ascii) :
  Forall2 alike a b ->
  Forall (fun c => c <> "_"%char) a -> Forall (fun c => c <> "_"%char) b -> a = b.
Proof.
  induction 1 as [|c d a b Hcd Hab IH]; intros Ha Hb; [reflexivity|].
  inversion Ha; subst. inversion Hb; subst. rewrite IH by assumption. f_equal.
  destruct Hcd as [H | [[H | H] [H' | H']]]; congruence.
Qed.

Lemma lacks_Forall (c : ascii) (s : string) :
  lacks c s = true -> Forall (fun d => d <> c) (String.list_ascii_of_string s).
Proof.
  induction s as [|d s IH]; [constructor|]. cbn [lacks String.list_ascii_of_string].
  intros H. apply andb_true_iff in H as [Hd Hs]. constructor; [|now apply IH].
  now destruct (Ascii.eqb_spec d c).
Qed.

Lemma list_ascii_inj (a b : string) :
  String.list_ascii_of_string a = String.list_ascii_of_string b -> a = b.
Proof.
  revert b. induction a as [|c a IH]; intros [|d b] H; try discriminate; [reflexivity|].
  cbn in H. injection H as -> H. now rewrite (IH b H).
Qed.

(** X14.  Two branch names get the same directory name exactly when they
    have the same length and, at every position, the same character or each
    of them one of [/] and [_]: [feature/x] and [feature_x] share a
    directory.  Names without [_] never collide; equal directory names give
    equal worktree paths; a name without [/] is its own directory name, so
    the replacement is idempotent. *)
Theorem dirname_of_collisions (a b : string) :
  (dirname_of a = dirname_of b <->
   Forall2 alike (String.list_ascii_of_string a) (String.list_ascii_of_string b)) /\
  (lacks "_" a = true -> lacks "_" b = true -> dirname_of a = dirname_of b -> a = b) /\
  (dirname_of a = dirname_of b -> worktreePath_of a = worktreePath_of b) /\
  (lacks "/" a = true -> dirname_of a = a) /\
  dirname_of (dirname_of a) = dirname_of a.
Proof.
  rewrite !dirname_of_map. split; [apply map_chars_alike|].
  split.
  { intros Ha Hb H. apply map_chars_alike in H. apply list_ascii_inj.
    apply (alike_without_underscore _ _ H); now apply lacks_Forall. }
  split.
  { intros H. unfold worktreePath_of. now rewrite !dirname_of_map, H. }
  split; [apply map_chars_fixed|].
  apply map_chars_fixed. rewrite <- dirname_of_map. apply dirname_of_lacks_slash.
Qed.

Lemma dirname_of_collisions_witness :
  dirname_of "feature/x" = dirname_of "feature_x" /\
  worktreePath_of "feature/x" = worktreePath_of "feature_x".
Proof.
  destruct (dirname_of_collisions "feature/x" "feature_x") as (H & _ & Hp & _).
  assert (Hd : dirname_of "feature/x" = dirname_of "feature_x").
  { apply H. cbn [String.list_ascii_of_string].
    repeat (constructor; [first [now left | right; split; [now left | now right]]|]).
    constructor. }
  split; [exact Hd | exact (Hp Hd)].
Defined.

End NameProps.

(** ** The single-file variant: branches and copies *)

Module LegacyProps.
Import Sys Os WalkDir Effects Frames CopyProps StringFacts SplitFacts TrimFacts GoStrings.

Definition local_argv : list string :=
  ["git"; "for-each-ref"; "--format=%(refname:lstrip=2)"; "refs/heads"].

Definition remote_argv : list string :=
  ["git"; "for-each-ref"; "--format=%(refname:lstrip=3)"; "refs/remotes/origin"].

(** What is left of a string that starts with a character that is not
    white space is, after [TrimRight], not empty, and starts and ends with
    such a character. *)
Lemma TrimRight_ends (s : string) : TrimRight s = "" \/ ends_solid (TrimRight s) = true.
Proof.
  induction s as [|c s IH]; [now left|]. cbn [TrimRight].
  destruct (TrimRight s) as [|d t] eqn:Ht.
  - destruct (asciiSpace c) eqn:Hc; [now left|]. right. cbn. now rewrite Hc.
  - right. destruct IH as [IH|IH]; [discriminate|]. exact IH.
Qed.

Lemma TrimRight_starts (s : string) :
  starts_solid s = true -> starts_solid (TrimRight s) = true.
Proof.
  destruct s as [|c s]; [discriminate|]. cbn [starts_solid TrimRight]. intros Hc.
  destruct (asciiSpace c) eqn:Hs; [discriminate|].
  destruct (TrimRight s); cbn [starts_solid]; now rewrite Hs.
Qed.

Lemma TrimLeft_starts (s : string) : TrimLeft s = "" \/ starts_solid (TrimLeft s) = true.
Proof.
  induction s as [|c s IH]; [now left|]. cbn [TrimLeft].
  destruct (asciiSpace c) eqn:Hc; [exact IH|]. right. cbn. now rewrite Hc.
Qed.

(** [TrimSpace] leaves nothing to trim. *)
Lemma TrimSpace_idempotent (s : string) : TrimSpace (TrimSpace s) = TrimSpace s.
Proof.
  unfold TrimSpace. destruct (TrimLeft_starts s) as [-> | Hs]; [reflexivity|].
  rewrite (TrimLeft_solid _ (TrimRight_starts _ Hs)).
  destruct (TrimRight_ends (TrimLeft s)) as [-> | He]; [reflexivity|].
  now apply TrimRight_solid.
Qed.

Lemma TrimSpace_line (l : string) : line_ok l = true -> TrimSpace l = l.
Proof.
  unfold line_ok. intros H. apply andb_true_iff in H as [H _].
  apply andb_true_iff in H as [Hs He]. unfold TrimSpace.
  now rewrite (TrimLeft_solid _ Hs), (TrimRight_solid _ He).
Qed.

Lemma existsb_eqb_In (b : string) (lines : list string) :
  existsb (fun l => String.eqb l b) lines = true <-> In b lines.
Proof.
  rewrite existsb_exists. split.
  - intros [l [Hin Heq]]. apply String.eqb_eq in Heq. now subst.
  - intros Hin. exists b. split; [exact Hin | apply String.eqb_refl].
Qed.

Lemma existsb_trimmed (b : string) (lines : list string) :
  Forall (fun l => line_ok l = true) lines ->
  existsb (fun branch => String.eqb (TrimSpace branch) b) lines
  = existsb (fun l => String.eqb l b) lines.
Proof.
  induction 1 as [|l lines Hl _ IH]; [reflexivity|]. cbn [existsb].
  now rewrite (TrimSpace_line _ Hl), IH.
Qed.

Lemma line_ok_lacks (lines : list string) :
  Forall (fun l => line_ok l = true) lines -> Forall (fun l => lacks "010" l = true) lines.
Proof.
  intros H. eapply Forall_impl; [exact H|]. cbn beta. intros l Hl. unfold line_ok in Hl.
  now apply andb_true_iff in Hl.
Qed.

(** [branchInList] on the output of [git for-each-ref]. *)
Lemma branchInList_unlines (b : string) (lines : list string) :
  Forall (fun l => line_ok l = true) lines ->
  Legacy.branchInList b (unlines lines) = existsb (fun l => String.eqb l b) lines || String.eqb "" b.
Proof.
  intros H. unfold Legacy.branchInList. cbv zeta. rewrite Split_char.
  rewrite <- (append_nil_r (unlines lines)).
  rewrite (AuthProps.fields_unlines _ _ (line_ok_lacks _ H)).
  rewrite existsb_app, (existsb_trimmed _ _ H). cbn. now rewrite orb_false_r.
Qed.

(** X15.  [branchInList] compares the name with every line of the
    output, trimmed, and with nothing else: a name is found in the printed
    list of branches exactly when it is one of them, as a whole ([feature]
    is not found because [feature/x] is listed); the empty name is always
    found, since the output ends with a newline; and a name with white space
    at either end is never found, whatever the output. *)
Theorem branchInList_whole_lines (branchName : string) :
  (forall lines,
     Forall (fun l => line_ok l = true) lines ->
     (Legacy.branchInList branchName (unlines lines) = true <->
      In branchName lines \/ branchName = "")) /\
  (forall output,
     Legacy.branchInList branchName output = true -> TrimSpace branchName = branchName).
Proof.
  split.
  - intros lines H. rewrite (branchInList_unlines _ _ H), orb_true_iff, existsb_eqb_In.
    split; (intros [Hin | He]; [now left | right]).
    + apply String.eqb_eq in He. now subst.
    + subst. reflexivity.
  - intros output. unfold Legacy.branchInList. cbv zeta. rewrite existsb_exists.
    intros [l [_ Heq]]. apply String.eqb_eq in Heq. subst. apply TrimSpace_idempotent.
Qed.

Lemma branchInList_whole_lines_witness :
  Legacy.branchInList "feature/x" (unlines ["main"; "feature/x"]) = true /\
  Legacy.branchInList "feature" (unlines ["main"; "feature/x"]) = false.
Proof.
  destruct (branchInList_whole_lines "feature/x") as [H1 _].
  destruct (branchInList_whole_lines "feature") as [H2 _].
  split.
  - apply (H1 ["main"; "feature/x"]); [now repeat constructor|]. left. right. now left.
  - destruct (Legacy.branchInList "feature" (unlines ["main"; "feature/x"])) eqn:Hb;
      [|reflexivity].
    apply (H2 ["main"; "feature/x"]) in Hb; [|now repeat constructor].
    destruct Hb as [[Hb | [Hb | []]] | Hb]; discriminate.
Defined.

(** X16.  [branchExists] asks git for the local branches first and for
    the branches of [origin] only when the name is not among the local
    ones.  With both lists printed line by line, a name (not empty) exists
    exactly when it is in one of them; when the first command fails, or the
    second when it is needed, the result is an error. *)
Theorem branchExists_local_then_remote (E : Env) (branchName : string) (w : World) :
  let d := cwd w in
  let run := Legacy.branchExists E branchName w in
  (forall e, output E d local_argv "" = Err e ->
     run = (Err ("checking local branches: " +:+ e), log w [Exec d local_argv false])) /\
  (forall locals,
     Forall (fun l => line_ok l = true) locals ->
     output E d local_argv "" = Ok (unlines locals) ->
     branchName <> "" ->
     (In branchName locals ->
      run = (Ok true, log w [Exec d local_argv true])) /\
     (~ In branchName locals ->
      (forall e, output E d remote_argv "" = Err e ->
         run = (Err ("checking remote branches: " +:+ e),
                log w [Exec d local_argv true; Exec d remote_argv false])) /\
      (forall remotes,
         Forall (fun l => line_ok l = true) remotes ->
         output E d remote_argv "" = Ok (unlines remotes) ->
         run.2 = log w [Exec d local_argv true; Exec d remote_argv true] /\
         exists found, run.1 = Ok found /\ (found = true <-> In branchName remotes)))).
Proof.
  cbv zeta. unfold Legacy.branchExists, local_argv, remote_argv.
  rewrite bind_eq, Output_eq. cbn [fst snd]. split.
  - intros e ->. reflexivity.
  - intros locals Hl -> Hne. rewrite (branchInList_unlines _ _ Hl).
    assert (He : String.eqb "" branchName = false).
    { apply String.eqb_neq. congruence. }
    rewrite He, orb_false_r. split.
    + intros Hin. apply existsb_eqb_In in Hin. now rewrite Hin.
    + intros Hin. destruct (existsb _ locals) eqn:Hex;
        [apply existsb_eqb_In in Hex; contradiction|].
      rewrite bind_eq, Output_eq. cbn [fst snd log cwd]. split.
      * intros e ->. cbn [ret]. now rewrite log_log.
      * intros remotes Hr ->. cbn [ret fst snd]. split; [now rewrite log_log|].
        eexists. split; [reflexivity|].
        rewrite (branchInList_unlines _ _ Hr), He, orb_false_r. apply existsb_eqb_In.
Qed.

(** The steps of [RegularCopyStrategy.Copy], each with the error the
    system answers. *)
Definition copy_plan (E : Env) (d src dst : string) : list ((bool -> event) * option string) :=
  let from := GoFilepath.resolve d src in
  let to := GoFilepath.resolve d dst in
  let dir := GoFilepath.resolve d (GoFilepath.Dir dst) in
  [ (FileOp "open" from, open_err E from);
    (MkdirAll dir, mkdirall_err E dir);
    (FileOp "create" to, create_err E to);
    (FileOp "copy" to, copy_err E from to) ].

Definition step_failed (s : (bool -> event) * option string) : bool := negb (isNil s.2).

Definition step_event (s : (bool -> event) * option string) : event := s.1 (isNil s.2).

Ltac not_all_ok :=
  let H := fresh in
  intros H;
  repeat match goal with
         | Hf : Forall _ (_ :: _) |- _ => inversion Hf; clear Hf; subst
         end;
  discriminate.

(** X17.  The regular copy of the variant opens the source, makes the
    directory of the destination, creates the destination and copies, in
    this order, and stops at the first step that fails: it succeeds exactly
    when the four steps do, nothing is made or created when the source
    cannot be opened, and the destination is not created when its directory
    cannot be made.  It adds the debug line only in verbose mode, and
    leaves the working directory and the references alone. *)
Theorem RegularCopy_stops_at_first_failure (E : Env) (c : Legacy.Config) (src dst : string)
    (w : World) :
  let plan := copy_plan E (cwd w) src dst in
  let run := Legacy.RegularCopy E c src dst w in
  (run.1 = None <-> Forall (fun s => s.2 = None) plan) /\
  run.2 = log w (map step_event (attempts step_failed plan) ++
                 if forallb (fun s => isNil s.2) plan && Legacy.verbose c
                 then [Logged "DEBUG copied file using regular copy"] else [])%list.
Proof.
  cbv zeta. unfold Legacy.RegularCopy, Legacy.file_op, Legacy.logger_Debug, copy_plan.
  repeat progress (rewrite ?bind_eq; cbn [get_cwd emit ret fst snd cwd log]).
  cbn [attempts step_failed forallb snd fst map].
  destruct (open_err E _) as [e1|]; cbn [isNil negb andb map step_event fst snd app ret].
  { split; [|reflexivity]. split; [discriminate | not_all_ok]. }
  rewrite bind_eq, MkdirAll_eq. cbn [fst snd log cwd trace refs].
  destruct (mkdirall_err E _) as [e2|]; cbn [isNil negb andb map step_event fst snd app ret].
  { split; [|unfold log; cbn; now rewrite <- app_assoc].
    split; [discriminate | not_all_ok]. }
  repeat progress (rewrite ?bind_eq; cbn [get_cwd emit ret fst snd cwd log trace refs]).
  destruct (create_err E _) as [e3|]; cbn [isNil negb andb map step_event fst snd app ret].
  { split; [|unfold log; cbn; now rewrite <- !app_assoc].
    split; [discriminate | not_all_ok]. }
  repeat progress (rewrite ?bind_eq; cbn [get_cwd emit ret fst snd cwd log trace refs]).
  destruct (copy_err E _ _) as [e4|]; cbn [isNil negb andb map step_event fst snd app ret].
  { split; [|unfold log; cbn; now rewrite <- !app_assoc].
    split; [discriminate | not_all_ok]. }
  rewrite bind_eq. destruct (Legacy.verbose c); cbn [emit ret fst snd log cwd trace refs].
  - split; [split; [intros _; now repeat constructor | reflexivity]|].
    unfold log; cbn; now rewrite <- !app_assoc.
  - split; [split; [intros _; now repeat constructor | reflexivity]|].
    unfold log; cbn; now rewrite <- !app_assoc.
Qed.

End LegacyProps.

(** ** The single-file variant: the walk and its pattern *)

Module LegacyWalkProps.
Import Sys Os WalkDir Effects StringFacts GoRegexp PatternFacts.

Section Loop.
Context {S : Type}.
Variable fn : @WalkFunc S.

(** The loop over the entries of a directory, in two parts. *)
Lemma entries_loop_app (path : string) (pre post : list node) (s : S) :
  entries_loop (walk fn) path (pre ++ post) s =
  match (entries_loop (walk fn) path pre s).1 with
  | None => entries_loop (walk fn) path post (entries_loop (walk fn) path pre s).2
  | Some _ => entries_loop (walk fn) path pre s
  end.
Proof.
  revert s. induction pre as [|m pre IH]; intros s; [reflexivity|].
  cbn [app entries_loop].
  destruct (walk fn (GoFilepath.Join [path; node_name m]) m s) as [[e|] s'].
  - destruct (goes_on m e); [apply IH | reflexivity].
  - apply IH.
Qed.

End Loop.

(** X18.  In the walk of the variant an entry that is not a directory
    and has the text [node_modules] in its path (a file [node_modules.md],
    say) ends the walk of the directory it is in: the function returns
    [SkipDir] for it, and [filepath.Walk] then skips the entries that come
    after it in that directory.  Whatever these are, they are neither
    visited nor copied, and they cannot make the walk fail; at the top of
    the tree the walk ends there without an error. *)
Theorem legacy_walk_stops_at_file (E : Env) (wm : Legacy.WorktreeManager)
    (re : GoRegexp.regex) (newWorktreePath path f : string) (pre rest : list node) (w : World) :
  let fn := Legacy.walkFunc E wm re newWorktreePath in
  GoStrings.Contains (GoFilepath.Join [path; f]) "node_modules" = true ->
  (entries_loop (walk fn) path pre w).1 = None ->
  entries_loop (walk fn) path (pre ++ File f :: rest) w
  = (Some SkipDir, (entries_loop (walk fn) path pre w).2) /\
  (path = "." ->
   forall name,
     Walk fn "." (Dir name (pre ++ File f :: rest)) w
     = (None, (entries_loop (walk fn) "." pre w).2)).
Proof.
  cbv zeta. intros Hf Hpre.
  assert (Hloop : entries_loop (walk (Legacy.walkFunc E wm re newWorktreePath)) path
                    (pre ++ File f :: rest) w
                  = (Some SkipDir,
                     (entries_loop (walk (Legacy.walkFunc E wm re newWorktreePath)) path pre w).2)).
  { rewrite entries_loop_app, Hpre. cbn [entries_loop node_name walk].
    unfold Legacy.walkFunc at 1. now rewrite Hf. }
  split; [exact Hloop|]. intros -> name. unfold Walk. cbn [walk].
  unfold Legacy.walkFunc at 1. unfold info_of. cbn [IsDir node_is_dir negb andb].
  change (GoStrings.Contains "." "node_modules") with false. cbv iota.
  now rewrite Hloop.
Qed.

(** A directory with notes about the dependency directory between the
    configuration files; what comes after the notes cannot even be read. *)
Definition with_notes : node :=
  Dir "." [ File ".envrc"; File "node_modules.md"; File "z.env";
            Unreadable "zz" "permission denied" ].

Lemma legacy_walk_stops_at_file_witness :
  LegacyFacts.commands
    (trace (Walk (Legacy.walkFunc (LegacyFacts.silent with_notes) DiscoveryClaim.legacy_manager
                    DiscoveryClaim.legacy_re "../feature_x")
              "." with_notes (Sample.at_root Sample.refs_main)).2)
  = [["/bin/cp"; "-R"; "--reflink=auto"; ".envrc"; "../feature_x/.envrc"]].
Proof.
  destruct (legacy_walk_stops_at_file (LegacyFacts.silent with_notes)
              DiscoveryClaim.legacy_manager DiscoveryClaim.legacy_re "../feature_x"
              "." "node_modules.md" [File ".envrc"]
              [File "z.env"; Unreadable "zz" "permission denied"]
              (Sample.at_root Sample.refs_main) eq_refl eq_refl) as [_ H].
  pose proof (H eq_refl ".") as Hw.
  change (Dir "." ([File ".envrc"] ++ [File "node_modules.md"; File "z.env";
                                       Unreadable "zz" "permission denied"])%list)
    with with_notes in Hw.
  rewrite Hw. vm_compute. reflexivity.
Defined.

(** One position of a pattern without repetition: a character, a
    character whatever its case, any character but the newline. *)
Inductive atom : Type :=
| Exact (c : ascii)
| Fold (c : ascii)
| Wild.

Definition fits_atom (a : atom) (d : ascii) : bool :=
  match a with
  | Exact c => Ascii.eqb c d
  | Fold c => Ascii.eqb (lower c) (lower d)
  | Wild => negb (Ascii.eqb d "010")
  end.

(** What is left of [s] after a beginning that has the form [f]. *)
Fixpoint strip_form (f : list atom) (s : string) : option string :=
  match f with
  | [] => Some s
  | a :: f' =>
      match s with
      | "" => None
      | String d t => if fits_atom a d then strip_form f' t else None
      end
  end.

Definition has_form (s : string) (f : list atom) : bool :=
  match strip_form f s with
  | Some "" => true
  | _ => false
  end.

Fixpoint forms (r : regex) : list (list atom) :=
  match r with
  | Eps => [[]]
  | Chr c => [[Exact c]]
  | ChrFold c => [[Fold c]]
  | Any => [[Wild]]
  | Bol | Eol => []
  | Seq r1 r2 => flat_map (fun a => map (app a) (forms r2)) (forms r1)
  | Alt r1 r2 => (forms r1 ++ forms r2)%list
  end.

Fixpoint no_anchor (r : regex) : bool :=
  match r with
  | Bol | Eol => false
  | Seq r1 r2 | Alt r1 r2 => no_anchor r1 && no_anchor r2
  | _ => true
  end.

Lemma strip_form_app (a b : list atom) (s : string) :
  strip_form (a ++ b)%list s
  = match strip_form a s with Some s' => strip_form b s' | None => None end.
Proof.
  revert s. induction a as [|o a IH]; intros s; cbn [app strip_form]; [reflexivity|].
  destruct s as [|d t]; [reflexivity|]. destruct (fits_atom o d); [apply IH | reflexivity].
Qed.

(** The matcher on a pattern without anchors tries its forms. *)
Lemma run_forms (g : regex) :
  no_anchor g = true ->
  forall (b : bool) (s : string) (k : bool -> string -> bool),
    run g b s k =
    existsb (fun f => match strip_form f s with
                      | Some s' => k (b && is_nil f) s'
                      | None => false
                      end) (forms g).
Proof.
  induction g as [| c | c | | | | g1 IH1 g2 IH2 | g1 IH1 g2 IH2]; intros Hg b s k;
    cbn [run forms existsb strip_form no_anchor] in *; try discriminate.
  - now rewrite andb_true_r, orb_false_r.
  - destruct s as [|d t]; [reflexivity|]. cbn [fits_atom is_nil].
    rewrite andb_false_r, orb_false_r. now destruct (Ascii.eqb c d).
  - destruct s as [|d t]; [reflexivity|]. cbn [fits_atom is_nil].
    rewrite andb_false_r, orb_false_r. now destruct (Ascii.eqb (lower c) (lower d)).
  - destruct s as [|d t]; [reflexivity|]. cbn [fits_atom is_nil].
    rewrite andb_false_r, orb_false_r. now destruct (Ascii.eqb d "010").
  - apply andb_true_iff in Hg as [H1 H2].
    rewrite (IH1 H1), existsb_flat_map. apply existsb_ext. intros a.
    rewrite existsb_map. destruct (strip_form a s) as [s'|] eqn:Ha.
    + rewrite (IH2 H2). apply existsb_ext. intros c.
      now rewrite strip_form_app, Ha, is_nil_app, andb_assoc.
    + symmetry. clear IH1 IH2. generalize (forms g2) as l.
      induction l as [|c l IHl]; [reflexivity|].
      cbn [existsb]. now rewrite strip_form_app, Ha, IHl.
  - apply andb_true_iff in Hg as [H1 H2].
    now rewrite (IH1 H1), (IH2 H2), existsb_app.
Qed.

(** The ends of a string, the string itself and the empty one included. *)
Fixpoint suffixes (s : string) : list string :=
  s :: match s with
       | "" => []
       | String _ t => suffixes t
       end.

Lemma suffixes_spec (s t : string) : In t (suffixes s) <-> exists pre, s = pre +:+ t.
Proof.
  induction s as [|c s IH].
  - cbn. split.
    + intros [<- | []]. now exists "".
    + intros [pre H]. left. destruct pre; [exact H | discriminate].
  - cbn [suffixes In]. rewrite IH. split.
    + intros [<- | [pre ->]]; [now exists "" | now exists (String c pre)].
    + intros [[|d pre] H]; [now left | right]. cbn in H. injection H as -> ->. now exists pre.
Qed.

(** A pattern [g$] finds the strings with an end that has a form of [g]. *)
Lemma search_suffix (g rest : regex) (s : string) :
  no_anchor g = true ->
  rest = Seq Eol Eps ->
  forall r,
    (forall b t, match_here r b t = run g b t (fun b' t' => run rest b' t' (fun _ _ => true))) ->
    MatchString r s = existsb (fun t => existsb (has_form t) (forms g)) (suffixes s).
Proof.
  intros Hg -> r Hr. unfold MatchString. generalize true as b.
  assert (Hh : forall b t, match_here r b t = existsb (has_form t) (forms g)).
  { intros b t. rewrite Hr, (run_forms g Hg). apply existsb_ext. intros f.
    unfold has_form. destruct (strip_form f t) as [[|c u]|]; reflexivity. }
  induction s as [|c s IH]; intros b; cbn [search suffixes existsb]; rewrite Hh.
  - reflexivity.
  - now rewrite IH.
Qed.

(** The ends of the names that the variant copies. *)
Definition endings : list string :=
  [".envrc"; ".env"; ".env.local"; ".tool-versions"; ".mise.toml"].

Definition lower_string (s : string) : string := map_chars lower s.

(** The form of an ending: the dot as it is, the other characters in
    any case. *)
Definition form_of (word : string) : list atom :=
  map (fun c => if Ascii.eqb c "." then Exact c else Fold c) (String.list_ascii_of_string word).

Lemma lower_dot (d : ascii) : Ascii.eqb "." d = Ascii.eqb (lower d) ".".
Proof. destruct d as [[] [] [] [] [] [] [] []]; reflexivity. Qed.

Lemma has_form_of (word t : string) :
  lower_string word = word ->
  has_form t (form_of word) = String.eqb (lower_string t) word.
Proof.
  unfold has_form, form_of, lower_string. revert t.
  induction word as [|c word IH]; intros t Hw.
  - now destruct t.
  - cbn [map_chars] in Hw. injection Hw as Hc Hword.
    cbn [String.list_ascii_of_string map strip_form].
    destruct t as [|d t]; [reflexivity|]. cbn [map_chars String.eqb].
    rewrite <- (IH t Hword).
    destruct (Ascii.eqb_spec c ".") as [->|Hne]; cbn [fits_atom].
    + rewrite lower_dot. now destruct (Ascii.eqb (lower d) ".").
    + rewrite Hc, Ascii.eqb_sym. now destruct (Ascii.eqb (lower d) c).
Qed.

(** The pattern of the variant without its final [$]. *)
Definition legacy_body : regex :=
  match DiscoveryClaim.legacy_re with
  | Seq dot (Seq names _) => Seq dot names
  | r => r
  end.

(** X19.  The pattern of the variant matches a file name exactly when
    the name ends, in whatever case of the letters, with [.envrc], [.env],
    [.env.local], [.tool-versions] or [.mise.toml].  So [prod.ENV] and
    [.mise.toml] are copied, while [mise.toml] (no dot in front) and
    [.env.example] are not. *)
Theorem config_files_by_ending (name : string) :
  GoRegexp.matches Legacy.config_files name = true <->
  exists pre ending, name = pre +:+ ending /\ In (lower_string ending) endings.
Proof.
  unfold GoRegexp.matches.
  destruct DiscoveryClaim.default_re_compiled as [_ ->].
  rewrite (search_suffix legacy_body (Seq Eol Eps) name eq_refl eq_refl
             DiscoveryClaim.legacy_re (fun b t => eq_refl)).
  change (forms legacy_body) with (map form_of endings). rewrite existsb_exists. split.
  - intros [t [Hin Hex]]. apply suffixes_spec in Hin as [pre ->].
    exists pre, t. split; [reflexivity|].
    rewrite existsb_map in Hex. apply existsb_exists in Hex as [word [Hw Hfit]].
    assert (Hlow : lower_string word = word)
      by (cbn in Hw; repeat destruct Hw as [<- | Hw]; try reflexivity; destruct Hw).
    rewrite (has_form_of _ _ Hlow) in Hfit. apply String.eqb_eq in Hfit. now rewrite Hfit.
  - intros [pre [ending [-> Hin]]]. exists ending.
    split; [apply suffixes_spec; now exists pre|].
    rewrite existsb_map. apply existsb_exists. exists (lower_string ending).
    split; [exact Hin|].
    assert (Hlow : lower_string (lower_string ending) = lower_string ending)
      by (cbn in Hin; repeat destruct Hin as [<- | Hin]; try reflexivity; destruct Hin).
    rewrite (has_form_of _ _ Hlow). apply String.eqb_refl.
Qed.

Lemma config_files_by_ending_witness :
  GoRegexp.matches Legacy.config_files "prod.ENV" = true /\
  GoRegexp.matches Legacy.config_files "mise.toml" = false.
Proof.
  split.
  - apply (proj2 (config_files_by_ending "prod.ENV")). exists "prod", ".ENV".
    split; [reflexivity|]. right. now left.
  - destruct (GoRegexp.matches Legacy.config_files "mise.toml") eqn:Hm; [|reflexivity].
    apply (proj1 (config_files_by_ending "mise.toml")) in Hm as [pre [ending [Hn Hin]]].
    exfalso.
    assert (Hs : In ending (suffixes "mise.toml")) by (apply suffixes_spec; now exists pre).
    cbn in Hs. cbn in Hin.
    repeat (destruct Hs as [<- | Hs];
            [repeat (destruct Hin as [Hin | Hin]; [discriminate|]); exact Hin|]).
    exact Hs.
Defined.

End LegacyWalkProps.

(** ** From the pull to the worktree *)

Module FlowProps.
Import Sys Os Repo WalkDir Files Git Main Effects Frames BranchClaim.

Definition any_event (e : event) : Prop := True.

Section WithEnv.
Variable E : Env.

Lemma logs_try_strategies strategies src dest :
  logs any_event (try_strategies E strategies src dest).
Proof. induction strategies; cbn [try_strategies]; unfold Run; logs_using fail. Qed.

Lemma logs_copy_each p files : logs any_event (copy_each E p files).
Proof.
  induction files; cbn [copy_each]; unfold copyWithCOW, MkdirAll_;
    logs_using ltac:(apply logs_try_strategies).
Qed.

Lemma logs_findFilesWithWalk re : logs any_event (findFilesWithWalk E re).
Proof.
  intros w. unfold findFilesWithWalk. rewrite !bind_eq. cbn [get_cwd emit fst snd].
  destruct (Walk _ _ _ _) as [[e|] files]; cbn [ret snd];
    (eexists; split; [reflexivity|]; now repeat constructor).
Qed.

(** The steps between the creation of the worktree and the change of
    directory only add to the trace. *)
Lemma logs_copy_steps p : logs any_event (Steady.copy_steps E p).
Proof.
  unfold Steady.copy_steps, copyNodeModulesAsync, copyUntrackedFiles, getUntrackedFilesPattern,
    findFiles, hasCommand, findFilesWithFd, setupDirenv, logger_Printf, warn,
    Stat_, Output, Run, LookPath_.
  logs_using ltac:(first [apply logs_copy_each | apply logs_findFilesWithWalk]).
Qed.

(** The references at the end of [CreateWorktree] are those
    [createWorktree] leaves. *)
Lemma CreateWorktree_final_refs (wm : WorktreeManager) (b : string) (w w1 : World) (repo : GitRepo) :
  initGitRepo E (wm_config wm) w = (Ok repo, w1) ->
  refs (CreateWorktree E wm b w).2
  = refs (createWorktree E repo b (worktreePath_of b) (pull_step E wm repo w1).2).2.
Proof.
  intros Hinit. rewrite PullClaim.CreateWorktree_eq, Hinit. cbn [fst snd].
  rewrite Steady.create_and_enter_eq. cbv zeta.
  destruct (createWorktree E repo b (worktreePath_of b) _).1 as [e|]; [reflexivity|].
  destruct (logs_copy_steps (worktreePath_of b)
              (createWorktree E repo b (worktreePath_of b) (pull_step E wm repo w1).2).2)
    as [evs [Hw _]].
  rewrite Chdir_eq. cbv zeta. rewrite Hw.
  destruct (chdir_err E _); reflexivity.
Qed.

End WithEnv.

(** X20.  [CreateWorktree] looks for the branch in the references as
    the pull left them: a branch that exists only on [origin], be it known
    before or fetched by this very pull, becomes a local branch at the commit
    of [refs/remotes/origin/<branch>], and this is all that happens to the
    references after the pull; the copies, direnv and the change of
    directory do not touch them.  Whatever the outcome, every reference that
    resolved after the pull resolves to the same commit at the end. *)
Theorem CreateWorktree_branch_after_pull (E : Env) (wm : WorktreeManager) (branchname : string)
    (w w1 : World) (repo : GitRepo) :
  initGitRepo E (wm_config wm) w = (Ok repo, w1) ->
  let pulled := refs (pull_step E wm repo w1).2 in
  let final := refs (CreateWorktree E wm branchname w).2 in
  let loc := NewBranchReferenceName branchname in
  let rem := NewRemoteReferenceName "origin" branchname in
  (forall h,
     Reference_ pulled loc = None -> Reference_ pulled rem = Some h ->
     set_reference_err E loc = None ->
     final = <[loc := HashReference h]> pulled /\ Reference_ final loc = Some h) /\
  (forall h, Reference_ pulled loc = Some h -> final = pulled) /\
  (forall name h, Reference_ pulled name = Some h -> Reference_ final name = Some h).
Proof.
  intros Hinit. cbv zeta. rewrite (CreateWorktree_final_refs E wm branchname w w1 repo Hinit).
  set (w2 := (pull_step E wm repo w1).2).
  split; [|split].
  - intros h Hl Hr Hs. rewrite (createWorktree_remote E _ _ _ _ _ Hl Hr), Hs.
    rewrite BranchProps.add_worktree_refs. cbn [with_branch refs].
    split; [reflexivity | apply Reference_SetReference].
  - intros h Hl. rewrite (createWorktree_local E _ _ _ _ _ Hl).
    apply BranchProps.add_worktree_refs.
  - intros name h Hn.
    destruct (BranchProps.createWorktree_refs E repo branchname (worktreePath_of branchname) w2)
      as [-> | [Hl [h0 ->]]]; [exact Hn|].
    now apply BranchProps.Reference_insert_fresh.
Qed.

(** The pull brings the branch [feature/x] of the remote. *)
Definition fetching : Env := {|
  goos := goos Sample.env;
  getwd_err := getwd_err Sample.env;
  chdir_err := chdir_err Sample.env;
  stat := stat Sample.env;
  mkdirall_err := mkdirall_err Sample.env;
  open_err := open_err Sample.env;
  create_err := create_err Sample.env;
  copy_err := copy_err Sample.env;
  tree := tree Sample.env;
  home_dir := home_dir Sample.env;
  look_path := look_path Sample.env;
  run_err := run_err Sample.env;
  output := output Sample.env;
  plain_open := plain_open Sample.env;
  remote_urls := remote_urls Sample.env;
  ssh_agent := ssh_agent Sample.env;
  ssh_key_loads := ssh_key_loads Sample.env;
  pull_context := fun rs _ =>
    (PullDone, <["refs/remotes/origin/feature/x" := HashReference Sample.remote_commit]> rs);
  set_reference_err := set_reference_err Sample.env
|}.

Lemma CreateWorktree_branch_after_pull_witness :
  refs (CreateWorktree fetching PullClaim.quiet "feature/x" (Sample.start Sample.refs_main)).2
    !! "refs/heads/feature/x" = Some (HashReference Sample.remote_commit).
Proof.
  destruct (CreateWorktree_branch_after_pull fetching PullClaim.quiet "feature/x"
              (Sample.start Sample.refs_main)
              (ErrorClaim.at_root_of (Sample.start Sample.refs_main) Sample.repo_root)
              BranchTheorem.sample_repo eq_refl) as [H _].
  destruct (H Sample.remote_commit) as [-> _]; vm_compute; reflexivity.
Defined.

End FlowProps.

(** ** Where the copies go *)

Module DestinationProps.
Import GoStrings GoFilepath StringFacts SplitFacts PathFacts Main WorktreePath.

Lemma name_ok_plain (l : list string) :
  Forall (fun e => name_ok e = true) l -> Forall (fun e => plain e = true) l.
Proof.
  intros H. eapply Forall_impl; [exact H|]. cbn beta. intros a Ha.
  unfold name_ok in Ha. now apply andb_true_iff in Ha.
Qed.

Lemma name_ok_lacks (l : list string) :
  Forall (fun e => name_ok e = true) l -> Forall (fun e => lacks "/" e = true) l.
Proof.
  intros H. eapply Forall_impl; [exact H|]. cbn beta. intros a Ha.
  unfold name_ok in Ha. now apply andb_true_iff in Ha.
Qed.

(** [Clean] on a rooted path that goes down, one step up and down again. *)
Lemma fold_clean_up (elems more : list string) :
  Forall (fun e => plain e = true) elems ->
  Forall (fun e => plain e = true) more ->
  fold_left (clean_step true) (elems ++ ".." :: more) [] = rev (removelast elems ++ more).
Proof.
  intros He Hm. rewrite fold_left_app, (fold_clean_plain _ _ _ He), app_nil_r.
  cbn [fold_left]. destruct elems as [|e elems] using rev_ind.
  - cbn [rev removelast app]. change (clean_step true [] "..") with (@nil string).
    now rewrite (fold_clean_plain _ _ _ Hm), app_nil_r.
  - clear IHelems. rewrite rev_app_distr, removelast_last. cbn [rev app].
    apply Forall_app in He as [_ He]. inversion He as [|? ? Hpe _]; subst.
    unfold clean_step at 2. cbn [String.eqb Ascii.eqb Bool.eqb].
    unfold plain in Hpe. destruct (String.eqb e ".."); [now rewrite !andb_false_r in Hpe|].
    now rewrite (fold_clean_plain _ _ _ Hm), rev_app_distr.
Qed.

Lemma fields_abs_path_app (elems : list string) (p : string) :
  Forall (fun e => name_ok e = true) elems ->
  exists skipped,
    fields "/" (abs_path elems +:+ String "/" p) = (skipped ++ elems ++ fields "/" p)%list /\
    forall rooted out, fold_left (clean_step rooted) skipped out = out.
Proof.
  intros He. rewrite fields_slash_app, (fields_abs_path _ He).
  destruct elems as [|e elems].
  - exists [""; ""]. split; [reflexivity|]. reflexivity.
  - exists [""]. split; [reflexivity|]. reflexivity.
Qed.

Lemma abs_path_rooted (elems : list string) (p : string) :
  HasPrefix (abs_path elems +:+ p) "/" = true.
Proof. unfold HasPrefix, abs_path. cbn [String.append String.prefix]. apply prefix_nil. Qed.

Lemma Join_not_rooted (x : string) (l : list string) :
  x <> "" -> lacks "/" x = true -> HasPrefix (GoStrings.Join (x :: l) "/") "/" = false.
Proof.
  intros Hx Hl. destruct x as [|c x]; [congruence|].
  assert (Hj : exists rest, GoStrings.Join (String c x :: l) "/" = String c rest).
  { destruct l; [now exists x | eexists; reflexivity]. }
  destruct Hj as [rest ->]. unfold HasPrefix. cbn [String.prefix].
  destruct (ascii_dec "/" c) as [<-|]; [cbn in Hl; discriminate | reflexivity].
Qed.

(** X21.  A file found at the relative path [f1/.../fk] under the
    repository root [/e1/.../en] is copied to the path [filepath.Join
    worktreePath file], which is the text [../<dirname>/f1/.../fk]: the file
    [/e1/.../en/f1/.../fk] goes to [/e1/.../e(n-1)/<dirname>/f1/.../fk], the
    same place inside the new worktree as it has in the repository. *)
Theorem copies_keep_their_place (branchname : string) (elems fs : list string) :
  plain (dirname_of branchname) = true ->
  Forall (fun e => name_ok e = true) elems ->
  Forall (fun e => name_ok e = true) fs ->
  fs <> [] ->
  let file := DiscoveryClaim.rel_path fs in
  let destPath := GoFilepath.Join [worktreePath_of branchname; file] in
  destPath = GoStrings.Join (".." :: dirname_of branchname :: fs) "/" /\
  resolve (abs_path elems) file = abs_path (elems ++ fs) /\
  resolve (abs_path elems) destPath
  = abs_path (removelast elems ++ dirname_of branchname :: fs).
Proof.
  intros Hd He Hf Hne. cbv zeta.
  set (d := dirname_of branchname) in *.
  assert (Hdl : lacks "/" d = true) by apply dirname_of_lacks_slash.
  pose proof (name_ok_plain _ He) as Hep. pose proof (name_ok_plain _ Hf) as Hfp.
  assert (Hff : fields "/" (DiscoveryClaim.rel_path fs) = fs).
  { rewrite (DiscoveryClaim.fields_rel_path _ Hf). now destruct fs. }
  destruct (DiscoveryClaim.rel_path_not_rooted fs Hf) as [Hfne Hfr].
  assert (Hdest : GoFilepath.Join [worktreePath_of branchname; DiscoveryClaim.rel_path fs]
                  = GoStrings.Join (".." :: d :: fs) "/").
  { rewrite (worktreePath_of_plain _ Hd). fold d.
    pose proof (fields_parent_of _ Hdl) as Hwp.
    assert (Hwr : forall p, HasPrefix (("../" +:+ d) +:+ p) "/" = false) by reflexivity.
    assert (Hwn : "../" +:+ d <> "") by discriminate.
    set (wp := "../" +:+ d) in *. cbn [GoFilepath.Join].
    destruct (String.eqb_spec wp ""); [congruence|].
    unfold GoStrings.Join at 1, Separator. cbn [String.concat].
    change (wp +:+ "/" +:+ DiscoveryClaim.rel_path fs)
      with (wp +:+ String "/" (DiscoveryClaim.rel_path fs)).
    rewrite Clean_fields, Hwr.
    cbv zeta. rewrite fields_slash_app, Hwp, Hff.
    cbn [app fold_left]. change (clean_step false [] "..") with [".."].
    rewrite (clean_step_plain _ _ _ Hd), (fold_clean_plain _ _ _ Hfp).
    rewrite rev_app_distr. cbn [rev app]. rewrite rev_involutive.
    destruct fs; [congruence | reflexivity]. }
  split; [exact Hdest|]. split.
  - unfold resolve, IsAbs. rewrite Hfr.
    assert (Ha : abs_path elems <> "") by discriminate.
    cbn [GoFilepath.Join]. destruct (String.eqb_spec (abs_path elems) ""); [congruence|].
    unfold GoStrings.Join at 1, Separator. cbn [String.concat].
    change (abs_path elems +:+ "/" +:+ DiscoveryClaim.rel_path fs)
      with (abs_path elems +:+ String "/" (DiscoveryClaim.rel_path fs)).
    rewrite Clean_fields, abs_path_rooted. cbv zeta.
    destruct (fields_abs_path_app elems (DiscoveryClaim.rel_path fs) He) as [sk [-> Hsk]].
    rewrite fold_left_app, Hsk, Hff.
    rewrite (fold_clean_plain _ (elems ++ fs) []) by now apply Forall_app.
    now rewrite app_nil_r, rev_involutive.
  - rewrite Hdest.
    assert (Hall : Forall (fun s => lacks "/" s = true) (".." :: d :: fs)).
    { constructor; [reflexivity|]. constructor; [exact Hdl | now apply name_ok_lacks]. }
    unfold resolve, IsAbs. rewrite Join_not_rooted by (try discriminate; reflexivity).
    cbn [GoFilepath.Join]. destruct (String.eqb_spec (abs_path elems) ""); [discriminate|].
    unfold GoStrings.Join at 1, Separator. cbn [String.concat].
    change (abs_path elems +:+ "/" +:+ GoStrings.Join (".." :: d :: fs) "/")
      with (abs_path elems +:+ String "/" (GoStrings.Join (".." :: d :: fs) "/")).
    rewrite Clean_fields, abs_path_rooted. cbv zeta.
    destruct (fields_abs_path_app elems (GoStrings.Join (".." :: d :: fs) "/") He)
      as [sk [-> Hsk]].
    rewrite (fields_Join "/" _ _ Hall), fold_left_app, Hsk.
    rewrite (fold_clean_up elems (d :: fs) Hep) by now constructor.
    now rewrite rev_involutive.
Qed.

Lemma copies_keep_their_place_witness :
  GoFilepath.Join [worktreePath_of "feature/x"; "web/.env.local"] = "../feature_x/web/.env.local" /\
  resolve "/home/dev/project" "web/.env.local" = "/home/dev/project/web/.env.local" /\
  resolve "/home/dev/project" (GoFilepath.Join [worktreePath_of "feature/x"; "web/.env.local"])
  = "/home/dev/feature_x/web/.env.local".
Proof.
  apply (copies_keep_their_place "feature/x" ["home"; "dev"; "project"] ["web"; ".env.local"]);
    [reflexivity | repeat constructor | repeat constructor | discriminate].
Defined.

End DestinationProps.

(** ** The single-file variant: when it fails *)

Module LegacyFlow.
Import Sys Os WalkDir Effects Frames WalkFacts StringFacts LegacyProps.

(** A computation whose result depends on the working directory only,
    and that only adds to the trace. *)
Definition answers {A} (m : M A) (f : string -> A) : Prop :=
  forall w, (m w).1 = f (cwd w) /\ exists evs, (m w).2 = log w evs.

Lemma answers_bind {A B} (m : M A) (f : string -> A) (k : A -> M B) (w : World) :
  answers m f -> bind m k w = k (f (cwd w)) (m w).2.
Proof. intros H. destruct (H w) as [Hr _]. now rewrite bind_eq, Hr. Qed.

Lemma answers_cwd {A} (m : M A) (f : string -> A) (w : World) :
  answers m f -> cwd (m w).2 = cwd w.
Proof. intros H. destruct (H w) as [_ [evs ->]]. reflexivity. Qed.

(** The function of a walk that copies nothing: it only tells where the
    walk of the variant stops. *)
Definition skips : @WalkFunc unit :=
  fun path a _ =>
    (match a with
     | NotListed _ err | NoInfo err => Some (Failure err)
     | Found _ => if GoStrings.Contains path "node_modules" then Some SkipDir else None
     end, tt).

Section TwoWalks.
Context {S1 S2 : Type}.
Variable fn1 : @WalkFunc S1.
Variable fn2 : @WalkFunc S2.
Hypothesis same_answer : forall path a s1 s2, (fn1 path a s1).1 = (fn2 path a s2).1.

(** Two walks whose functions give the same answers stop at the same
    place with the same error. *)
Lemma walk_same_error (n : node) :
  forall path s1 s2, (walk fn1 path n s1).1 = (walk fn2 path n s2).1.
Proof.
  induction n as [name | name entries IH | name e | name e] using node_induction;
    intros path s1 s2; cbn [walk]; try apply same_answer.
  pose proof (same_answer path (Found (info_of (Dir name entries))) s1 s2) as H.
  destruct (fn1 path (Found (info_of (Dir name entries))) s1) as [e1 t1].
  destruct (fn2 path (Found (info_of (Dir name entries))) s2) as [e2 t2].
  cbn [fst] in H. subst e2. destruct e1 as [e|]; [reflexivity|].
  clear s1 s2. revert t1 t2.
  induction entries as [|m rest IHrest]; intros t1 t2; [reflexivity|].
  inversion IH as [|? ? Hm Hrest]; subst. cbn [entries_loop].
  specialize (Hm (GoFilepath.Join [path; node_name m]) t1 t2).
  destruct (walk fn1 (GoFilepath.Join [path; node_name m]) m t1) as [e1 u1].
  destruct (walk fn2 (GoFilepath.Join [path; node_name m]) m t2) as [e2 u2].
  cbn [fst] in Hm. subst e2. destruct e1 as [e|]; [|now apply IHrest].
  destruct (goes_on m e); [now apply IHrest | reflexivity].
Qed.

Lemma Walk_same_error (root : string) (n : node) (s1 : S1) (s2 : S2) :
  (Walk fn1 root n s1).1 = (Walk fn2 root n s2).1.
Proof.
  unfold Walk. pose proof (walk_same_error n root s1 s2) as H.
  destruct (walk fn1 root n s1) as [e1 t1]. destruct (walk fn2 root n s2) as [e2 t2].
  cbn [fst] in H. subst e2. now destruct e1 as [[| |e]|].
Qed.

End TwoWalks.

Definition rev_parse : list string := ["git"; "rev-parse"; "--git-dir"].

(** The command that adds the worktree. *)
Definition add_command (known : bool) (path branchName : string) : list string :=
  if known then ["git"; "worktree"; "add"; path; branchName]
  else ["git"; "worktree"; "add"; "-b"; branchName; path].

Section WithEnv.
Variable E : Env.

(** What [branchExists] answers in the directory [d]. *)
Definition listed (d branchName : string) : result bool :=
  match output E d local_argv "" with
  | Err e => Err ("checking local branches: " +:+ e)
  | Ok localOutput =>
      if Legacy.branchInList branchName localOutput then Ok true
      else
        match output E d remote_argv "" with
        | Err e => Err ("checking remote branches: " +:+ e)
        | Ok remoteOutput => Ok (Legacy.branchInList branchName remoteOutput)
        end
  end.

Lemma answers_branchExists (b : string) : answers (Legacy.branchExists E b) (fun d => listed d b).
Proof.
  intros w. unfold Legacy.branchExists, listed, local_argv, remote_argv.
  rewrite bind_eq, Output_eq. cbn [fst snd].
  destruct (output E (cwd w) _ "") as [out|e]; [|split; [reflexivity | now eexists]].
  destruct (Legacy.branchInList b out); [split; [reflexivity | now eexists]|].
  rewrite bind_eq, Output_eq. cbn [fst snd log cwd].
  destruct (output E (cwd w) _ "") as [out'|e]; cbn [ret fst snd]; rewrite log_log;
    (split; [reflexivity | now eexists]).
Qed.

Lemma answers_Run (argv : list string) : answers (Run E argv) (fun d => run_err E d argv).
Proof. intros w. rewrite Run_eq. split; [reflexivity | now eexists]. Qed.

Lemma logs_RegularCopy c src dst : logs FlowProps.any_event (Legacy.RegularCopy E c src dst).
Proof.
  unfold Legacy.RegularCopy, Legacy.file_op, Legacy.logger_Debug, MkdirAll_.
  logs_using fail.
Qed.

Lemma logs_copyFile wm src dst : logs FlowProps.any_event (Legacy.copyFile E wm src dst).
Proof.
  unfold Legacy.copyFile, Legacy.Copy, Legacy.CoWCopy, Legacy.logger_Debug, Run.
  logs_using ltac:(apply logs_RegularCopy).
Qed.

(** The walk of the variant only adds to the trace, and it stops where
    the walk that copies nothing stops. *)
Lemma legacy_walk_answers wm re p (n : node) (w : World) :
  (Walk (Legacy.walkFunc E wm re p) "." n w).1 = (Walk skips "." n tt).1 /\
  exists evs, (Walk (Legacy.walkFunc E wm re p) "." n w).2 = log w evs.
Proof.
  split.
  - apply Walk_same_error. intros path a s1 s2. unfold Legacy.walkFunc, skips.
    destruct a as [info | info e | e]; try reflexivity.
    destruct (GoStrings.Contains path "node_modules"); [reflexivity|].
    destruct (_ && _); [|reflexivity].
    destruct (Legacy.copyFile E wm path _ s1) as [[e|] s']; reflexivity.
  - apply (Walk_keeps (Legacy.walkFunc E wm re p) (fun s => exists evs, s = log w evs)).
    + intros path a s [evs ->]. unfold Legacy.walkFunc.
      destruct a as [info | info e | e]; try now exists evs.
      destruct (GoStrings.Contains path "node_modules"); [now exists evs|].
      destruct (_ && _); [|now exists evs].
      destruct (logs_copyFile wm path (GoFilepath.Join [p; path]) (log w evs)) as [evs' [Hw _]].
      destruct (Legacy.copyFile E wm path _ (log w evs)) as [[e|] s']; cbn [snd] in *; subst s'.
      * eexists. unfold Legacy.logger_Warn. rewrite emit_eq. cbn [snd].
        now rewrite !log_log.
      * eexists. now rewrite log_log.
    + exists []. now rewrite log_nil.
Qed.

Lemma answers_copyWorktreeFiles wm p :
  answers (Legacy.copyWorktreeFiles E wm p)
    (fun d => (Walk skips "." (tree E (GoFilepath.resolve d ".")) tt).1).
Proof.
  intros w. unfold Legacy.copyWorktreeFiles.
  destruct DiscoveryClaim.default_re_compiled as [_ ->].
  assert (Hfirst : forall st,
            logs FlowProps.any_event
              (match st with
               | StatOk =>
                   do err <- Legacy.copyFile E wm "node_modules"
                               (GoFilepath.Join [p; "node_modules"]);
                   match err with
                   | Some e => Legacy.logger_Warn ("failed to copy node_modules: " +:+ e)
                   | None => ret tt
                   end
               | _ => ret tt
               end)).
  { intros st. unfold Legacy.logger_Warn. logs_using ltac:(apply logs_copyFile). }
  rewrite bind_eq, Stat_eq. cbn [fst snd]. rewrite bind_eq.
  destruct (Hfirst (stat E (GoFilepath.resolve (cwd w) "node_modules"))
              (log w [Stat (GoFilepath.resolve (cwd w) "node_modules")])) as [evs [-> _]].
  rewrite log_log.
  rewrite !bind_eq. cbn [get_cwd emit fst snd log cwd].
  match goal with
  | |- context [Walk ?f "." ?n ?s] =>
      destruct (legacy_walk_answers wm DiscoveryClaim.legacy_re p n s) as [-> [evs' ->]]
  end.
  split; [reflexivity|]. unfold log. cbn [cwd refs trace]. eexists.
  now rewrite <- !app_assoc.
Qed.

Lemma logs_setupDirenv p : logs FlowProps.any_event (Legacy.setupDirenv E p).
Proof. unfold Legacy.setupDirenv, Stat_, Run. logs_using fail. Qed.

Lemma logs_NewWorktreeManager c : logs FlowProps.any_event (Legacy.NewWorktreeManager E c).
Proof. unfold Legacy.NewWorktreeManager, Legacy.NewCopyStrategy, Output. logs_using fail. Qed.

(** The result of [CreateWorktree] in the directory [d]. *)
Definition outcome (d branchName : string) : option string :=
  let path := GoFilepath.Join [".."; GoStrings.ReplaceAll branchName "/" "_"] in
  match run_err E d rev_parse with
  | Some _ => Some "current directory is not a git repository"
  | None =>
      match listed d branchName with
      | Err e => Some ("checking branch existence: " +:+ e)
      | Ok known =>
          match run_err E d (add_command known path branchName) with
          | Some e => Some ("creating git worktree: " +:+ e)
          | None =>
              match (Walk skips "." (tree E (GoFilepath.resolve d ".")) tt).1 with
              | Some e => Some ("copying worktree files: " +:+ e)
              | None =>
                  match chdir_err E (GoFilepath.resolve d path) with
                  | Some e => Some ("changing to new worktree directory: " +:+ e)
                  | None => None
                  end
              end
          end
      end
  end.

Lemma CreateWorktree_outcome wm (b : string) (w : World) :
  (Legacy.CreateWorktree E wm b w).1 = outcome (cwd w) b.
Proof.
  unfold Legacy.CreateWorktree, Legacy.isGitDirectory, outcome, rev_parse. cbv zeta.
  rewrite !bind_eq, Run_eq. cbn [ret fst snd].
  destruct (run_err E (cwd w) ["git"; "rev-parse"; "--git-dir"]) as [e|];
    cbn [isNil negb]; [reflexivity|].
  assert (Hpull : forall err : option string,
            logs FlowProps.any_event
              (match err with
               | Some _ =>
                   Legacy.logger_Warn "unable to run git pull, there may not be an upstream"
               | None => ret tt
               end)).
  { intros err. unfold Legacy.logger_Warn. logs_using fail. }
  rewrite bind_eq, Run_eq. cbn [fst snd log cwd]. rewrite bind_eq.
  match goal with
  | |- context [(match ?err with Some _ => Legacy.logger_Warn _ | None => ret tt end ?w0).2] =>
      destruct (Hpull err w0) as [evs [-> _]]
  end.
  rewrite !log_log.
  match goal with
  | |- context [log w ?evs0] => set (w1 := log w evs0)
  end.
  assert (Hc1 : cwd w1 = cwd w) by reflexivity.
  rewrite (answers_bind (Legacy.branchExists E b) _ _ w1 (answers_branchExists b)).
  pose proof (answers_cwd _ _ w1 (answers_branchExists b)) as Hc2.
  set (w2 := (Legacy.branchExists E b w1).2) in *.
  rewrite Hc1. destruct (listed (cwd w) b) as [known|e]; [|reflexivity].
  fold (add_command known (GoFilepath.Join [".."; GoStrings.ReplaceAll b "/" "_"]) b).
  set (path := GoFilepath.Join [".."; GoStrings.ReplaceAll b "/" "_"]).
  rewrite bind_eq, Run_eq. cbn [fst snd]. rewrite Hc2, Hc1.
  destruct (run_err E (cwd w) (add_command known path b)) as [e|]; [reflexivity|].
  match goal with
  | |- context [log w2 ?evs0] => set (w3 := log w2 evs0)
  end.
  assert (Hc3 : cwd w3 = cwd w) by (unfold w3; cbn [log cwd]; congruence).
  rewrite (answers_bind (Legacy.copyWorktreeFiles E wm path) _ _ w3
             (answers_copyWorktreeFiles wm path)).
  pose proof (answers_cwd _ _ w3 (answers_copyWorktreeFiles wm path)) as Hc4.
  set (w4 := (Legacy.copyWorktreeFiles E wm path w3).2) in *.
  rewrite Hc3.
  destruct (Walk skips "." (tree E (GoFilepath.resolve (cwd w) ".")) tt).1 as [e|];
    [reflexivity|].
  assert (Hdir : forall err : option string,
            logs FlowProps.any_event
              (match err with
               | Some e => Legacy.logger_Warn ("failed to setup direnv: " +:+ e)
               | None => ret tt
               end)).
  { intros err. unfold Legacy.logger_Warn. logs_using fail. }
  rewrite bind_eq. destruct (logs_setupDirenv path w4) as [evs5 [-> _]].
  rewrite bind_eq.
  match goal with
  | |- context [(match ?err with Some _ => Legacy.logger_Warn _ | None => ret tt end ?w0).2] =>
      destruct (Hdir err w0) as [evs6 [-> _]]
  end.
  rewrite bind_eq, Chdir_eq. cbv zeta. cbn [log cwd]. rewrite Hc4, Hc3.
  destruct (chdir_err E (GoFilepath.resolve (cwd w) path)) as [e|]; reflexivity.
Qed.

End WithEnv.

(** X22.  The variant fails in five cases, looked at in this order, and
    succeeds otherwise: the directory is not inside a git repository ([git
    rev-parse] fails); a listing of the branches fails; [git worktree add]
    fails (it is run without [-b] for a branch that is listed locally or at
    [origin], with [-b] for a new one); the walk of the directory meets an
    entry it cannot read or examine; the change into the new worktree fails.
    What [git pull], the copies (of [node_modules] and of the files found)
    and [direnv] answer plays no part.  [main] exits with 1 in these cases
    and with 0 otherwise; asked for help it exits with 0 and does nothing
    else. *)
Theorem legacy_fails_in_five_cases (E : Env) (wm : Legacy.WorktreeManager)
    (branchName : string) (w : World) :
  (Legacy.CreateWorktree E wm branchName w).1 = outcome E (cwd w) branchName /\
  (forall c rest,
     String.eqb branchName "help" || String.eqb branchName "-h"
       || String.eqb branchName "--help" = false ->
     (Legacy.main E c (branchName :: rest) w).1
     = match outcome E (cwd w) branchName with
       | None => 0
       | Some _ => 1
       end) /\
  (forall c rest,
     In branchName ["help"; "-h"; "--help"] ->
     Legacy.main E c (branchName :: rest) w
     = (0, log w [Printed "Usage: worktree [-v] <branch name>"])).
Proof.
  split; [apply CreateWorktree_outcome|]. split.
  - intros c rest Hh. unfold Legacy.main. rewrite Hh, bind_eq.
    destruct (logs_NewWorktreeManager E c w) as [evs [Hw _]].
    rewrite bind_eq, CreateWorktree_outcome, Hw. cbn [log cwd].
    destruct (outcome E (cwd w) branchName); [|reflexivity].
    unfold Legacy.logger_Error. now rewrite bind_eq.
  - intros c rest [<- | [<- | [<- | []]]]; reflexivity.
Qed.

(** A repository in which [git pull] and every copy fail. *)
Definition failing_copies : Env :=
  Sample.env_with
    (fun _ argv =>
       match argv with
       | "git" :: "pull" :: _ => Some "exit status 1"
       | "/bin/cp" :: _ => Some "exit status 1"
       | _ => None
       end)
    (fun _ argv _ =>
       match argv with
       | "/bin/cp" :: _ => Ok "      --reflink[=WHEN]         control clone/CoW copies"
       | _ => Ok ""
       end)
    NoErrAlreadyUpToDate (Dir "." [File ".env"]) false.

Definition logged (evs : list event) : list string :=
  flat_map (fun e => match e with Logged msg => [msg] | _ => [] end) evs.

Lemma legacy_fails_in_five_cases_witness :
  let run := Legacy.main failing_copies LegacyFacts.plain_config ["feature/x"]
               (Sample.start Sample.refs_main) in
  run.1 = 0 /\
  logged (trace run.2)
  = ["WARN unable to run git pull, there may not be an upstream";
     "WARN failed to copy config file .env";
     "INFO created worktree successfully ../feature_x"].
Proof.
  cbv zeta.
  destruct (legacy_fails_in_five_cases failing_copies DiscoveryClaim.legacy_manager "feature/x"
              (Sample.start Sample.refs_main)) as (_ & H & _).
  rewrite (H LegacyFacts.plain_config [] eq_refl).
  split; vm_compute; reflexivity.
Defined.

End LegacyFlow.

(** ** The goroutine beside the main flow *)

Module BackgroundFacts.
Import Sys Os Files Main Effects CopyProps Background.

Section WithEnv.
Variable E : Env.
Variable worktreePath : string.

(** A call of the goroutine, in closed form: what it does depends on the
    working directory at that moment. *)
Lemma task_step_eq (s : stage) (w : World) :
  task_step E worktreePath s w =
  match s with
  | Announce => (MakeDir, log w [Warn "copying node_modules in the background"])
  | MakeDir =>
      let destDir :=
        GoFilepath.resolve (cwd w) (GoFilepath.Dir (destPath worktreePath)) in
      (match mkdirall_err E destDir with
       | Some e => Report e
       | None => TryCopy copyStrategies
       end,
       log w [MkdirAll destDir (isNil (mkdirall_err E destDir))])
  | TryCopy [] => (Report (copy_failed "node_modules" (destPath worktreePath)), w)
  | TryCopy (strategy :: rest) =>
      (if cp_ok E (cwd w) "node_modules" (destPath worktreePath) strategy
       then Finished else TryCopy rest,
       log w [cp_event E (cwd w) "node_modules" (destPath worktreePath) strategy])
  | Report e => (Finished, log w [Warn ("Failed to copy node_modules: " +:+ e)])
  | Finished => (Finished, w)
  end.
Proof.
  destruct s as [| |[|strategy rest]|e|]; cbn [task_step]; try reflexivity.
  - rewrite bind_eq, MkdirAll_eq. cbn [fst snd]. cbv zeta.
    now destruct (mkdirall_err E _).
  - cbv zeta. rewrite bind_eq, Run_eq. cbn [fst snd].
    unfold cp_event, cp_ok, cp_argv. now destruct (run_err E (cwd w) _).
Qed.

Lemma task_steps_S (n : nat) (s : stage) (w : World) :
  task_steps E worktreePath (S n) s w
  = task_steps E worktreePath n (task_step E worktreePath s w).1
      (task_step E worktreePath s w).2.
Proof. cbn [task_steps]. now rewrite bind_eq. Qed.

(** An event of the goroutine when it makes its call in the directory
    [d]: the directory it makes and the place where its [cp] is started are
    found from there. *)
Definition call_in (d : string) (e : event) : Prop :=
  match e with
  | Warn _ => True
  | MkdirAll dir _ => dir = GoFilepath.resolve d (GoFilepath.Dir (destPath worktreePath))
  | Exec d' argv _ =>
      d' = d /\
      exists strategy, argv = cp_argv "node_modules" (destPath worktreePath) strategy
  | _ => False
  end.

Lemma task_step_calls (s : stage) (w : World) :
  exists evs,
    (task_step E worktreePath s w).2 = log w evs /\ Forall (call_in (cwd w)) evs.
Proof.
  rewrite task_step_eq.
  destruct s as [| |[|strategy rest]|e|]; cbv zeta; cbn [snd].
  - eexists. split; [reflexivity|]. now repeat constructor.
  - eexists. split; [reflexivity|]. now repeat constructor.
  - exists []. split; [now rewrite log_nil | constructor].
  - eexists. split; [reflexivity|]. repeat constructor. now exists strategy.
  - eexists. split; [reflexivity|]. now repeat constructor.
  - exists []. split; [now rewrite log_nil | constructor].
Qed.

(** Left alone, the calls of the goroutine are those of the function it
    runs. *)
Lemma task_steps_alone (w : World) :
  task_steps E worktreePath 7 Announce w
  = (Finished, (copyNodeModulesTask E worktreePath w).2).
Proof.
  unfold copyNodeModulesTask. cbv zeta. fold (destPath worktreePath).
  rewrite !(bind_eq (emit _)), emit_eq. cbn [fst snd].
  rewrite bind_eq, copyWithCOW_eq. cbv zeta. cbn [log cwd].
  rewrite task_steps_S, task_step_eq. cbn [fst snd].
  rewrite task_steps_S, task_step_eq. cbv zeta. cbn [fst snd log cwd].
  destruct (mkdirall_err E _) as [e|]; cbn [fst snd isNil].
  { rewrite task_steps_S, task_step_eq. cbn [fst snd task_steps ret].
    rewrite emit_eq. cbn [snd]. now rewrite !log_log. }
  unfold copyStrategies. cbn [existsb attempts].
  rewrite task_steps_S, task_step_eq. cbn [fst snd log cwd].
  destruct (cp_ok E (cwd w) "node_modules" (destPath worktreePath) ["-Rc"]);
    cbn [orb map fst snd].
  { cbn [task_steps task_step]. rewrite !bind_eq. cbn [ret fst snd]. now rewrite !log_log. }
  rewrite task_steps_S, task_step_eq. cbn [fst snd log cwd].
  destruct (cp_ok E (cwd w) "node_modules" (destPath worktreePath) ["-R"; "--reflink"]);
    cbn [orb map fst snd].
  { cbn [task_steps task_step]. rewrite !bind_eq. cbn [ret fst snd]. now rewrite !log_log. }
  rewrite task_steps_S, task_step_eq. cbn [fst snd log cwd].
  destruct (cp_ok E (cwd w) "node_modules" (destPath worktreePath) ["-R"]);
    cbn [orb map fst snd].
  { cbn [task_steps task_step]. rewrite !bind_eq. cbn [ret fst snd]. now rewrite !log_log. }
  rewrite task_steps_S, task_step_eq. cbn [fst snd].
  rewrite task_steps_S, task_step_eq. cbn [fst snd task_steps ret].
  rewrite emit_eq. cbn [snd]. now rewrite !log_log.
Qed.

Lemma steady_task_step (s : stage) : steady (task_step E worktreePath s).
Proof.
  destruct s as [| |[|strategy rest]|e|]; cbn [task_step]; steady.
Qed.

Lemma happen_in_dir (e : event) (w : World) :
  in_dir (cwd w) e -> cwd (happen e w) = cwd w.
Proof. destruct e; cbn; try reflexivity. intros []. Qed.

(** The main flow alone. *)
Lemma together_main_alone (rest : list event) (s : stage) (w : World) :
  together E worktreePath (repeat true (length rest)) rest s w
  = fold_left (fun w e => happen e w) rest w.
Proof.
  revert w. induction rest as [|e rest IH]; intros w; [reflexivity|].
  cbn [length repeat together fold_left]. apply IH.
Qed.

(** As long as the main flow does not change the directory, whatever
    happens, happens in the directory of the process. *)
Lemma together_stays (schedule : list bool) (rest : list event) (s : stage) (w : World) :
  Forall (in_dir (cwd w)) rest ->
  cwd (together E worktreePath schedule rest s w) = cwd w /\
  exists evs,
    trace (together E worktreePath schedule rest s w) = (trace w ++ evs)%list /\
    Forall (in_dir (cwd w)) evs.
Proof.
  revert rest s w. induction schedule as [|[|] schedule IH]; intros rest s w Hrest.
  - split; [reflexivity|]. exists []. now rewrite app_nil_r.
  - destruct rest as [|e rest]; cbn [together]; [now apply IH|].
    inversion Hrest as [|? ? He Hr]; subst.
    pose proof (happen_in_dir e w He) as Hc.
    destruct (IH rest s (happen e w)) as [Hc' [evs [Ht Hf]]]; [now rewrite Hc|].
    split; [congruence|]. exists (e :: evs). split.
    + rewrite Ht. cbn [happen trace]. now rewrite <- app_assoc.
    + constructor; [exact He | now rewrite <- Hc].
  - cbn [together]. destruct (steady_task_step s w) as [Hc [ev1 [Ht1 Hf1]]].
    destruct (task_step E worktreePath s w) as [s' w']. cbn [snd] in *.
    destruct (IH rest s' w') as [Hc' [evs [Ht Hf]]]; [now rewrite Hc|].
    split; [congruence|]. exists (ev1 ++ evs)%list. split.
    + now rewrite Ht, Ht1, app_assoc.
    + apply Forall_app. split; [exact Hf1 | now rewrite <- Hc].
Qed.

(** With one change of directory left in the main flow: before it
    everything happens in the directory of the process, after it in the
    directory it led to. *)
Lemma together_around_chdir (schedule : list bool) (early late : list event)
    (target : string) (ok : bool) (s : stage) (w : World) :
  Forall (in_dir (cwd w)) early ->
  Forall (in_dir (if ok then target else cwd w)) late ->
  let all := together E worktreePath schedule (early ++ Chdir target ok :: late) s w in
  exists before,
    Forall (in_dir (cwd w)) before /\
    ((trace all = (trace w ++ before)%list /\ cwd all = cwd w) \/
     (exists after,
        trace all = (trace w ++ before ++ Chdir target ok :: after)%list /\
        Forall (in_dir (if ok then target else cwd w)) after /\
        cwd all = (if ok then target else cwd w))).
Proof.
  cbv zeta. revert early s w.
  induction schedule as [|[|] schedule IH]; intros early s w Hearly Hlate.
  - exists []. split; [constructor|]. left. cbn. now rewrite app_nil_r.
  - destruct early as [|e early]; cbn [app together].
    + exists []. split; [constructor|]. right.
      assert (Hc : cwd (happen (Chdir target ok) w) = (if ok then target else cwd w))
        by now destruct ok.
      destruct (together_stays schedule late s (happen (Chdir target ok) w))
        as [Hc' [evs [Ht Hf]]]; [now rewrite Hc|].
      exists evs. rewrite Hc in *. split; [|split; assumption].
      rewrite Ht. cbn [happen trace app]. now rewrite <- app_assoc.
    + inversion Hearly as [|? ? He Hr]; subst.
      pose proof (happen_in_dir e w He) as Hc.
      destruct (IH early s (happen e w)) as [before [Hb Hcases]];
        [now rewrite Hc | now rewrite Hc|].
      rewrite Hc in *. exists (e :: before). split; [now constructor|].
      destruct Hcases as [[Ht Hcw] | [after [Ht [Hf Hcw]]]].
      * left. split; [|exact Hcw]. rewrite Ht. cbn [happen trace]. now rewrite <- app_assoc.
      * right. exists after. split; [|split; assumption].
        rewrite Ht. cbn [happen trace]. now rewrite <- app_assoc.
  - cbn [together]. destruct (steady_task_step s w) as [Hc [ev1 [Ht1 Hf1]]].
    destruct (task_step E worktreePath s w) as [s' w']. cbn [snd] in *.
    destruct (IH early s' w') as [before [Hb Hcases]];
      [now rewrite Hc | now rewrite Hc|].
    rewrite Hc in *. exists (ev1 ++ before)%list. split; [now apply Forall_app|].
    destruct Hcases as [[Ht Hcw] | [after [Ht [Hf Hcw]]]].
    + left. split; [|exact Hcw]. now rewrite Ht, Ht1, app_assoc.
    + right. exists after. split; [|split; assumption].
      now rewrite Ht, Ht1, <- !app_assoc.
Qed.

End WithEnv.
End BackgroundFacts.

(** ** C10: the command works from the root of the repository *)

Module RootTheorem.
Import Sys Os Repo Git Main Effects Steady BranchClaim PullClaim ErrorClaim RootClaim
  Background BackgroundFacts.

(** The machine of the sample with a directory [node_modules] in the root
    of the repository and a [cp] that does not know [-c]. *)
Definition with_modules : Env := {|
  goos := goos Sample.env;
  getwd_err := getwd_err Sample.env;
  chdir_err := chdir_err Sample.env;
  stat := fun p =>
    if String.eqb p "/home/dev/project/node_modules" then StatOk else StatNotExist;
  mkdirall_err := mkdirall_err Sample.env;
  open_err := open_err Sample.env;
  create_err := create_err Sample.env;
  copy_err := copy_err Sample.env;
  tree := tree Sample.env;
  home_dir := home_dir Sample.env;
  look_path := look_path Sample.env;
  run_err := fun _ argv =>
    match argv with
    | "cp" :: "-Rc" :: _ => Some "exit status 1"
    | _ => None
    end;
  output := output Sample.env;
  plain_open := plain_open Sample.env;
  remote_urls := remote_urls Sample.env;
  ssh_agent := ssh_agent Sample.env;
  ssh_key_loads := ssh_key_loads Sample.env;
  pull_context := pull_context Sample.env;
  set_reference_err := set_reference_err Sample.env
|}.

(** The goroutine warns, makes the directory and tries [cp -Rc] while
    the main flow looks for the files to copy; its next [cp] comes after the
    main flow has entered the new worktree. *)
Definition late_copy : list bool :=
  [false; false; true; true; false; true; true; true; false; true].

Definition not_go (e : event) : Prop :=
  match e with Go _ _ => False | _ => True end.

(** Where the start of the goroutine lies in a list of events that ends
    with a change of directory and what the main flow does after it. *)
Lemma split_at_go (early late pre post : list event) (c g : event) :
  not_go c -> Forall not_go late -> ~ not_go g ->
  (early ++ c :: late = pre ++ g :: post)%list ->
  exists between, early = (pre ++ g :: between)%list /\ post = (between ++ c :: late)%list.
Proof.
  intros Hc Hlate Hg. revert pre. induction early as [|x early IH]; intros pre H.
  - exfalso. destruct pre as [|y pre]; cbn in H; inversion H; subst; [now apply Hg|].
    apply Forall_app in Hlate as [_ Hlate]. inversion Hlate; subst. now apply Hg.
  - destruct pre as [|y pre]; cbn in H; inversion H; subst.
    + now exists early.
    + destruct (IH pre) as [between [-> ->]]; [assumption|]. now exists between.
Qed.

Lemma replay_trace (rest : list event) (w : World) :
  trace (fold_left (fun w e => happen e w) rest w) = (trace w ++ rest)%list /\
  refs (fold_left (fun w e => happen e w) rest w) = refs w.
Proof.
  revert w. induction rest as [|e rest IH]; intros w; cbn [fold_left].
  - now rewrite app_nil_r.
  - destruct (IH (happen e w)) as [-> ->]. cbn [happen trace refs].
    now rewrite <- app_assoc.
Qed.

Lemma replay_stays (rest : list event) (w : World) :
  Forall (in_dir (cwd w)) rest ->
  cwd (fold_left (fun w e => happen e w) rest w) = cwd w.
Proof.
  revert w. induction rest as [|e rest IH]; intros w H; [reflexivity|].
  inversion H as [|? ? He Hr]; subst. cbn [fold_left].
  pose proof (happen_in_dir e w He) as Hc. rewrite IH; [exact Hc | now rewrite Hc].
Qed.

Lemma world_eq (a b : World) :
  cwd a = cwd b -> refs a = refs b -> trace a = trace b -> a = b.
Proof. destruct a, b. cbn. now intros -> -> ->. Qed.

(** C10, as stated, fails: in this run the goroutine started by
    [copyNodeModulesAsync] runs [cp -R --reflink node_modules
    ../feature_x/node_modules] in [/home/dev/feature_x], the new worktree,
    where [node_modules] is not the directory of the repository. *)
Lemma background_copy_leaves_root :
  let run := CreateWorktree with_modules quiet "feature/x" (Sample.start Sample.refs_main) in
  let spawned :=
    {| cwd := "/home/dev/project";
       refs := refs run.2;
       trace := [ Chdir "/home/dev/project" true; Pull None;
                  SetRef "refs/heads/feature/x" "a1b2c3d4" true;
                  Exec "/home/dev/project"
                    ["git"; "worktree"; "add"; "../feature_x"; "feature/x"] true;
                  Stat "/home/dev/project/node_modules";
                  Go "copyNodeModules" ["../feature_x"] ] |} in
  let rest :=
    [ Exec "/home/dev/project" ["git"; "config"; "--get-all"; "worktree.untrackedfiles"] false;
      LookPath "fd"; Sys.Walk "/home/dev/project";
      Stat "/home/dev/feature_x/.envrc"; Chdir "/home/dev/feature_x" true;
      Printed "created worktree ../feature_x" ] in
  run.1 = None /\
  trace run.2 = (trace spawned ++ rest)%list /\
  trace (together with_modules "../feature_x" late_copy rest Announce spawned)
  = (trace spawned ++
     [ Warn "copying node_modules in the background";
       MkdirAll "/home/dev/feature_x" true;
       Exec "/home/dev/project" ["git"; "config"; "--get-all"; "worktree.untrackedfiles"] false;
       LookPath "fd";
       Exec "/home/dev/project" ["cp"; "-Rc"; "node_modules"; "../feature_x/node_modules"]
         false;
       Sys.Walk "/home/dev/project";
       Stat "/home/dev/feature_x/.envrc";
       Chdir "/home/dev/feature_x" true;
       Exec "/home/dev/feature_x"
         ["cp"; "-R"; "--reflink"; "node_modules"; "../feature_x/node_modules"] true;
       Printed "created worktree ../feature_x" ])%list /\
  GoFilepath.resolve "/home/dev/feature_x" "node_modules" = "/home/dev/feature_x/node_modules" /\
  GoFilepath.resolve "/home/dev/project" "node_modules" = "/home/dev/project/node_modules".
Proof. cbv zeta. repeat split; vm_compute; reflexivity. Qed.

(** C10, amended.  When [initGitRepo] succeeds it has changed the working
    directory of the process to the root of the work tree (the root as
    go-git reports it; an absolute root does not depend on where the tool
    was started).  What the main flow of [CreateWorktree] does afterwards
    happens there: until the final change of directory no directory is
    changed, every command is started in the root and a walk starts from the
    root; the worktree path [../<dirname>] is resolved against the root,
    both for [git worktree add], which runs in the root, and for the final
    change of directory.  The goroutine that copies [node_modules] is
    started there as well, but it runs beside the main flow: in every
    schedule, what it does before the final change of directory happens in
    the root, and what it does after it happens in the directory the process
    is in by then, the new worktree when the change succeeded; a call it
    makes finds [node_modules] and the directory of the copy from the
    directory of that moment. *)
Theorem CreateWorktree_works_from_root (E : Env) (wm : WorktreeManager)
    (branchname : string) (w w1 : World) (repo : GitRepo) :
  initGitRepo E (wm_config wm) w = (Ok repo, w1) ->
  let here := cwd w1 in
  let path := worktreePath_of branchname in
  let target := GoFilepath.resolve here path in
  let run := CreateWorktree E wm branchname w in
  worktree_root (repository repo) = Some (root repo) /\
  here = GoFilepath.resolve (cwd w) (root repo) /\
  (GoFilepath.IsAbs (root repo) = true -> here = GoFilepath.Clean (root repo)) /\
  w1 = at_root_of w here /\
  target = GoFilepath.resolve here ("../" +:+ dirname_of branchname) /\
  (exists before,
     Forall (in_dir here) before /\
     ((run.1 <> None /\ cwd run.2 = here /\
       (trace run.2 = (trace w1 ++ before)%list \/
        trace run.2 = (trace w1 ++ before ++ [Chdir target false])%list)) \/
      (run.1 = None /\ cwd run.2 = target /\
       trace run.2 = (trace w1 ++ before ++
                        [Chdir target true; Printed ("created worktree " +:+ path)])%list /\
       In (Exec here (git_add path branchname) true) before))) /\
  (forall pre post,
     trace run.2 = (trace w1 ++ pre ++ Go "copyNodeModules" [path] :: post)%list ->
     let spawned :=
       {| cwd := here; refs := refs run.2;
          trace := (trace w1 ++ pre ++ [Go "copyNodeModules" [path]])%list |} in
     together E path (repeat true (length post)) post Announce spawned = run.2 /\
     forall schedule,
       let all := together E path schedule post Announce spawned in
       (exists before,
          Forall (in_dir here) before /\
          ((trace all = (trace spawned ++ before)%list /\ cwd all = here) \/
           (exists ok after,
              trace all = (trace spawned ++ before ++ Chdir target ok :: after)%list /\
              Forall (in_dir (if ok then target else here)) after /\
              cwd all = (if ok then target else here)))) /\
       (forall s, exists evs,
           (task_step E path s all).2 = log all evs /\
           Forall (call_in path (cwd all)) evs)).
Proof.
  intros Hinit.
  pose proof (CreateWorktree_from_root E wm branchname w w1 repo Hinit) as Hmain.
  cbv zeta in Hmain |- *.
  destruct Hmain as (H1 & H2 & H3 & H4 & H5 & Hrun).
  do 5 (split; [assumption|]). split; [exact Hrun|].
  set (here := cwd w1) in *. set (path := worktreePath_of branchname) in *.
  set (target := GoFilepath.resolve here path) in *.
  set (run := CreateWorktree E wm branchname w) in *.
  intros pre post Htrace.
  set (go := Go "copyNodeModules" [path]) in *.
  set (spawned := {| cwd := here; refs := refs run.2; trace := (trace w1 ++ pre ++ [go])%list |}).
  assert (Hsp : (trace w1 ++ pre ++ go :: post = trace spawned ++ post)%list).
  { cbn [spawned trace]. now rewrite <- !app_assoc. }
  assert (Hgo : ~ not_go go) by (intros H; exact H).
  destruct Hrun as [before [Hbefore Hcases]].
  assert (Hshape :
            (Forall (in_dir here) post /\ cwd run.2 = here) \/
            (exists early ok late,
                post = (early ++ Chdir target ok :: late)%list /\
                Forall (in_dir here) early /\
                Forall (in_dir (if ok then target else here)) late /\
                cwd run.2 = (if ok then target else here))).
  { destruct Hcases as [(_ & Hc & [Ht | Ht]) | (_ & Hc & Ht & _)];
      rewrite Ht in Htrace; apply app_inv_head in Htrace.
    - left. split; [|exact Hc]. rewrite Htrace in Hbefore.
      apply Forall_app in Hbefore as [_ Hb]. now inversion Hb as [|? ? _ Hrest].
    - right. destruct (split_at_go before [] pre post (Chdir target false) go)
        as [between [Hb ->]]; [exact I | constructor | exact Hgo | exact Htrace |].
      exists between, false, []. split; [reflexivity|].
      rewrite Hb in Hbefore. apply Forall_app in Hbefore as [_ Hb'].
      inversion Hb' as [|? ? _ Hrest]. now repeat split.
    - right.
      destruct (split_at_go before [Printed ("created worktree " +:+ path)] pre post
                  (Chdir target true) go)
        as [between [Hb ->]]; [exact I | now repeat constructor | exact Hgo | exact Htrace |].
      exists between, true, [Printed ("created worktree " +:+ path)]. split; [reflexivity|].
      rewrite Hb in Hbefore. apply Forall_app in Hbefore as [_ Hb'].
      inversion Hb' as [|? ? _ Hrest]. split; [assumption|].
      split; [now repeat constructor | exact Hc]. }
  split.
  - rewrite together_main_alone.
    destruct (replay_trace post spawned) as [Ht Hr].
    apply world_eq; [|exact Hr | now rewrite Ht, <- Hsp].
    destruct Hshape as [[Hpost ->] | (early & ok & late & -> & He & Hl & ->)].
    + now apply (replay_stays post spawned).
    + rewrite fold_left_app. cbn [fold_left].
      set (w2 := fold_left (fun w0 e => happen e w0) early spawned).
      assert (Hc2 : cwd w2 = here) by now apply (replay_stays early spawned).
      assert (Hc3 : cwd (happen (Chdir target ok) w2) = (if ok then target else here))
        by (destruct ok; [reflexivity | exact Hc2]).
      rewrite replay_stays; [exact Hc3 | now rewrite Hc3].
  - intros schedule. split; [|intros s; apply task_step_calls].
    destruct Hshape as [[Hpost _] | (early & ok & late & -> & He & Hl & _)].
    + destruct (together_stays E path schedule post Announce spawned Hpost)
        as [Hc [evs [Ht Hf]]].
      exists evs. split; [exact Hf|]. left. now split.
    + destruct (together_around_chdir E path schedule early late target ok Announce spawned
                  He Hl) as [before' [Hb' Hcases']].
      exists before'. split; [exact Hb'|].
      destruct Hcases' as [[Ht Hc] | [after [Ht [Hf Hc]]]]; [left; now split|].
      right. exists ok, after. now repeat split.
Qed.

(** Started in [/home/dev/project/src], the tool leaves the process in
    [/home/dev/feature_x], beside the root [/home/dev/project]. *)
Lemma CreateWorktree_works_from_root_witness :
  cwd (CreateWorktree Sample.env quiet "feature/x" (Sample.start Sample.refs_main)).2
  = "/home/dev/feature_x".
Proof.
  destruct (CreateWorktree_works_from_root Sample.env quiet "feature/x"
              (Sample.start Sample.refs_main)
              (at_root_of (Sample.start Sample.refs_main) Sample.repo_root)
              BranchTheorem.sample_repo eq_refl)
    as (_ & _ & _ & _ & _ & (before & _ & [(Hne & _) | (_ & -> & _)]) & _).
  - exfalso. apply Hne. vm_compute. reflexivity.
  - vm_compute. reflexivity.
Defined.

End RootTheorem.

(** ** C3: the directory of the worktree *)

Module Placement.
Import Sys Os Repo Git Main Effects Frames GoStrings GoFilepath StringFacts PathFacts
  WorktreePath LegacyFlow.

(** Where the variant has git make the worktree, and where it ends. *)
Lemma legacy_places (E : Env) (wm : Legacy.WorktreeManager) (b : string) (w : World) :
  let run := Legacy.CreateWorktree E wm b w in
  let path := worktreePath_of b in
  run.1 = None ->
  cwd run.2 = resolve (cwd w) path /\
  exists known evs,
    listed E (cwd w) b = Ok known /\
    trace run.2 = (trace w ++ evs)%list /\
    In (Exec (cwd w) (add_command known path b) true) evs.
Proof.
  cbv zeta. unfold worktreePath_of, dirname_of.
  set (path := Join [".."; ReplaceAll b "/" "_"]).
  unfold Legacy.CreateWorktree, Legacy.isGitDirectory. cbv zeta. fold path.
  rewrite !bind_eq, Run_eq. cbn [ret fst snd].
  destruct (run_err E (cwd w) ["git"; "rev-parse"; "--git-dir"]) as [e|];
    cbn [isNil negb]; [discriminate|].
  assert (Hwarn : forall (err : option string) (msg : string -> string),
            logs FlowProps.any_event
              (match err with
               | Some e => Legacy.logger_Warn (msg e)
               | None => ret tt
               end)).
  { intros err msg. unfold Legacy.logger_Warn. logs_using fail. }
  rewrite bind_eq, Run_eq. cbn [fst snd log cwd]. rewrite bind_eq.
  match goal with
  | |- context [(match ?err with Some _ => Legacy.logger_Warn ?m | None => ret tt end ?w0).2] =>
      destruct (Hwarn err (fun _ => m) w0) as [evs [-> _]]
  end.
  rewrite !log_log.
  match goal with
  | |- context [log w ?evs0] => set (w1 := log w evs0)
  end.
  rewrite (answers_bind (Legacy.branchExists E b) _ _ w1 (answers_branchExists E b)).
  destruct (answers_branchExists E b w1) as [_ [evs2 ->]].
  change (cwd w1) with (cwd w).
  destruct (listed E (cwd w) b) as [known|e]; [|discriminate].
  fold (add_command known path b).
  rewrite bind_eq, Run_eq. cbn [fst snd log cwd]. change (cwd w1) with (cwd w).
  destruct (run_err E (cwd w) (add_command known path b)) as [e|]; [discriminate|].
  cbn [isNil]. rewrite log_log.
  match goal with
  | |- context [log w1 ?evs0] => set (w3 := log w1 evs0)
  end.
  assert (Hw3 : exists evs3,
             w3 = log w evs3 /\ In (Exec (cwd w) (add_command known path b) true) evs3).
  { unfold w3, w1. rewrite log_log. eexists. split; [reflexivity|].
    apply in_or_app. right. apply in_or_app. right. now left. }
  assert (Hc3 : cwd w3 = cwd w) by reflexivity.
  clearbody w3. clear w1. destruct Hw3 as [evs3 [Hw3 Hin]].
  rewrite (answers_bind (Legacy.copyWorktreeFiles E wm path) _ _ w3
             (answers_copyWorktreeFiles E wm path)).
  destruct (answers_copyWorktreeFiles E wm path w3) as [_ [evs4 ->]].
  destruct (WalkDir.Walk skips "." (tree E (GoFilepath.resolve (cwd w3) ".")) tt).1 as [e|];
    [discriminate|].
  rewrite bind_eq. destruct (logs_setupDirenv E path (log w3 evs4)) as [evs5 [-> _]].
  rewrite bind_eq.
  match goal with
  | |- context [(match ?err with Some e => Legacy.logger_Warn (@?m e) | None => ret tt end ?w0).2] =>
      destruct (Hwarn err m w0) as [evs6 [-> _]]
  end.
  rewrite !log_log, bind_eq, Chdir_eq. cbv zeta. cbn [log cwd]. rewrite Hc3.
  destruct (chdir_err E (GoFilepath.resolve (cwd w) path)) as [e|]; [discriminate|].
  intros _. cbn [fst snd]. unfold Legacy.logger_Info. rewrite bind_eq, emit_eq.
  cbn [ret fst snd log cwd trace]. split; [reflexivity|].
  exists known. eexists. split; [reflexivity|].
  split; [rewrite Hw3; cbn [log trace]; rewrite <- !app_assoc; reflexivity|].
  apply in_or_app. now left.
Qed.


(** An absolute path made of proper names is clean. *)
Lemma Clean_abs_path (elems : list string) :
  Forall (fun e => name_ok e = true) elems -> Clean (abs_path elems) = abs_path elems.
Proof.
  intros He. rewrite Clean_fields, (fields_abs_path _ He).
  change (HasPrefix (abs_path elems) "/") with (String.prefix "" (GoStrings.Join elems "/")).
  rewrite prefix_nil. cbv zeta. unfold abs_path. f_equal. f_equal.
  cbn [fold_left]. change (clean_step true [] "") with (@nil string).
  destruct elems as [|e elems]; [reflexivity|].
  rewrite fold_clean_plain, app_nil_r, rev_involutive; [reflexivity|].
  eapply Forall_impl; [exact He|]. cbn beta. intros a Ha.
  unfold name_ok in Ha. now apply andb_true_iff in Ha.
Qed.

(** C3, as stated, fails on the single-file variant: started in the
    directory [src] of the repository [/home/dev/project] it has git make
    the worktree [../feature_x] from there and ends in
    [/home/dev/project/feature_x], inside the repository, not beside its
    root. *)
Lemma variant_places_beside_start :
  let E := LegacyFacts.silent (Sys.Dir "." []) in
  let w := Sample.start Sample.refs_main in
  let run := Legacy.CreateWorktree E DiscoveryClaim.legacy_manager "feature/x" w in
  cwd w = "/home/dev/project/src" /\
  plain_open E (cwd w) = Some {| worktree_root := Some "/home/dev/project" |} /\
  run.1 = None /\
  LegacyFacts.commands (trace run.2)
  = [ ["git"; "rev-parse"; "--git-dir"]; ["git"; "pull"];
      ["git"; "for-each-ref"; "--format=%(refname:lstrip=2)"; "refs/heads"];
      ["git"; "for-each-ref"; "--format=%(refname:lstrip=3)"; "refs/remotes/origin"];
      ["git"; "worktree"; "add"; "-b"; "feature/x"; "../feature_x"] ] /\
  Forall (fun e => match e with Exec d _ _ => d = "/home/dev/project/src" | _ => True end)
    (trace run.2) /\
  cwd run.2 = "/home/dev/project/feature_x" /\
  resolve "/home/dev/project" "../feature_x" = "/home/dev/feature_x".
Proof.
  cbv zeta. repeat split; try (vm_compute; reflexivity).
  vm_compute. repeat constructor.
Qed.

(** C3, amended.  For every branch name the directory name is the branch
    name with every [/] replaced by [_]: the same length, [_] where the
    branch name has [/], the character of the branch name elsewhere, so no
    [/] is left.  The path of the worktree is [filepath.Join ".." dirname];
    from every working directory it names the same directory as
    [../<dirname>], and it is that very text unless the name is empty, [.]
    or [..].  [CreateWorktree] of main.go hands this path to [git worktree
    add] in the root of the repository, where every command it starts runs,
    and ends there: for a root [/e1/.../en] the worktree is
    [/e1/.../e(n-1)/<dirname>], beside the root.  The single-file variant
    hands the same path to [git worktree add] in the directory it was
    started in and ends in [../<dirname>] as seen from there. *)
Theorem worktree_directory_name (branchname : string) :
  let dirname := dirname_of branchname in
  let path := worktreePath_of branchname in
  dirname = map_chars (subst_char "/" "_") branchname /\
  String.length dirname = String.length branchname /\
  (forall i, String.get i dirname
             = option_map (subst_char "/" "_") (String.get i branchname)) /\
  lacks "/" dirname = true /\
  (forall cwd, resolve cwd path = resolve cwd ("../" +:+ dirname)) /\
  (plain dirname = true -> path = "../" +:+ dirname) /\
  (plain dirname = true ->
   forall elems, Forall (fun e => name_ok e = true) elems ->
     resolve (abs_path elems) path = abs_path (removelast elems ++ [dirname])) /\
  (forall E wm w w1 repo,
     initGitRepo E (wm_config wm) w = (Ok repo, w1) ->
     let here := resolve (cwd w) (root repo) in
     let run := CreateWorktree E wm branchname w in
     cwd w1 = here /\
     (exists evs,
        trace run.2 = (trace w1 ++ evs)%list /\
        (forall d argv ok, In (Exec d argv ok) evs -> d = here) /\
        (run.1 = None ->
           In (Exec here ["git"; "worktree"; "add"; path; branchname] true) evs)) /\
     (run.1 = None -> cwd run.2 = resolve here path) /\
     (run.1 = None -> plain dirname = true ->
      forall elems, Forall (fun e => name_ok e = true) elems -> root repo = abs_path elems ->
        here = abs_path elems /\
        cwd run.2 = abs_path (removelast elems ++ [dirname]))) /\
  (forall E wm w,
     let run := Legacy.CreateWorktree E wm branchname w in
     run.1 = None ->
     (exists evs,
        trace run.2 = (trace w ++ evs)%list /\
        (In (Exec (cwd w) ["git"; "worktree"; "add"; path; branchname] true) evs \/
         In (Exec (cwd w) ["git"; "worktree"; "add"; "-b"; branchname; path] true) evs)) /\
     cwd run.2 = resolve (cwd w) path).
Proof.
  pose proof (PathTheorem.directory_name_and_path branchname) as Hname.
  cbv zeta in Hname |- *. destruct Hname as (N1 & N2 & N3 & N4 & N5 & N6 & N7).
  do 7 (split; [assumption|]). split.
  - intros E wm w w1 repo Hinit.
    pose proof (RootClaim.CreateWorktree_from_root E wm branchname w w1 repo Hinit) as Hroot.
    cbv zeta in Hroot. destruct Hroot as (_ & Hhere & _ & _ & _ & before & Hbefore & Hcases).
    rewrite <- Hhere. split; [reflexivity|].
    assert (Hexec : forall d argv ok, In (Exec d argv ok) before -> d = cwd w1).
    { intros d argv ok Hin. rewrite List.Forall_forall in Hbefore. exact (Hbefore _ Hin). }
    assert (Hcwd : (CreateWorktree E wm branchname w).1 = None ->
              cwd (CreateWorktree E wm branchname w).2
              = resolve (cwd w1) (worktreePath_of branchname)).
    { intros Hok. now destruct Hcases as [(Hne & _) | (_ & Hc & _)]; [congruence|]. }
    split; [|split; [exact Hcwd|]].
    + destruct Hcases as [(Hne & _ & [Ht | Ht]) | (_ & _ & Ht & Hgit)].
      * exists before. split; [exact Ht|]. split; [exact Hexec | congruence].
      * exists (before ++ [Chdir (resolve (cwd w1) (worktreePath_of branchname)) false])%list.
        split; [exact Ht|]. split; [|congruence].
        intros d argv ok Hin. apply in_app_or in Hin as [Hin | Hin];
          [now apply (Hexec d argv ok)|]. destruct Hin as [Hin | []]. discriminate.
      * exists (before ++ [Chdir (resolve (cwd w1) (worktreePath_of branchname)) true;
                           Printed ("created worktree " +:+ worktreePath_of branchname)])%list.
        split; [exact Ht|]. split; [|intros _; apply in_or_app; now left].
        intros d argv ok Hin. apply in_app_or in Hin as [Hin | Hin];
          [now apply (Hexec d argv ok)|]. destruct Hin as [Hin | [Hin | []]]; discriminate.
    + intros Hok Hplain elems He Hr.
      assert (Hh : cwd w1 = abs_path elems).
      { rewrite Hhere, Hr. unfold resolve, IsAbs.
        change (HasPrefix (abs_path elems) "/")
          with (String.prefix "" (GoStrings.Join elems "/")).
        rewrite prefix_nil. now apply Clean_abs_path. }
      split; [exact Hh|]. rewrite (Hcwd Hok), Hh. now apply N7.
  - intros E wm w Hok.
    destruct (legacy_places E wm branchname w Hok) as [Hc [known [evs [_ [Ht Hin]]]]].
    split; [|exact Hc]. exists evs. split; [exact Ht|].
    destruct known; [now left | now right].
Qed.

(** Started in [/home/dev/project/src], the tool has git make the
    worktree [../feature_x] in the root [/home/dev/project] and ends in
    [/home/dev/feature_x]. *)
Lemma worktree_directory_name_witness :
  let run := CreateWorktree Sample.env PullClaim.quiet "feature/x"
               (Sample.start Sample.refs_main) in
  In (Exec "/home/dev/project" ["git"; "worktree"; "add"; "../feature_x"; "feature/x"] true)
    (trace run.2) /\
  cwd run.2 = "/home/dev/feature_x".
Proof.
  cbv zeta.
  destruct (worktree_directory_name "feature/x") as (_ & _ & _ & _ & _ & _ & _ & H & _).
  destruct (H Sample.env PullClaim.quiet (Sample.start Sample.refs_main)
              (ErrorClaim.at_root_of (Sample.start Sample.refs_main) Sample.repo_root)
              BranchTheorem.sample_repo eq_refl) as (_ & (evs & Ht & _ & Hrun) & _ & Hsib).
  split.
  - rewrite Ht. apply in_or_app. right. exact (Hrun eq_refl).
  - exact (proj2 (Hsib eq_refl eq_refl ["home"; "dev"; "project"]
                    ltac:(repeat constructor) eq_refl)).
Defined.

End Placement.
